(** * miniflag: a shallow embedding of flag.go

    The package wraps Go's standard [flag] package.  Go strings are byte
    sequences, so they are Rocq [string]s (one [ascii] per byte); [len] is
    [String.length].  Pointers are indices into typed heaps that live in a
    [World] record; a Go panic and [os.Exit] are explicit outcomes of every
    stateful operation. *)

From Stdlib Require Import ZArith Ascii String Bool Lia.
From stdpp Require Import gmap strings list fin_maps.

Local Open Scope string_scope.

(** ** Byte-level string operations used by the sources *)

(** [s[lo:hi]] for [lo <= hi <= len(s)]. *)
Definition slice (s : string) (lo hi : nat) : string :=
  String.substring lo (hi - lo) s.

(** [s[lo:]] *)
Fixpoint sliceFrom (s : string) (lo : nat) : string :=
  match lo, s with
  | O, _ => s
  | S lo', String _ s' => sliceFrom s' lo'
  | S _, EmptyString => EmptyString
  end.

Definition backtick : ascii := "`"%char.
Definition dash : ascii := "-"%char.
Definition equals : ascii := "="%char.

(** [strings.HasPrefix(s, "-")] *)
Definition HasPrefix_dash (s : string) : bool :=
  match s with
  | String c _ => Ascii.eqb c dash
  | EmptyString => false
  end.

(** [strings.Contains(s, "=")] *)
Fixpoint Contains_equals (s : string) : bool :=
  match s with
  | EmptyString => false
  | String c s' => Ascii.eqb c equals || Contains_equals s'
  end.

(** [strings.ReplaceAll(s, "-", "")]: every dash byte is dropped. *)
Fixpoint ReplaceAll_dash_empty (s : string) : string :=
  match s with
  | EmptyString => EmptyString
  | String c s' =>
      if Ascii.eqb c dash then ReplaceAll_dash_empty s'
      else String c (ReplaceAll_dash_empty s')
  end.

(** ** Flag descriptors *)

(** [type flagInfo struct] *)
Record flagInfo : Type := mkFlagInfo {
  Longhand : string;
  Shorthand : string;
  UsageValue : string;
  Usage : string
}.

(** The zero value [flagInfo{}]. *)
Definition flagInfo_zero : flagInfo := mkFlagInfo "" "" "" "".

(** The [for i := 0; i < len(s); i++] loop of [extractUsageValue]: [rest] is
    [s[i:]], [pos] the loop-carried variable. *)
Fixpoint extractUsageValue_loop (s rest : string) (i pos : nat) : string :=
  match rest with
  | EmptyString => ""
  | String c rest' =>
      if Ascii.eqb c backtick then
        if Nat.eqb pos 0 then extractUsageValue_loop s rest' (S i) (i + 1)
        else slice s pos i
      else extractUsageValue_loop s rest' (S i) pos
  end.

Definition extractUsageValue (s : string) : string :=
  extractUsageValue_loop s s 0 0.

(** Number of backtick bytes of a string. *)
Fixpoint count_backticks (s : string) : nat :=
  match s with
  | EmptyString => 0
  | String c s' => (if Ascii.eqb c backtick then 1 else 0) + count_backticks s'
  end.

(** ** Formatting: the part of [fmt] and [unicode/utf8] that [usageFn] uses *)

(** Width in bytes of the rune that starts with byte [c] and is followed by
    [rest], as [utf8.RuneCountInString] decides it: 1 for ASCII, for an
    invalid or truncated sequence, otherwise the encoded length. *)
Definition runeSize (c : ascii) (rest : string) : nat :=
  let b := nat_of_ascii c in
  let cont (o : option ascii) : bool :=
    match o with
    | Some d => (128 <=? nat_of_ascii d)%nat && (nat_of_ascii d <=? 191)%nat
    | None => false
    end in
  let within (lo hi : nat) (o : option ascii) : bool :=
    match o with
    | Some d => (lo <=? nat_of_ascii d)%nat && (nat_of_ascii d <=? hi)%nat
    | None => false
    end in
  let b1 := String.get 0 rest in
  let b2 := String.get 1 rest in
  let b3 := String.get 2 rest in
  if (b <? 194)%nat then 1
  else if (b <=? 223)%nat then (if within 128 191 b1 then 2 else 1)
  else if (b <=? 239)%nat then
    let lo := if (b =? 224)%nat then 160 else 128 in
    let hi := if (b =? 237)%nat then 159 else 191 in
    if (String.length rest <? 2)%nat then 1
    else if negb (within lo hi b1) then 1
    else if negb (cont b2) then 1 else 3
  else if (b <=? 244)%nat then
    let lo := if (b =? 240)%nat then 144 else 128 in
    let hi := if (b =? 244)%nat then 143 else 191 in
    if (String.length rest <? 3)%nat then 1
    else if negb (within lo hi b1) then 1
    else if negb (cont b2) then 1
    else if negb (cont b3) then 1 else 4
  else 1.

(** [utf8.RuneCountInString]: [skip] bytes of the current rune are still to
    be passed over. *)
Fixpoint RuneCount_loop (s : string) (skip : nat) : nat :=
  match s with
  | EmptyString => 0
  | String c s' =>
      match skip with
      | S k => RuneCount_loop s' k
      | O => S (RuneCount_loop s' (runeSize c s' - 1))
      end
  end.

Definition RuneCountInString (s : string) : nat := RuneCount_loop s 0.

Fixpoint spaces (n : nat) : string :=
  match n with
  | O => ""
  | S n' => String " "%char (spaces n')
  end.

(** The verb [%*s] of [fmt.Fprintf] with width argument [wid] and operand
    [s]: a width over 1e6 in magnitude is refused, a negative one pads on the
    right, and padding counts runes. *)
Definition fmt_star_s (wid : Z) (s : string) : string :=
  if ((1000000 <? wid) || (wid <? -1000000))%Z then "%!(BADWIDTH)" +:+ s
  else
    let n := Z.to_nat (Z.abs wid) - RuneCountInString s in
    if (0 <=? wid)%Z then spaces n +:+ s else s +:+ spaces n.

(** The body of [for i, f := range fs.flags] in [usageFn]; [p] is the length
    of the builder [s] after "usage: <name>", [s] and [u] are the two
    builders. *)
Fixpoint usageFn_loop (p : nat) (fl : list flagInfo) (i : nat) (s u : string)
  : string * string :=
  match fl with
  | [] => (s, u)
  | f :: fl' =>
      if String.eqb (Shorthand f) "" && String.eqb (Longhand f) "" then
        usageFn_loop p fl' (S i) s u
      else
        let c := "" in
        let c := if negb (String.eqb (Shorthand f) "")
                 then c +:+ "-" +:+ Shorthand f else c in
        let c := if negb (String.eqb (Longhand f) "")
                 then (if negb (String.eqb (Shorthand f) "")
                       then c +:+ " " else c) +:+ "--" +:+ Longhand f
                 else c in
        let compound := c in
        let s := if negb (String.eqb (UsageValue f) "")
                 then s +:+ " [" +:+ compound +:+ "=" +:+ UsageValue f +:+ "]"
                 else s +:+ " [" +:+ compound +:+ "]" in
        let s := if Nat.eqb ((i + 1) mod 4) 0
                 then s +:+ String "010"%char (fmt_star_s (Z.of_nat p) "")
                 else s in
        let u := u +:+ fmt_star_s (Z.of_nat (String.length compound) + 4) compound
                   +:+ fmt_star_s (Z.of_nat (String.length (Usage f))
                                   - Z.of_nat (String.length compound) + 16)
                                  (Usage f)
                   +:+ String "010"%char "" in
        usageFn_loop p fl' (S i) s u
  end.

(** What [usageFn] prints for the descriptors [fl] of a set called [name]:
    [fmt.Fprint(fs.Output(), s.String(), "\n", u.String())]. *)
Definition usageFn_text (fl : list flagInfo) (name : string) : string :=
  let s := "usage: " +:+ name in
  let p := String.length s in
  let '(s, u) := usageFn_loop p fl 0 s "" in
  s +:+ String "010"%char "" +:+ u.

(** The synopsis line(s) alone: the builder [s] of [usageFn]. *)
Definition synopsis (fl : list flagInfo) (name : string) : string :=
  let s := "usage: " +:+ name in
  fst (usageFn_loop (String.length s) fl 0 s "").

(** The synopsis as the specification words it, to compare [synopsis] with:
    placeholders are skipped, every other descriptor contributes its
    bracketed group, and after every fourth group that was emitted comes a
    newline and [p] spaces. *)
Definition isPlaceholder (f : flagInfo) : bool :=
  String.eqb (Shorthand f) "" && String.eqb (Longhand f) "".

Definition groupOf (f : flagInfo) : string :=
  let compound :=
    (if negb (String.eqb (Shorthand f) "") then "-" +:+ Shorthand f else "")
    +:+ (if negb (String.eqb (Longhand f) "")
         then (if negb (String.eqb (Shorthand f) "") then " " else "")
              +:+ "--" +:+ Longhand f
         else "") in
  if negb (String.eqb (UsageValue f) "")
  then " [" +:+ compound +:+ "=" +:+ UsageValue f +:+ "]"
  else " [" +:+ compound +:+ "]".

Fixpoint synopsis_spec_groups (p : nat) (fl : list flagInfo) (emitted : nat) : string :=
  match fl with
  | [] => ""
  | f :: fl' =>
      if isPlaceholder f then synopsis_spec_groups p fl' emitted
      else groupOf f
           +:+ (if Nat.eqb ((emitted + 1) mod 4) 0
                then String "010"%char (spaces p) else "")
           +:+ synopsis_spec_groups p fl' (S emitted)
  end.

Definition synopsis_spec (fl : list flagInfo) (name : string) : string :=
  let s := "usage: " +:+ name in
  s +:+ synopsis_spec_groups (String.length s) fl 0.

(** The token list of the positional-extraction example. *)
Definition positionalTokens : list string :=
  ["arg0"; "--bool"; "arg1"; "-s"; "string"; "arg2"].

Definition newline : string := String "010"%char "".

(** The descriptors of a set whose first definition had an empty name and an
    empty shorthand (a placeholder), followed by five flags. *)
Definition placeholderFirst : list flagInfo :=
  [ flagInfo_zero;
    mkFlagInfo "aa" "a" "" "Usage for a";
    mkFlagInfo "bb" "b" "" "Usage for b";
    mkFlagInfo "cc" "c" "" "Usage for c";
    mkFlagInfo "dd" "d" "" "Usage for d";
    mkFlagInfo "ee" "e" "" "Usage for e" ].

(** The same five flags without the placeholder. *)
Definition fiveFlags : list flagInfo :=
  [ mkFlagInfo "aa" "a" "" "Usage for a";
    mkFlagInfo "bb" "b" "" "Usage for b";
    mkFlagInfo "cc" "c" "" "Usage for c";
    mkFlagInfo "dd" "d" "" "Usage for d";
    mkFlagInfo "ee" "e" "" "Usage for e" ].

(** ** The description block of the usage text *)

(** The token [compound] that [usageFn] builds for a descriptor: [-s], [--long]
    or [-s --long]. *)
Definition compoundOf (f : flagInfo) : string :=
  (if negb (String.eqb (Shorthand f) "") then "-" +:+ Shorthand f else "")
  +:+ (if negb (String.eqb (Longhand f) "")
       then (if negb (String.eqb (Shorthand f) "") then " " else "")
            +:+ "--" +:+ Longhand f
       else "").

(** What one pass of the loop of [usageFn] writes to the builder [u]:
    [fmt.Fprintf(&u, "%*s%*s\n", len(compound)+4, compound,
    len(f.Usage)-len(compound)+16, f.Usage)]. *)
Definition descriptionLine (f : flagInfo) : string :=
  fmt_star_s (Z.of_nat (String.length (compoundOf f)) + 4) (compoundOf f)
  +:+ fmt_star_s (Z.of_nat (String.length (Usage f))
                  - Z.of_nat (String.length (compoundOf f)) + 16) (Usage f)
  +:+ newline.

(** The lines of the descriptors that are not placeholders, in order. *)
Fixpoint descriptionBlock (fl : list flagInfo) : string :=
  match fl with
  | [] => ""
  | f :: fl' =>
      if isPlaceholder f then descriptionBlock fl'
      else descriptionLine f +:+ descriptionBlock fl'
  end.

(** Every byte is below 128. *)
Fixpoint isAscii (s : string) : bool :=
  match s with
  | EmptyString => true
  | String c s' => (nat_of_ascii c <? 128)%nat && isAscii s'
  end.

(** ** The external collaborators

    The decoders of [strconv] and [time], the user-supplied value type of the
    [case T] branch and the capacity the runtime picks when [append] has to
    reallocate are not part of the package; the development is parametric in
    them. *)

Class Env : Type := {
  (** A user type [T] whose pointer type implements [flag.Value]. *)
  T : Type;
  (** The [Set] method of [T]'s pointer: the new state, and whether the
      returned error is nil. *)
  T_Set : T -> string -> T * bool;
  (** [T]'s pointer implements [IsBoolFlag()] and it returns true. *)
  T_IsBoolFlag : T -> bool;
  (** [reflect.TypeOf(T).Kind() == reflect.Bool]. *)
  T_Kind_Bool : bool;
  (** [strconv.ParseInt(s, 0, bitSize)] and [strconv.ParseUint(s, 0, bitSize)]:
      the value returned, and whether the error is nil. *)
  ParseInt : string -> nat -> Z * bool;
  ParseUint : string -> nat -> Z * bool;
  (** [strconv.ParseFloat(s, 64)], the result as its IEEE-754 bit pattern. *)
  ParseFloat : string -> Z * bool;
  (** [time.ParseDuration(s)], in nanoseconds. *)
  ParseDuration : string -> Z * bool;
  (** [strconv.IntSize] *)
  IntSize : nat;
  (** Capacity chosen by the runtime when a full slice of capacity [c] grows. *)
  growslice : nat -> nat
}.

Section Miniflag.

Context {E : Env}.

(** [strconv.ParseBool] *)
Definition ParseBool (str : string) : bool * bool :=
  if String.eqb str "1" || String.eqb str "t" || String.eqb str "T"
     || String.eqb str "true" || String.eqb str "TRUE" || String.eqb str "True"
  then (true, true)
  else if String.eqb str "0" || String.eqb str "f" || String.eqb str "F"
     || String.eqb str "false" || String.eqb str "FALSE" || String.eqb str "False"
  then (false, true)
  else (false, false).

(** ** Data model *)

(** The content of a destination variable, tagged with its Go type. *)
Inductive val : Type :=
| VBool (b : bool)
| VString (s : string)
| VInt (z : Z)
| VInt64 (z : Z)
| VUint (z : Z)
| VUint64 (z : Z)
| VFloat64 (bits : Z)
| VDuration (z : Z)
| VCustom (t : T).

(** The dynamic value handed to [defineFlag] as [any(value)]: one of the
    types above, some other non-nil type (whose pointer does not implement
    [flag.Value]), or the nil interface. *)
Inductive dyn : Type :=
| Typed (v : val)
| Other
| Nil.

(** [flag.ErrorHandling] *)
Inductive ErrorHandling : Type := ContinueOnError | ExitOnError | PanicOnError.

(** [flag.Flag]; [Value] is the pointer the flag writes through.  [DefValue]
    is only read by [PrintDefaults], which the package does not call. *)
Record Flag : Type := mkFlag {
  flag_Name : string;
  flag_Usage : string;
  flag_Value : nat
}.

(** [flag.FlagSet] with the fields the package reaches. *)
Record flag_FlagSet : Type := mkStd {
  f_name : string;
  f_parsed : bool;
  f_actual : gmap string Flag;
  f_formal : gmap string Flag;
  f_args : list string;
  f_errorHandling : ErrorHandling;
  f_output : string
}.

(** A slice header [[]flagInfo]: backing array, length, capacity. *)
Record Slice : Type := mkSlice { arr : nat; len : nat; cap : nat }.

(** [type FlagSet[T any] struct]: the embedded pointer to a [flag.FlagSet]
    and [flags []flagInfo]. *)
Record FlagSet : Type := mkFlagSet { std : nat; flags : Slice }.

(** The program state: the package variable [flagSets] and the heaps behind
    the pointers.  Array 0 is the one [flagInfoSlice] was made with. *)
Record World : Type := mkWorld {
  flagSets : gmap string FlagSet;
  arrays : list (list flagInfo);
  stds : list flag_FlagSet;
  sets : list FlagSet;
  cells : list val
}.

(** [flagInfoSlice = make([]flagInfo, 0, 32)]; never reassigned. *)
Definition flagInfoSlice : Slice := mkSlice 0 0 32.

(** ** Outcomes and the state monad *)

Inductive Result (A : Type) : Type :=
| Done (w : World) (a : A)
| Panic (w : World) (msg : string)
| Exit (w : World) (code : Z)
| OutOfFuel.

Arguments Done {A} w a.
Arguments Panic {A} w msg.
Arguments Exit {A} w code.
Arguments OutOfFuel {A}.

Definition M (A : Type) : Type := World -> Result A.

Definition ret {A} (a : A) : M A := fun w => Done w a.

Definition bind {A B} (m : M A) (k : A -> M B) : M B :=
  fun w =>
    match m w with
    | Done w' a => k a w'
    | Panic w' msg => Panic w' msg
    | Exit w' code => Exit w' code
    | OutOfFuel => OutOfFuel
    end.

Definition panic {A} (msg : string) : M A := fun w => Panic w msg.
Definition os_Exit {A} (code : Z) : M A := fun w => Exit w code.

Notation "x <- m ;; k" := (bind m (fun x => k))
  (at level 200, m at level 99, k at level 200, only parsing).
Notation "m ;;; k" := (bind m (fun _ => k))
  (at level 200, k at level 200, only parsing).

Definition nilDeref : string := "invalid memory address or nil pointer dereference".

(** *** Heap accesses *)

Definition setCells (w : World) (c : list val) : World :=
  mkWorld (flagSets w) (arrays w) (stds w) (sets w) c.
Definition setStds (w : World) (s : list flag_FlagSet) : World :=
  mkWorld (flagSets w) (arrays w) s (sets w) (cells w).
Definition setSets (w : World) (s : list FlagSet) : World :=
  mkWorld (flagSets w) (arrays w) (stds w) s (cells w).
Definition setArrays (w : World) (a : list (list flagInfo)) : World :=
  mkWorld (flagSets w) a (stds w) (sets w) (cells w).
Definition setFlagSets (w : World) (m : gmap string FlagSet) : World :=
  mkWorld m (arrays w) (stds w) (sets w) (cells w).

(** A variable that escapes to the heap. *)
Definition newCell (v : val) : M nat :=
  fun w => Done (setCells w (cells w ++ [v])) (length (cells w)).

Definition loadCell (p : nat) : M val :=
  fun w => match cells w !! p with
           | Some v => Done w v
           | None => Panic w nilDeref
           end.

Definition storeCell (p : nat) (v : val) : M unit :=
  fun w => match cells w !! p with
           | Some _ => Done (setCells w (<[p:=v]> (cells w))) tt
           | None => Panic w nilDeref
           end.

Definition newStd (s : flag_FlagSet) : M nat :=
  fun w => Done (setStds w (stds w ++ [s])) (length (stds w)).

Definition loadStd (f : nat) : M flag_FlagSet :=
  fun w => match stds w !! f with
           | Some s => Done w s
           | None => Panic w nilDeref
           end.

Definition storeStd (f : nat) (s : flag_FlagSet) : M unit :=
  fun w => match stds w !! f with
           | Some _ => Done (setStds w (<[f:=s]> (stds w))) tt
           | None => Panic w nilDeref
           end.

Definition newSet (s : FlagSet) : M nat :=
  fun w => Done (setSets w (sets w ++ [s])) (length (sets w)).

Definition loadSet (fs : nat) : M FlagSet :=
  fun w => match sets w !! fs with
           | Some s => Done w s
           | None => Panic w nilDeref
           end.

Definition storeSet (fs : nat) (s : FlagSet) : M unit :=
  fun w => match sets w !! fs with
           | Some _ => Done (setSets w (<[fs:=s]> (sets w))) tt
           | None => Panic w nilDeref
           end.

(** ** The standard [flag] package, as far as the package drives it *)

(** The error values [FlagSet.Parse] can return. *)
Inductive Error : Type :=
| ErrHelp
| ErrBadSyntax (s : string)
| ErrNotDefined (name : string)
| ErrInvalidBool (value name : string)
| ErrNeedsArgument (name : string)
| ErrInvalidValue (value name : string).

(** [flag.NewFlagSet] *)
Definition flag_NewFlagSet (name : string) (errorHandling : ErrorHandling) : M nat :=
  newStd (mkStd name false ∅ ∅ [] errorHandling "").

(** [FlagSet.Var]: the name checks, then the redefinition check. *)
Definition flag_Var (f : nat) (value : nat) (name usage : string) : M unit :=
  if HasPrefix_dash name then panic ("flag begins with -: " +:+ name)
  else if Contains_equals name then panic ("flag contains =: " +:+ name)
  else
    s <- loadStd f ;;
    match f_formal s !! name with
    | Some _ => panic ("flag redefined: " +:+ name)
    | None =>
        storeStd f (mkStd (f_name s) (f_parsed s) (f_actual s)
                          (<[name := mkFlag name usage value]> (f_formal s))
                          (f_args s) (f_errorHandling s) (f_output s))
    end.

(** [FlagSet.BoolVar(p, name, value, usage)] and its siblings: the
    constructor of the value stores the default through [p], then [Var]
    registers the pointer. *)
Definition flag_BoolVar (f p : nat) (name : string) (value : bool) (usage : string) : M unit :=
  storeCell p (VBool value) ;;; flag_Var f p name usage.
Definition flag_StringVar (f p : nat) (name : string) (value : string) (usage : string) : M unit :=
  storeCell p (VString value) ;;; flag_Var f p name usage.
Definition flag_IntVar (f p : nat) (name : string) (value : Z) (usage : string) : M unit :=
  storeCell p (VInt value) ;;; flag_Var f p name usage.
Definition flag_Int64Var (f p : nat) (name : string) (value : Z) (usage : string) : M unit :=
  storeCell p (VInt64 value) ;;; flag_Var f p name usage.
Definition flag_UintVar (f p : nat) (name : string) (value : Z) (usage : string) : M unit :=
  storeCell p (VUint value) ;;; flag_Var f p name usage.
Definition flag_Uint64Var (f p : nat) (name : string) (value : Z) (usage : string) : M unit :=
  storeCell p (VUint64 value) ;;; flag_Var f p name usage.
Definition flag_Float64Var (f p : nat) (name : string) (value : Z) (usage : string) : M unit :=
  storeCell p (VFloat64 value) ;;; flag_Var f p name usage.
Definition flag_DurationVar (f p : nat) (name : string) (value : Z) (usage : string) : M unit :=
  storeCell p (VDuration value) ;;; flag_Var f p name usage.

(** [FlagSet.Lookup] *)
Definition flag_Lookup (f : nat) (name : string) : M (option Flag) :=
  s <- loadStd f ;; ret (f_formal s !! name).

(** [FlagSet.Args] *)
Definition flag_Args (f : nat) : M (list string) :=
  s <- loadStd f ;; ret (f_args s).

(** [FlagSet.Name] *)
Definition flag_Name_of (f : nat) : M string :=
  s <- loadStd f ;; ret (f_name s).

(** [Value.Set] through the pointer [p]; the decoded value is stored whether
    or not decoding succeeded, as the standard value types do.  The result
    tells whether the error is nil. *)
Definition Value_Set (p : nat) (s : string) : M bool :=
  v <- loadCell p ;;
  match v with
  | VBool _ => let '(b, ok) := ParseBool s in storeCell p (VBool b) ;;; ret ok
  | VString _ => storeCell p (VString s) ;;; ret true
  | VInt _ => let '(z, ok) := ParseInt s IntSize in storeCell p (VInt z) ;;; ret ok
  | VInt64 _ => let '(z, ok) := ParseInt s 64 in storeCell p (VInt64 z) ;;; ret ok
  | VUint _ => let '(z, ok) := ParseUint s IntSize in storeCell p (VUint z) ;;; ret ok
  | VUint64 _ => let '(z, ok) := ParseUint s 64 in storeCell p (VUint64 z) ;;; ret ok
  | VFloat64 _ => let '(z, ok) := ParseFloat s in storeCell p (VFloat64 z) ;;; ret ok
  | VDuration _ => let '(z, ok) := ParseDuration s in storeCell p (VDuration z) ;;; ret ok
  | VCustom t => let '(t', ok) := T_Set t s in storeCell p (VCustom t') ;;; ret ok
  end.

(** [fv, ok := flag.Value.(boolFlag); ok && fv.IsBoolFlag()] *)
Definition Value_IsBoolFlag (p : nat) : M bool :=
  v <- loadCell p ;;
  match v with
  | VBool _ => ret true
  | VCustom t => ret (T_IsBoolFlag t)
  | _ => ret false
  end.

(** [reflect.TypeOf(f.Value).Elem().Kind() == reflect.Bool] *)
Definition Value_Elem_Kind_Bool (p : nat) : M bool :=
  v <- loadCell p ;;
  match v with
  | VBool _ => ret true
  | VCustom _ => ret T_Kind_Bool
  | _ => ret false
  end.

(** [s[i] == c], false when [i] is out of range (the callers test the
    length first). *)
Definition byteIs (s : string) (i : nat) (c : ascii) : bool :=
  match String.get i s with
  | Some d => Ascii.eqb d c
  | None => false
  end.

(** The loop [for i := 1; i < len(name); i++] of [parseOne]: the index of
    the first [=] at position [i] or later, [rest] being [name[i:]]. *)
Fixpoint findEquals (rest : string) (i : nat) : option nat :=
  match rest with
  | EmptyString => None
  | String c rest' => if Ascii.eqb c equals then Some i else findEquals rest' (S i)
  end.

Definition setArgs (f : nat) (a : list string) : M unit :=
  s <- loadStd f ;;
  storeStd f (mkStd (f_name s) (f_parsed s) (f_actual s) (f_formal s) a
                    (f_errorHandling s) (f_output s)).

Definition setParsed (f : nat) : M unit :=
  s <- loadStd f ;;
  storeStd f (mkStd (f_name s) true (f_actual s) (f_formal s) (f_args s)
                    (f_errorHandling s) (f_output s)).

Definition setActual (f : nat) (name : string) (fl : Flag) : M unit :=
  s <- loadStd f ;;
  storeStd f (mkStd (f_name s) (f_parsed s) (<[name := fl]> (f_actual s))
                    (f_formal s) (f_args s) (f_errorHandling s) (f_output s)).

(** [FlagSet.parseOne]: whether a flag was seen, and the error.  The text
    that [failf] and the standard usage function print is not recorded. *)
Definition flag_parseOne (f : nat) : M (bool * option Error) :=
  fs <- loadStd f ;;
  match f_args fs with
  | [] => ret (false, None)
  | s :: rest =>
      if (String.length s <? 2)%nat || negb (byteIs s 0 dash) then ret (false, None)
      else
        let numMinuses := if byteIs s 1 dash then 2 else 1 in
        if byteIs s 1 dash && (String.length s =? 2)%nat then
          setArgs f rest ;;; ret (false, None)
        else
          let name := sliceFrom s numMinuses in
          if (String.length name =? 0)%nat || byteIs name 0 dash || byteIs name 0 equals
          then ret (false, Some (ErrBadSyntax s))
          else
            setArgs f rest ;;;
            let '(name, value, hasValue) :=
              match findEquals (sliceFrom name 1) 1 with
              | Some i => (slice name 0 i, sliceFrom name (i + 1), true)
              | None => (name, "", false)
              end in
            fs <- loadStd f ;;
            match f_formal fs !! name with
            | None =>
                if String.eqb name "help" || String.eqb name "h"
                then ret (false, Some ErrHelp)
                else ret (false, Some (ErrNotDefined name))
            | Some flag =>
                isBool <- Value_IsBoolFlag (flag_Value flag) ;;
                if isBool then
                  ok <- Value_Set (flag_Value flag) (if hasValue then value else "true") ;;
                  if ok then setActual f name flag ;;; ret (true, None)
                  else ret (false, Some (ErrInvalidBool (if hasValue then value else "true") name))
                else
                  match hasValue, f_args fs with
                  | false, [] => ret (false, Some (ErrNeedsArgument name))
                  | false, value :: rest' =>
                      setArgs f rest' ;;;
                      ok <- Value_Set (flag_Value flag) value ;;
                      if ok then setActual f name flag ;;; ret (true, None)
                      else ret (false, Some (ErrInvalidValue value name))
                  | true, _ =>
                      ok <- Value_Set (flag_Value flag) value ;;
                      if ok then setActual f name flag ;;; ret (true, None)
                      else ret (false, Some (ErrInvalidValue value name))
                  end
            end
  end.

(** The [for] loop of [FlagSet.Parse]. *)
Fixpoint flag_Parse_loop (fuel : nat) (f : nat) : M (option Error) :=
  match fuel with
  | O => fun _ => OutOfFuel
  | S fuel' =>
      r <- flag_parseOne f ;;
      let '(seen, err) := r in
      if seen then flag_Parse_loop fuel' f
      else
        match err with
        | None => ret None
        | Some e =>
            fs <- loadStd f ;;
            match f_errorHandling fs with
            | ContinueOnError => ret (Some e)
            | ExitOnError =>
                match e with
                | ErrHelp => os_Exit 0
                | _ => os_Exit 2
                end
            | PanicOnError => panic "flag: parse error"
            end
        end
  end.

(** [FlagSet.Parse]; every pass that sees a flag consumes a token, so one
    pass more than there are tokens is enough. *)
Definition flag_Parse (f : nat) (arguments : list string) : M (option Error) :=
  setParsed f ;;;
  setArgs f arguments ;;;
  flag_Parse_loop (S (length arguments)) f.

(** ** Slices of descriptors *)

(** The elements a slice header shows: the first [len] entries of its
    backing array. *)
Definition view (w : World) (s : Slice) : list flagInfo :=
  match arrays w !! arr s with
  | Some a => take (len s) a
  | None => []
  end.

(** [append(s, x)]: while there is spare capacity the element is written
    into the backing array the header already points to; otherwise the
    elements move to a fresh, larger array. *)
Definition append (s : Slice) (x : flagInfo) : M Slice :=
  fun w =>
    if (len s <? cap s)%nat then
      match arrays w !! arr s with
      | Some a =>
          Done (setArrays w (<[arr s := <[len s := x]> a]> (arrays w)))
               (mkSlice (arr s) (S (len s)) (cap s))
      | None => Panic w nilDeref
      end
    else
      let c := Nat.max (S (len s)) (growslice (cap s)) in
      Done (setArrays w (arrays w ++
              [(view w s ++ x :: replicate (c - S (len s)) flagInfo_zero)%list]))
           (mkSlice (length (arrays w)) (S (len s)) c).

(** ** The package *)

(** [NewFlagSet]: the struct is stored by value in [flagSets] and a pointer
    to it is returned; both carry the header [flagInfoSlice]. *)
Definition NewFlagSet (name : string) (errorHandling : ErrorHandling) : M nat :=
  f <- flag_NewFlagSet name errorHandling ;;
  let fs := mkFlagSet f flagInfoSlice in
  (fun w => Done (setFlagSets w (<[name := fs]> (flagSets w))) tt) ;;;
  newSet fs.

(** [fs.Parse(args)] through a pointer to the wrapper: the method is
    promoted from the embedded [*flag.FlagSet]. *)
Definition FlagSet_Parse (fs : nat) (args : list string) : M (option Error) :=
  s <- loadSet fs ;; flag_Parse (std s) args.

(** [parse] *)
Definition parse (fs : nat) (args : list string) : M (option Error) :=
  let l := length args in
  let direct := FlagSet_Parse fs args in
  if (1 <? l)%nat then
    match args with
    | a0 :: tail =>
        fun w =>
          match flagSets w !! a0 with
          | Some f => flag_Parse (std f) tail w
          | None => direct w
          end
    | [] => direct
    end
  else direct.

(** The body of [for i, arg := range args] in [args]: [all] is the whole
    slice, [rest] is [all[i:]], [pArgs] the result so far. *)
Fixpoint args_loop (f : nat) (all rest : list string) (i : nat) (pArgs : list string)
  : M (list string) :=
  match rest with
  | [] => ret pArgs
  | arg :: rest' =>
      if String.eqb arg "" then args_loop f all rest' (S i) (pArgs ++ [arg])%list
      else if byteIs arg 0 dash then args_loop f all rest' (S i) pArgs
      else
        skip <-
          (if (0 <? i)%nat then
             match all !! (i - 1) with
             | None => panic "index out of range"
             | Some prev =>
                 match String.get 0 prev with
                 | None => panic "index out of range [0] with length 0"
                 | Some c =>
                     if Ascii.eqb c dash then
                       fl <- flag_Lookup f (ReplaceAll_dash_empty prev) ;;
                       match fl with
                       | Some fl =>
                           isBool <- Value_Elem_Kind_Bool (flag_Value fl) ;;
                           ret (negb isBool)
                       | None => ret false
                       end
                     else ret false
                 end
             end
           else ret false) ;;
        if (skip : bool) then args_loop f all rest' (S i) pArgs
        else args_loop f all rest' (S i) (pArgs ++ [arg])%list
  end.

(** [args] *)
Definition args (fs : nat) : M (list string) :=
  s <- loadSet fs ;;
  args <- flag_Args (std s) ;;
  args_loop (std s) args args 0 [].

(** [defineUsage]; the pointer [pflags] is the address of the [flags] field
    of the [FlagSet] it is given as. *)
Definition defineUsage (pflags : nat) (name shorthand usage : string) : M unit :=
  let '(name, shorthand) :=
    if (String.length name =? 1)%nat then ("", name) else (name, shorthand) in
  fs <- loadSet pflags ;;
  s' <- append (flags fs)
          (mkFlagInfo name shorthand (extractUsageValue usage) usage) ;;
  storeSet pflags (mkFlagSet (std fs) s').

(** [boolVar] and its siblings.  The parameter [value] escapes, so it is a
    heap variable; the same pointer [&value] goes to both registrations and
    is returned. *)
Definition boolVar (fs : nat) (name shorthand : string) (value : bool) (usage : string) : M nat :=
  p <- newCell (VBool value) ;;
  s <- loadSet fs ;;
  flag_BoolVar (std s) p name value usage ;;;
  (if negb (String.eqb shorthand "")
   then flag_BoolVar (std s) p shorthand value usage else ret tt) ;;;
  ret p.

Definition stringVar (fs : nat) (name shorthand : string) (value : string) (usage : string) : M nat :=
  p <- newCell (VString value) ;;
  s <- loadSet fs ;;
  flag_StringVar (std s) p name value usage ;;;
  (if negb (String.eqb shorthand "")
   then flag_StringVar (std s) p shorthand value usage else ret tt) ;;;
  ret p.

Definition intVar (fs : nat) (name shorthand : string) (value : Z) (usage : string) : M nat :=
  p <- newCell (VInt value) ;;
  s <- loadSet fs ;;
  flag_IntVar (std s) p name value usage ;;;
  (if negb (String.eqb shorthand "")
   then flag_IntVar (std s) p shorthand value usage else ret tt) ;;;
  ret p.

Definition int64Var (fs : nat) (name shorthand : string) (value : Z) (usage : string) : M nat :=
  p <- newCell (VInt64 value) ;;
  s <- loadSet fs ;;
  flag_Int64Var (std s) p name value usage ;;;
  (if negb (String.eqb shorthand "")
   then flag_Int64Var (std s) p shorthand value usage else ret tt) ;;;
  ret p.

Definition uintVar (fs : nat) (name shorthand : string) (value : Z) (usage : string) : M nat :=
  p <- newCell (VUint value) ;;
  s <- loadSet fs ;;
  flag_UintVar (std s) p name value usage ;;;
  (if negb (String.eqb shorthand "")
   then flag_UintVar (std s) p shorthand value usage else ret tt) ;;;
  ret p.

Definition uint64Var (fs : nat) (name shorthand : string) (value : Z) (usage : string) : M nat :=
  p <- newCell (VUint64 value) ;;
  s <- loadSet fs ;;
  flag_Uint64Var (std s) p name value usage ;;;
  (if negb (String.eqb shorthand "")
   then flag_Uint64Var (std s) p shorthand value usage else ret tt) ;;;
  ret p.

Definition float64Var (fs : nat) (name shorthand : string) (value : Z) (usage : string) : M nat :=
  p <- newCell (VFloat64 value) ;;
  s <- loadSet fs ;;
  flag_Float64Var (std s) p name value usage ;;;
  (if negb (String.eqb shorthand "")
   then flag_Float64Var (std s) p shorthand value usage else ret tt) ;;;
  ret p.

Definition durationVar (fs : nat) (name shorthand : string) (value : Z) (usage : string) : M nat :=
  p <- newCell (VDuration value) ;;
  s <- loadSet fs ;;
  flag_DurationVar (std s) p name value usage ;;;
  (if negb (String.eqb shorthand "")
   then flag_DurationVar (std s) p shorthand value usage else ret tt) ;;;
  ret p.

(** [valueVar]: [any(&value).(flag.Value)] succeeds for a [T] value. *)
Definition valueVar (fs : nat) (name shorthand : string) (value : T) (usage : string) : M nat :=
  p <- newCell (VCustom value) ;;
  s <- loadSet fs ;;
  flag_Var (std s) p name usage ;;;
  (if negb (String.eqb shorthand "")
   then flag_Var (std s) p shorthand usage else ret tt) ;;;
  ret p.

(** [defineFlag]: the returned pointer, [None] for Go's [nil].  For a
    non-nil value of a type outside the switch the assertion to [flag.Value]
    in [valueVar] panics. *)
Definition defineFlag (fs : nat) (name shorthand : string) (value : dyn) (usage : string)
  : M (option nat) :=
  let shorthand := if String.eqb name shorthand then "" else shorthand in
  defineUsage fs name shorthand usage ;;;
  match value with
  | Typed (VBool v) => p <- boolVar fs name shorthand v usage ;; ret (Some p)
  | Typed (VString v) => p <- stringVar fs name shorthand v usage ;; ret (Some p)
  | Typed (VInt v) => p <- intVar fs name shorthand v usage ;; ret (Some p)
  | Typed (VInt64 v) => p <- int64Var fs name shorthand v usage ;; ret (Some p)
  | Typed (VUint v) => p <- uintVar fs name shorthand v usage ;; ret (Some p)
  | Typed (VUint64 v) => p <- uint64Var fs name shorthand v usage ;; ret (Some p)
  | Typed (VFloat64 v) => p <- float64Var fs name shorthand v usage ;; ret (Some p)
  | Typed (VDuration v) => p <- durationVar fs name shorthand v usage ;; ret (Some p)
  | Typed (VCustom v) => p <- valueVar fs name shorthand v usage ;; ret (Some p)
  | Other => panic "interface conversion: missing method Set"
  | Nil => ret None
  end.

(** [SetFlag] *)
Definition SetFlag (fs : nat) (name shorthand : string) (value : dyn) (usage : string)
  : M (option nat) :=
  defineFlag fs name shorthand value usage.

(** [usageFn]: the text is written to [fs.Output()]. *)
Definition usageFn (fs : nat) (name : string) : M unit :=
  s <- loadSet fs ;;
  fun w =>
    let text := usageFn_text (view w (flags s)) name in
    (f <- loadStd (std s) ;;
     storeStd (std s) (mkStd (f_name f) (f_parsed f) (f_actual f) (f_formal f)
                             (f_args f) (f_errorHandling f) (f_output f +:+ text))) w.

(** [FlagSet.Usage] of the wrapper. *)
Definition FlagSet_Usage (fs : nat) : M unit :=
  s <- loadSet fs ;;
  name <- flag_Name_of (std s) ;;
  usageFn fs name.

(** The package variable [CommandLine]: the first set ever created. *)
Definition CommandLine : nat := 0.

(** Package initialisation with [os.Args[0] = prog]: the array behind
    [flagInfoSlice], the empty [flagSets], then [CommandLine]. *)
Definition init (prog : string) : Result nat :=
  NewFlagSet prog ExitOnError
    (mkWorld ∅ [replicate 32 flagInfo_zero] [] [] []).

(** [Flag], [Args] and [Parse] of the default set; [osArgs] is [os.Args[1:]]. *)
Definition Flag_ (name shorthand : string) (value : dyn) (usage : string) : M (option nat) :=
  defineFlag CommandLine name shorthand value usage.
Definition Args : M (list string) := args CommandLine.
Definition Parse (osArgs : list string) : M (option Error) := parse CommandLine osArgs.

(** ** Vocabulary of the statements *)

(** The state an operation leaves behind, however it ends. *)
Definition finalWorld {A} (r : Result A) : option World :=
  match r with
  | Done w _ => Some w
  | Panic w _ => Some w
  | Exit w _ => Some w
  | OutOfFuel => None
  end.

(** [Q] holds of a normal return, [X] of the state at a panic or an exit;
    running out of fuel satisfies nothing. *)
Definition outcome {A} (r : Result A) (Q : World -> A -> Prop) (X : World -> Prop) : Prop :=
  match r with
  | Done w a => Q w a
  | Panic w _ => X w
  | Exit w _ => X w
  | OutOfFuel => False
  end.

(** The state a result carries. *)
Definition emptyWorld : World := mkWorld ∅ [] [] [] [].

Definition worldOf {A} (r : Result A) : World :=
  match r with
  | Done w _ => w
  | Panic w _ => w
  | Exit w _ => w
  | OutOfFuel => emptyWorld
  end.

(** The descriptor sequence of the set that [fs] points to. *)
Definition descriptors (w : World) (fs : nat) : list flagInfo :=
  match sets w !! fs with
  | Some s => view w (flags s)
  | None => []
  end.

(** A slice header that fits its backing array. *)
Definition wfSlice (w : World) (s : Slice) : bool :=
  (len s <=? cap s)%nat &&
  match arrays w !! arr s with
  | Some a => (cap s <=? length a)%nat
  | None => (cap s =? 0)%nat
  end.

(** The set [fs] exists, its descriptor slice fits its array and its
    embedded [flag.FlagSet] exists. *)
Definition wfSet (w : World) (fs : nat) : bool :=
  match sets w !! fs with
  | Some s => wfSlice w (flags s) && bool_decide (is_Some (stds w !! std s))
  | None => false
  end.

(** The flag registered under [id] in the set [fs]. *)
Definition lookupFlag (w : World) (fs : nat) (id : string) : option Flag :=
  match sets w !! fs with
  | Some s =>
      match stds w !! std s with
      | Some st => f_formal st !! id
      | None => None
      end
  | None => None
  end.

(** What the destination of the flag registered under [id] holds. *)
Definition readThrough (w : World) (fs : nat) (id : string) : option val :=
  match lookupFlag w fs id with
  | Some fl => cells w !! flag_Value fl
  | None => None
  end.

(** No flag is registered in any set. *)
Definition noFlags (w : World) : bool :=
  forallb (fun st => bool_decide (f_formal st = ∅)) (stds w).

(** A name [flag.Var] accepts. *)
Definition validName (name : string) : bool :=
  negb (HasPrefix_dash name) && negb (Contains_equals name).

(** A definition call with [name] and [shorthand] registers under [id]. *)
Definition defines (name shorthand id : string) : Prop :=
  id = name \/ (shorthand <> "" /\ id = shorthand).

(** A token with its one or two leading dashes removed. *)
Definition stripDashes (t : string) : option string :=
  match t with
  | String c r =>
      if Ascii.eqb c dash then
        match r with
        | String c' r' => if Ascii.eqb c' dash then Some r' else Some r
        | EmptyString => Some r
        end
      else None
  | EmptyString => None
  end.

(** The token [t] is a marker of the flag [id]: [-id], [--id], or one of
    them followed by [=] and a value. *)
Definition refersTo (t id : string) : bool :=
  match stripDashes t with
  | Some body => String.eqb body id || String.prefix (id +:+ "=") body
  | None => false
  end.

(** Some token of [args] is a marker of the (non-empty) identifier [id]. *)
Definition mentions (args : list string) (id : string) : bool :=
  negb (String.eqb id "") && existsb (fun t => refersTo t id) args.

(** No token of [args] is a marker of a (non-empty) identifier of [ids]. *)
Definition quiet (ids : list string) (t : string) : bool :=
  forallb (fun id => String.eqb id "" || negb (refersTo t id)) ids.

(** The arguments the standard set [f] still holds. *)
Definition argsOf (w : World) (f : nat) : list string :=
  match stds w !! f with
  | Some st => f_args st
  | None => []
  end.

(** Every flag, of whatever set, that writes through [p] is registered under
    an identifier of [ids]. *)
Definition boundOnly (w : World) (p : nat) (ids : list string) : Prop :=
  forall (f : nat) (st : flag_FlagSet) (id : string) (fl : Flag),
    stds w !! f = Some st -> f_formal st !! id = Some fl ->
    flag_Value fl = p -> id ∈ ids.

(** What parsing may change between two states: not the variable [p], not
    which flags are registered, and the arguments of [f] only by dropping
    leading ones. *)
Definition parseStep (p f : nat) (w w' : World) : Prop :=
  cells w' !! p = cells w !! p
  /\ (forall g, f_formal <$> (stds w' !! g) = f_formal <$> (stds w !! g))
  /\ (forall g, f_errorHandling <$> (stds w' !! g) = f_errorHandling <$> (stds w !! g))
  /\ argsOf w' f `suffix_of` argsOf w f.

(** Every registered flag writes through an allocated variable. *)
Definition heapClosed (w : World) : Prop :=
  Forall (fun s => map_Forall (fun _ fl => flag_Value fl < length (cells w))
                              (f_formal s))
         (stds w).

(** The variable [p] holds [d], only the identifiers [ids] write through it,
    and every flag writes through an allocated variable. *)
Definition owned (p : nat) (d : val) (ids : list string) (w : World) : Prop :=
  cells w !! p = Some d /\ boundOnly w p ids
  /\ (forall f st id fl, stds w !! f = Some st -> f_formal st !! id = Some fl ->
                         flag_Value fl < length (cells w)).

(** A state the package keeps itself in: every set that was allocated is
    well formed, the array behind [flagInfoSlice] is in place, and every
    registered flag writes through an allocated variable. *)
Definition wfWorld (w : World) : Prop :=
  (forall fs, fs < length (sets w) -> wfSet w fs = true)
  /\ wfSlice w flagInfoSlice = true
  /\ heapClosed w.

(** [setup w w']: the state [w'] is reached from [w] by creating sets and
    defining flags, every call returning normally. *)
Inductive setup : World -> World -> Prop :=
| setup_done (w : World) : setup w w
| setup_NewFlagSet (w w1 w2 : World) (name : string) (errorHandling : ErrorHandling)
    (fs : nat) :
    setup w w1 -> NewFlagSet name errorHandling w1 = Done w2 fs -> setup w w2
| setup_defineFlag (w w1 w2 : World) (fs : nat) (name shorthand : string)
    (value : dyn) (usage : string) (r : option nat) :
    setup w w1 -> defineFlag fs name shorthand value usage w1 = Done w2 r ->
    setup w w2.

(** The set [st] with [name] registered for the pointer [p]. *)
Definition addFormal (st : flag_FlagSet) (name usage : string) (p : nat) : flag_FlagSet :=
  mkStd (f_name st) (f_parsed st) (f_actual st)
        (<[name := mkFlag name usage p]> (f_formal st))
        (f_args st) (f_errorHandling st) (f_output st).

(** The set [st] with [name] and, unless it is empty, [shorthand] registered
    for the pointer [p]. *)
Definition addBoth (st : flag_FlagSet) (name shorthand usage : string) (p : nat)
  : flag_FlagSet :=
  let st1 := addFormal st name usage p in
  if String.eqb shorthand "" then st1 else addFormal st1 shorthand usage p.

(** The descriptor [defineUsage] builds. *)
Definition descriptorOf (name shorthand usage : string) : flagInfo :=
  if (String.length name =? 1)%nat
  then mkFlagInfo "" name (extractUsageValue usage) usage
  else mkFlagInfo name shorthand (extractUsageValue usage) usage.

(** The registration shared by [boolVar] and its siblings once the variable
    holds its default: both identifiers get the pointer [p]. *)
Definition bindBoth (fs : nat) (name shorthand : string) (v : val) (usage : string) : M nat :=
  p <- newCell v ;;
  s <- loadSet fs ;;
  flag_Var (std s) p name usage ;;;
  (if negb (String.eqb shorthand "")
   then flag_Var (std s) p shorthand usage else ret tt) ;;;
  ret p.

(** *** Vocabulary of the statements about parsing and positional arguments *)

(** Some empty token of [l] is directly followed by a token that is neither
    empty nor starts with a dash. *)
Fixpoint hasEmptyBeforePlain (l : list string) : bool :=
  match l with
  | a :: l' =>
      match l' with
      | b :: _ =>
          (String.eqb a "" && negb (String.eqb b "") && negb (byteIs b 0 dash))
          || hasEmptyBeforePlain l'
      | [] => false
      end
  | [] => false
  end.

(** The standard set [st] once [Parse] has marked it parsed and it holds the
    arguments [a]. *)
Definition parsedWith (st : flag_FlagSet) (a : list string) : flag_FlagSet :=
  mkStd (f_name st) true (f_actual st) (f_formal st) a
        (f_errorHandling st) (f_output st).

(** The state [w] with the standard set at [f] replaced by [st]. *)
Definition withStd (w : World) (f : nat) (st : flag_FlagSet) : World :=
  setStds w (<[f := st]> (stds w)).

(** A token the parser does not take for a flag: shorter than two bytes, or
    not starting with a dash. *)
Definition nonFlag (t : string) : bool :=
  (String.length t <? 2)%nat || negb (byteIs t 0 dash).

End Miniflag.

Arguments Done {E A} w a.
Arguments Panic {E A} w msg.
Arguments Exit {E A} w code.
Arguments OutOfFuel {E A}.

Notation "x <- m ;; k" := (bind m (fun x => k))
  (at level 200, m at level 99, k at level 200, only parsing).
Notation "m ;;; k" := (bind m (fun _ => k))
  (at level 200, k at level 200, only parsing).

(** ** An environment to run the model in

    The custom value type of flag_test.go ([customSliceFlag], whose [Set]
    appends and never fails), decoders that read plain decimal numerals, and
    a runtime that doubles capacities.  The theorems hold for every
    environment; this one serves the closed examples. *)

Definition customSliceFlag : Type := list string.

Definition customSliceFlag_Set (s : customSliceFlag) (value : string)
  : customSliceFlag * bool :=
  ((s ++ [value])%list, true).

Fixpoint decimal_digits (s : string) (acc : Z) : Z * bool :=
  match s with
  | EmptyString => (acc, true)
  | String c s' =>
      let n := nat_of_ascii c in
      if (48 <=? n)%nat && (n <=? 57)%nat
      then decimal_digits s' (10 * acc + Z.of_nat (n - 48))%Z
      else (0%Z, false)
  end.

Definition decimal (s : string) : Z * bool :=
  match s with
  | EmptyString => (0%Z, false)
  | String c s' =>
      if Ascii.eqb c dash then
        match s' with
        | EmptyString => (0%Z, false)
        | _ => let '(z, ok) := decimal_digits s' 0 in ((- z)%Z, ok)
        end
      else decimal_digits s 0
  end.

Definition runEnv : Env := {|
  T := customSliceFlag;
  T_Set := customSliceFlag_Set;
  T_IsBoolFlag := fun _ => false;
  T_Kind_Bool := false;
  ParseInt := fun s _ => decimal s;
  ParseUint := fun s _ => decimal_digits s 0;
  ParseFloat := fun _ => (0%Z, false);
  ParseDuration := fun _ => (0%Z, false);
  IntSize := 64;
  growslice := fun c => 2 * c
|}.

(** *** States of example programs, in that environment *)

Section RunWorlds.

Local Existing Instance runEnv.

(** After package initialisation of a program called cmd: the default set
    is at pointer 0. *)
Definition runWorld : World := worldOf (init "cmd").

(** After [NewFlagSet("", ContinueOnError)]: the new set is at pointer 1. *)
Definition testWorld : World := worldOf (NewFlagSet "" ContinueOnError runWorld).

(** Then "string"/"s" defined on it (destination 0), then "bool"/"b"
    (destination 1). *)
Definition stringWorld : World :=
  worldOf (defineFlag 1 "string" "s" (Typed (VString "dflt")) "Test string flag"
                      testWorld).
Definition stringBoolWorld : World :=
  worldOf (defineFlag 1 "bool" "b" (Typed (VBool false)) "bool flag" stringWorld).

(** A set called "sub" (pointer 1) that defines -x, next to the default set. *)
Definition subWorld : World :=
  worldOf ((fs <- NewFlagSet "sub" ContinueOnError ;;
            SetFlag fs "x" "" (Typed (VBool false)) "") runWorld).

(** A set (pointer 1) with "bool"/"b" defined, default false, after parsing
    the single token -b. *)
Definition boolParsedWorld : World :=
  worldOf ((fs <- NewFlagSet "" ContinueOnError ;;
            SetFlag fs "bool" "b" (Typed (VBool false)) "Test bool flag" ;;;
            FlagSet_Parse fs ["-b"]) runWorld).

(** Two sets "a" (pointer 1) and "b" (pointer 2); "alpha" defined on the
    first, then "beta" on the second. *)
Definition alphaWorld : World :=
  worldOf ((fs1 <- NewFlagSet "a" ContinueOnError ;;
            fs2 <- NewFlagSet "b" ContinueOnError ;;
            SetFlag fs1 "alpha" "" (Typed (VBool false)) "") runWorld).
Definition alphaBetaWorld : World :=
  worldOf (SetFlag 2 "beta" "" (Typed (VBool false)) "" alphaWorld).

(** The set of [stringBoolWorld] after parsing the positional example. *)
Definition positionalWorld : World :=
  worldOf (FlagSet_Parse 1 positionalTokens stringBoolWorld).

(** The empty set of [testWorld] after parsing an empty token and x. *)
Definition emptyTokenWorld : World :=
  worldOf (FlagSet_Parse 1 [""; "x"] testWorld).

End RunWorlds.

(** * Properties *)

(** *** Strings *)

Lemma append_cons (y : ascii) (a r : string) : String y a +:+ r = String y (a +:+ r).
Proof. reflexivity. Qed.

Lemma append_nil (r : string) : "" +:+ r = r.
Proof. reflexivity. Qed.

Ltac sapp := rewrite ?append_cons, ?append_nil in *; simpl in *.

Lemma substring_0_length (b c : string) :
  String.substring 0 (String.length b) (b +:+ c) = b.
Proof. induction b as [|x b IH]; sapp; [by destruct c | by rewrite IH]. Qed.

Lemma substring_skip (a r : string) (n : nat) :
  String.substring (String.length a) n (a +:+ r) = String.substring 0 n r.
Proof. induction a as [|x a IH]; sapp; [done | apply IH]. Qed.

Lemma append_snoc (a r : string) (x : ascii) :
  a +:+ String x r = (a +:+ String x "") +:+ r.
Proof. induction a as [|y a IH]; sapp; [done | by rewrite <- IH]. Qed.

Lemma length_snoc (a : string) (x : ascii) :
  String.length (a +:+ String x "") = String.length a + 1.
Proof. induction a as [|y a IH]; sapp; [done | by rewrite IH]. Qed.

Lemma slice_middle (a b c : string) (x : ascii) :
  slice (a +:+ String x (b +:+ c)) (String.length a + 1)
        (String.length a + 1 + String.length b) = b.
Proof.
  unfold slice.
  replace (String.length a + 1 + String.length b - (String.length a + 1))
    with (String.length b) by lia.
  rewrite append_snoc, <- (length_snoc a x), substring_skip.
  apply substring_0_length.
Qed.

(** *** extractUsageValue *)

Lemma extractUsageValue_loop_skip (s a r : string) (i pos : nat) :
  count_backticks a = 0 ->
  extractUsageValue_loop s (a +:+ r) i pos
  = extractUsageValue_loop s r (i + String.length a) pos.
Proof.
  revert i. induction a as [|x a IH]; intros i H; sapp.
  - by rewrite Nat.add_0_r.
  - destruct (Ascii.eqb x backtick); [discriminate |].
    rewrite IH by done. f_equal. lia.
Qed.

Lemma extractUsageValue_loop_none (s r : string) (i pos : nat) :
  (if Nat.eqb pos 0 then count_backticks r < 2 else count_backticks r = 0) ->
  extractUsageValue_loop s r i pos = "".
Proof.
  revert i pos. induction r as [|x r IH]; intros i pos H; simpl in *; [done |].
  destruct (Ascii.eqb x backtick); simpl in H.
  - destruct (Nat.eqb pos 0); [| discriminate].
    apply IH. replace (i + 1 =? 0)%nat with false; [lia |].
    symmetry. apply Nat.eqb_neq. lia.
  - by apply IH.
Qed.

(** C10. If the usage string has a first and a second backtick, the hint is
    exactly the text strictly between them ([a] and [b] hold no backtick, so
    the two written out are the first and the second); if it has fewer than
    two backticks, the hint is empty. *)
Theorem extractUsageValue_between (s : string) :
  (forall a b c : string,
     s = a +:+ String backtick (b +:+ String backtick c) ->
     count_backticks a = 0 -> count_backticks b = 0 ->
     extractUsageValue s = b)
  /\ (count_backticks s < 2 -> extractUsageValue s = "").
Proof.
  split.
  - intros a b c -> Ha Hb. unfold extractUsageValue.
    rewrite extractUsageValue_loop_skip by done. simpl.
    rewrite extractUsageValue_loop_skip by done. simpl.
    replace (String.length a + 1 =? 0)%nat with false
      by (symmetry; apply Nat.eqb_neq; lia).
    replace (S (String.length a + String.length b))
      with (String.length a + 1 + String.length b) by lia.
    apply slice_middle.
  - intros H. unfold extractUsageValue. by apply extractUsageValue_loop_none.
Qed.

(** *** The synopsis *)

Lemma append_empty_r (s : string) : s +:+ "" = s.
Proof. induction s as [|c s IH]; sapp; [done | by rewrite IH]. Qed.

Lemma append_assoc (a b c : string) : (a +:+ b) +:+ c = a +:+ (b +:+ c).
Proof. induction a as [|x a IH]; sapp; [done | by rewrite IH]. Qed.

Lemma fmt_star_s_indent (p : nat) :
  (Z.of_nat p <= 1000000)%Z -> fmt_star_s (Z.of_nat p) "" = spaces p.
Proof.
  intros Hp. unfold fmt_star_s.
  replace (1000000 <? Z.of_nat p)%Z with false by (symmetry; apply Z.ltb_ge; lia).
  replace (Z.of_nat p <? -1000000)%Z with false by (symmetry; apply Z.ltb_ge; lia).
  replace (0 <=? Z.of_nat p)%Z with true by (symmetry; apply Z.leb_le; lia).
  cbn [orb RuneCountInString RuneCount_loop].
  rewrite Z.abs_eq, Nat2Z.id, Nat.sub_0_r by lia. apply append_empty_r.
Qed.

Lemma compound_groupOf (f : flagInfo) (s : string) :
  (if negb (String.eqb (UsageValue f) "")
   then s +:+ " [" +:+ (let c := "" in
          let c := if negb (String.eqb (Shorthand f) "")
                   then c +:+ "-" +:+ Shorthand f else c in
          if negb (String.eqb (Longhand f) "")
          then (if negb (String.eqb (Shorthand f) "") then c +:+ " " else c)
               +:+ "--" +:+ Longhand f
          else c) +:+ "=" +:+ UsageValue f +:+ "]"
   else s +:+ " [" +:+ (let c := "" in
          let c := if negb (String.eqb (Shorthand f) "")
                   then c +:+ "-" +:+ Shorthand f else c in
          if negb (String.eqb (Longhand f) "")
          then (if negb (String.eqb (Shorthand f) "") then c +:+ " " else c)
               +:+ "--" +:+ Longhand f
          else c) +:+ "]")
  = s +:+ groupOf f.
Proof.
  unfold groupOf. cbv zeta.
  destruct (negb (String.eqb (UsageValue f) ""));
    destruct (negb (String.eqb (Shorthand f) ""));
    destruct (negb (String.eqb (Longhand f) ""));
    rewrite ?append_nil, ?append_empty_r, ?append_assoc; reflexivity.
Qed.

(** Where no placeholder is skipped the loop index is the number of groups
    emitted, and the code wraps as the specification says. *)
Lemma usageFn_loop_synopsis (p : nat) (fl : list flagInfo) (i : nat) (s u : string) :
  (Z.of_nat p <= 1000000)%Z ->
  Forall (fun f => isPlaceholder f = false) fl ->
  fst (usageFn_loop p fl i s u) = s +:+ synopsis_spec_groups p fl i.
Proof.
  intros Hp Hfl. revert i s u.
  induction Hfl as [|f fl Hf _ IH]; intros i s u.
  - simpl. by rewrite append_empty_r.
  - cbn [usageFn_loop synopsis_spec_groups]. unfold isPlaceholder in Hf |- *.
    rewrite Hf. cbv zeta. rewrite IH.
    pose proof (compound_groupOf f s) as Hg. cbv zeta in Hg. rewrite Hg.
    rewrite fmt_star_s_indent by done.
    destruct (Nat.eqb ((i + 1) mod 4) 0);
      rewrite ?append_assoc, ?append_nil; reflexivity.
Qed.

(** X2. When no descriptor is a placeholder the synopsis is the line with
    the set's name followed by the bracketed groups in definition order,
    with a newline and an indentation as wide as that first line's prefix
    after every fourth group. *)
Lemma synopsis_without_placeholders (fl : list flagInfo) (name : string) :
  (Z.of_nat (String.length ("usage: " +:+ name)) <= 1000000)%Z ->
  Forall (fun f => isPlaceholder f = false) fl ->
  synopsis fl name = synopsis_spec fl name.
Proof. intros Hp Hfl. unfold synopsis, synopsis_spec. by apply usageFn_loop_synopsis. Qed.

(** *** What the hint can be *)

Lemma count_backticks_app (a b : string) :
  count_backticks (a +:+ b) = count_backticks a + count_backticks b.
Proof.
  induction a as [|x a IH]; [done|]. rewrite append_cons. simpl. rewrite IH. lia.
Qed.

Lemma string_length_app (a b : string) :
  String.length (a +:+ b) = String.length a + String.length b.
Proof.
  induction a as [|x a IH]; [done|]. rewrite append_cons. simpl. by rewrite IH.
Qed.

Lemma extractUsageValue_loop_sound (s rest pre : string) (i pos : nat) :
  s = pre +:+ rest -> i = String.length pre ->
  (pos = 0 /\ count_backticks pre = 0)
  \/ (exists a b, pre = a +:+ String backtick b /\ pos = String.length a + 1
                  /\ count_backticks a = 0 /\ count_backticks b = 0) ->
  extractUsageValue_loop s rest i pos = ""
  \/ exists a c,
       s = a +:+ String backtick (extractUsageValue_loop s rest i pos +:+ String backtick c)
       /\ count_backticks a = 0
       /\ count_backticks (extractUsageValue_loop s rest i pos) = 0.
Proof.
  revert pre i pos. induction rest as [|x rest IH]; intros pre i pos Hs Hi Hinv.
  { by left. }
  cbn [extractUsageValue_loop].
  destruct (Ascii.eqb x backtick) eqn:Hx.
  - apply Ascii.eqb_eq in Hx. subst x.
    destruct Hinv as [[-> Hpre] | (a & b & Hpre & -> & Ha & Hb)].
    + cbn [Nat.eqb].
      apply (IH (pre +:+ String backtick "")).
      * by rewrite <- append_snoc.
      * rewrite length_snoc. lia.
      * right. exists pre, "". split_and!; [done | lia | done | done].
    + replace (String.length a + 1 =? 0)%nat with false
        by (symmetry; apply Nat.eqb_neq; lia).
      right. exists a, rest.
      assert (Hsl : slice s (String.length a + 1) i = b).
      { subst s pre i. rewrite append_assoc, append_cons. 
        rewrite string_length_app. cbn [String.length].
        replace (String.length a + S (String.length b))
          with (String.length a + 1 + String.length b) by lia.
        apply slice_middle. }
      rewrite Hsl. split_and!; [| done | done].
      subst s pre. by rewrite append_assoc, append_cons.
  - apply (IH (pre +:+ String x "")).
    + by rewrite <- append_snoc.
    + rewrite length_snoc. lia.
    + assert (Hc : count_backticks (String x "") = 0) by (simpl; by rewrite Hx).
      destruct Hinv as [[-> Hpre] | (a & b & Hpre & -> & Ha & Hb)].
      * left. split; [done|]. rewrite count_backticks_app. lia.
      * right. exists a, (b +:+ String x ""). split_and!; [| done | done |].
        -- subst pre. by rewrite append_assoc, append_cons.
        -- rewrite count_backticks_app. lia.
Qed.

(** X1. The hint [extractUsageValue] returns is either empty or exactly the
    text between the first two backticks of its argument; it never contains
    a backtick itself. *)
Theorem extractUsageValue_sound (s : string) :
  extractUsageValue s = ""
  \/ exists a c,
       s = a +:+ String backtick (extractUsageValue s +:+ String backtick c)
       /\ count_backticks a = 0
       /\ count_backticks (extractUsageValue s) = 0.
Proof.
  unfold extractUsageValue.
  apply (extractUsageValue_loop_sound s s ""); [done | done |]. by left.
Qed.

(** *** The description block *)

Lemma usageFn_loop_compound (f : flagInfo) :
  (let c := "" in
   let c := if negb (String.eqb (Shorthand f) "")
            then c +:+ "-" +:+ Shorthand f else c in
   if negb (String.eqb (Longhand f) "")
   then (if negb (String.eqb (Shorthand f) "") then c +:+ " " else c)
        +:+ "--" +:+ Longhand f
   else c) = compoundOf f.
Proof.
  unfold compoundOf. cbv zeta.
  destruct (negb (String.eqb (Shorthand f) "")), (negb (String.eqb (Longhand f) ""));
    rewrite ?append_nil, ?append_empty_r, ?append_assoc; reflexivity.
Qed.

Lemma usageFn_loop_block (p : nat) (fl : list flagInfo) (i : nat) (s u : string) :
  snd (usageFn_loop p fl i s u) = u +:+ descriptionBlock fl.
Proof.
  revert i s u. induction fl as [|f fl IH]; intros i s u.
  { simpl. by rewrite append_empty_r. }
  cbn [usageFn_loop descriptionBlock]. unfold isPlaceholder.
  destruct (String.eqb (Shorthand f) "" && String.eqb (Longhand f) "").
  { apply IH. }
  rewrite IH. pose proof (usageFn_loop_compound f) as Hc. cbv zeta in Hc. cbv zeta.
  rewrite Hc.
  unfold descriptionLine, newline. by rewrite !append_assoc.
Qed.

(** X3. What [usageFn] prints is the synopsis, a newline, and then one
    description line for every descriptor that is not a placeholder, in
    definition order; placeholders and the wrapping of the synopsis leave no
    trace in the description block. *)
Theorem usage_text_structure (fl : list flagInfo) (name : string) :
  usageFn_text fl name = synopsis fl name +:+ newline +:+ descriptionBlock fl.
Proof.
  unfold usageFn_text, synopsis.
  pose proof (usageFn_loop_block (String.length ("usage: " +:+ name)) fl 0
                ("usage: " +:+ name) "") as Hu.
  destruct (usageFn_loop _ fl 0 _ "") as [s u]. simpl in Hu. subst u.
  cbn [fst]. by rewrite append_nil.
Qed.

Lemma usageFn_loop_placeholders (p : nat) (fl : list flagInfo) (i : nat) (s u : string) :
  Forall (fun f => isPlaceholder f = true) fl ->
  usageFn_loop p fl i s u = (s, u).
Proof.
  intros H. revert i. induction H as [|f fl Hf _ IH]; intros i; [done|].
  cbn [usageFn_loop]. unfold isPlaceholder in Hf. rewrite Hf. apply IH.
Qed.

(** X4. For a set whose descriptors are all placeholders (in particular a
    set without descriptors) [usageFn] prints only the line with the set's
    name. *)
Theorem usage_of_placeholders_only (fl : list flagInfo) (name : string) :
  Forall (fun f => isPlaceholder f = true) fl ->
  usageFn_text fl name = "usage: " +:+ name +:+ newline.
Proof.
  intros H. unfold usageFn_text. rewrite (usageFn_loop_placeholders _ _ _ _ _ H).
  unfold newline. by rewrite append_empty_r.
Qed.

Lemma runeSize_ascii (c : ascii) (rest : string) :
  (nat_of_ascii c <? 128)%nat = true -> runeSize c rest = 1.
Proof.
  intros H. apply Nat.ltb_lt in H. unfold runeSize.
  replace (nat_of_ascii c <? 194)%nat with true; [done|].
  symmetry. apply Nat.ltb_lt. lia.
Qed.

Lemma RuneCountInString_ascii (s : string) :
  isAscii s = true -> RuneCountInString s = String.length s.
Proof.
  unfold RuneCountInString. induction s as [|c s IH]; [done|].
  cbn [isAscii]. intros [Hc Hs]%andb_prop.
  cbn [RuneCount_loop String.length]. rewrite (runeSize_ascii _ _ Hc).
  cbn [Nat.sub]. by rewrite IH.
Qed.

Lemma isAscii_app (a b : string) :
  isAscii (a +:+ b) = isAscii a && isAscii b.
Proof.
  induction a as [|x a IH]; [done|]. rewrite append_cons. cbn [isAscii].
  rewrite IH. by rewrite andb_assoc.
Qed.

Lemma isAscii_compoundOf (f : flagInfo) :
  isAscii (Shorthand f) = true -> isAscii (Longhand f) = true ->
  isAscii (compoundOf f) = true.
Proof.
  intros Hs Hl. unfold compoundOf.
  destruct (negb (String.eqb (Shorthand f) "")), (negb (String.eqb (Longhand f) ""));
    rewrite ?isAscii_app, ?Hs, ?Hl; reflexivity.
Qed.

Lemma fmt_star_s_ascii (wid : Z) (s : string) :
  isAscii s = true -> (-1000000 <= wid <= 1000000)%Z ->
  fmt_star_s wid s
  = spaces (Z.to_nat wid - String.length s) +:+ s
    +:+ spaces (Z.to_nat (- wid) - String.length s).
Proof.
  intros Hs Hw. unfold fmt_star_s.
  replace ((1000000 <? wid) || (wid <? -1000000))%Z with false.
  2:{ symmetry. apply orb_false_iff. split; [apply Z.ltb_ge | apply Z.ltb_ge]; lia. }
  rewrite (RuneCountInString_ascii _ Hs).
  destruct (0 <=? wid)%Z eqn:H0.
  - apply Z.leb_le in H0. rewrite Z.abs_eq by lia.
    replace (Z.to_nat (- wid)) with 0 by lia. cbn [Nat.sub spaces].
    by rewrite append_empty_r.
  - apply Z.leb_gt in H0. rewrite Z.abs_neq by lia.
    replace (Z.to_nat wid) with 0 by lia. cbn [Nat.sub spaces].
    by rewrite append_nil.
Qed.

(** X5. The layout of a description line whose identifiers and usage text
    are ASCII: four spaces, the compound token, padding up to sixteen
    columns, the usage text.  A compound token of sixteen bytes or more is
    followed by the usage text without any separator, and when it is longer
    than the usage text by more than sixteen bytes the negative width pads
    behind the usage text instead. *)
Theorem description_line_layout (f : flagInfo) :
  isAscii (Shorthand f) = true -> isAscii (Longhand f) = true ->
  isAscii (Usage f) = true ->
  (Z.of_nat (String.length (compoundOf f)) + 4 <= 1000000)%Z ->
  (Z.of_nat (String.length (Usage f)) + 16 <= 1000000)%Z ->
  descriptionLine f
  = spaces 4 +:+ compoundOf f
    +:+ spaces (16 - String.length (compoundOf f)) +:+ Usage f
    +:+ spaces (String.length (compoundOf f) - 16 - 2 * String.length (Usage f))
    +:+ newline.
Proof.
  intros Hs Hl Hu Hc Hb. unfold descriptionLine.
  rewrite (fmt_star_s_ascii _ (compoundOf f)) by (auto using isAscii_compoundOf; lia).
  rewrite (fmt_star_s_ascii _ (Usage f)) by (done || lia).
  set (lc := String.length (compoundOf f)) in *.
  set (lu := String.length (Usage f)) in *.
  replace (Z.to_nat (Z.of_nat lc + 4) - lc) with 4 by lia.
  replace (Z.to_nat (- (Z.of_nat lc + 4)) - lc) with 0 by lia.
  replace (Z.to_nat (Z.of_nat lu - Z.of_nat lc + 16) - lu) with (16 - lc) by lia.
  replace (Z.to_nat (- (Z.of_nat lu - Z.of_nat lc + 16)) - lu)
    with (lc - 16 - 2 * lu) by lia.
  cbn [spaces]. rewrite ?append_empty_r, ?append_assoc. reflexivity.
Qed.

Section Properties.

Context {E : Env}.

(** *** The outcome logic *)

Lemma outcome_bind {A B} (m : M A) (k : A -> M B) (w : World)
      (Q1 : World -> A -> Prop) (Q : World -> B -> Prop) (X : World -> Prop) :
  outcome (m w) Q1 X ->
  (forall w' a, Q1 w' a -> outcome (k a w') Q X) ->
  outcome (bind m k w) Q X.
Proof. unfold bind. destruct (m w); simpl; auto. Qed.

Lemma outcome_weaken {A} (r : Result A) (Q Q' : World -> A -> Prop) (X X' : World -> Prop) :
  outcome r Q X ->
  (forall w a, Q w a -> Q' w a) -> (forall w, X w -> X' w) ->
  outcome r Q' X'.
Proof. destruct r; simpl; auto. Qed.

Lemma outcome_finalWorld {A} (r : Result A) (P : World -> Prop) :
  outcome r (fun w _ => P w) P -> exists w, finalWorld r = Some w /\ P w.
Proof. destruct r; simpl; eauto; tauto. Qed.

(** *** Heap accesses *)

Lemma World_eta (w : World) :
  mkWorld (flagSets w) (arrays w) (stds w) (sets w) (cells w) = w.
Proof. by destruct w. Qed.

Lemma storeCell_same (p : nat) (v : val) (w : World) :
  cells w !! p = Some v -> storeCell p v w = Done w tt.
Proof.
  intros H. unfold storeCell. rewrite H. f_equal.
  unfold setCells. rewrite list_insert_id by done. apply World_eta.
Qed.

Lemma newCell_lookup (v : val) (w : World) :
  cells (setCells w (cells w ++ [v])) !! length (cells w) = Some v.
Proof. simpl. by rewrite lookup_app_r, Nat.sub_diag. Qed.

(** *** Registration in the standard package *)

Lemma flag_Var_Done (f p : nat) (name usage : string) (w w' : World) (x : unit) :
  flag_Var f p name usage w = Done w' x ->
  exists st, validName name = true /\ stds w !! f = Some st
             /\ f_formal st !! name = None
             /\ w' = setStds w (<[f := addFormal st name usage p]> (stds w)).
Proof.
  unfold flag_Var, validName.
  destruct (HasPrefix_dash name); [discriminate |].
  destruct (Contains_equals name); [discriminate |].
  unfold bind, loadStd. destruct (stds w !! f) as [st|] eqn:Hf; [| discriminate].
  destruct (f_formal st !! name) eqn:Hn; [discriminate |].
  unfold storeStd. rewrite Hf. intros [= <-]. by exists st.
Qed.


Lemma flag_Var_total (f p : nat) (name usage : string) (w : World) :
  (exists w', flag_Var f p name usage w = Done w' tt)
  \/ (exists msg, flag_Var f p name usage w = Panic w msg).
Proof.
  unfold flag_Var.
  destruct (HasPrefix_dash name); [right; by eexists |].
  destruct (Contains_equals name); [right; by eexists |].
  unfold bind, loadStd, storeStd.
  destruct (stds w !! f) as [st|] eqn:Hf; [| right; by eexists].
  destruct (f_formal st !! name); [right; by eexists |].
  rewrite Hf. left. by eexists.
Qed.

Lemma flag_Var_redefined (f p : nat) (name usage : string) (w : World) (st : flag_FlagSet) :
  stds w !! f = Some st -> is_Some (f_formal st !! name) ->
  exists msg, flag_Var f p name usage w = Panic w msg.
Proof.
  intros Hf [fl Hn].
  destruct (flag_Var_total f p name usage w) as [[w' H]|H]; [| done].
  apply flag_Var_Done in H as (st' & _ & Hf' & Hn' & _). congruence.
Qed.

(** *** The shared registration *)

Lemma bindBoth_total (fs : nat) (name shorthand : string) (v : val) (usage : string)
      (w : World) :
  (exists w' p, bindBoth fs name shorthand v usage w = Done w' p)
  \/ (exists w' msg, bindBoth fs name shorthand v usage w = Panic w' msg
                     /\ sets w' = sets w /\ arrays w' = arrays w
                     /\ flagSets w' = flagSets w).
Proof.
  unfold bindBoth, bind, newCell, loadSet. simpl.
  destruct (sets w !! fs) as [s|]; [| right; by eexists _, _].
  destruct (flag_Var_total (std s) (length (cells w)) name usage
              (setCells w (cells w ++ [v]))) as [[w1 H]|[msg H]]; rewrite H;
    [| right; by eexists _, _].
  apply flag_Var_Done in H as (st & _ & _ & _ & ->).
  destruct (negb (String.eqb shorthand "")); [| left; by eexists _, _].
  match goal with |- context [flag_Var ?f ?p ?n ?u ?w0] =>
    destruct (flag_Var_total f p n u w0) as [[w2 H]|[msg H]]; rewrite H
  end; [left | right]; by eexists _, _.
Qed.

Lemma bindBoth_Done (fs : nat) (name shorthand : string) (v : val) (usage : string)
      (w w' : World) (p : nat) :
  bindBoth fs name shorthand v usage w = Done w' p ->
  exists s st,
    sets w !! fs = Some s /\ stds w !! std s = Some st
    /\ validName name = true /\ f_formal st !! name = None
    /\ (shorthand <> "" ->
        validName shorthand = true /\ shorthand <> name
        /\ f_formal st !! shorthand = None)
    /\ p = length (cells w)
    /\ w' = mkWorld (flagSets w) (arrays w)
                    (<[std s := addBoth st name shorthand usage p]> (stds w))
                    (sets w) (cells w ++ [v]).
Proof.
  unfold bindBoth, bind, newCell, loadSet. simpl.
  destruct (sets w !! fs) as [s|] eqn:Hs; [| discriminate].
  destruct (flag_Var (std s) _ name usage _) as [w1 []| | |] eqn:H1; try discriminate.
  apply flag_Var_Done in H1 as (st & Hv & Hst & Hn & ->). simpl in Hst.
  unfold addBoth.
  destruct (String.eqb shorthand "") eqn:Hsh; simpl.
  - intros [= <- <-]. exists s, st. split_and!; try done.
    intros Hne. apply String.eqb_eq in Hsh. done.
  - destruct (flag_Var (std s) _ shorthand usage _) as [w2 []| | |] eqn:H2;
      try discriminate.
    intros [= <- <-].
    apply flag_Var_Done in H2 as (st2 & Hv2 & Hst2 & Hn2 & ->). simpl in *.
    rewrite list_lookup_insert_eq in Hst2 by (by eapply lookup_lt_Some).
    injection Hst2 as <-. simpl in Hn2.
    assert (shorthand <> name) as Hne
      by (intros ->; by rewrite lookup_insert_eq in Hn2).
    rewrite lookup_insert_ne in Hn2 by done.
    exists s, st. split_and!; try done.
    unfold setStds. simpl. by rewrite list_insert_insert_eq.
Qed.


Lemma flag_Var_cells (f p : nat) (name usage : string) (w w' : World) (x : unit) :
  flag_Var f p name usage w = Done w' x -> cells w' = cells w.
Proof. intros H. by apply flag_Var_Done in H as (st & _ & _ & _ & ->). Qed.

(** [boolVar] and its siblings all perform the shared registration: storing
    the default once more through the fresh pointer changes nothing. *)
Ltac xVar_is_bindBoth :=
  let H1 := fresh "H" in
  let w1 := fresh "w" in
  intros; unfold bindBoth, bind, newCell, loadSet; simpl;
  destruct (sets _ !! _); [| done];
  unfold bind; rewrite ?(storeCell_same _ _ _ (newCell_lookup _ _));
  match goal with |- context [flag_Var ?f ?p ?n ?u ?w0] =>
    destruct (flag_Var f p n u w0) as [w1 []| | |] eqn:H1; try done
  end;
  destruct (negb _); [| done];
  rewrite ?storeCell_same; [done |];
  rewrite (flag_Var_cells _ _ _ _ _ _ _ H1); apply newCell_lookup.

Lemma boolVar_bindBoth fs name shorthand value usage w :
  boolVar fs name shorthand value usage w = bindBoth fs name shorthand (VBool value) usage w.
Proof. unfold boolVar, flag_BoolVar. xVar_is_bindBoth. Qed.

Lemma stringVar_bindBoth fs name shorthand value usage w :
  stringVar fs name shorthand value usage w = bindBoth fs name shorthand (VString value) usage w.
Proof. unfold stringVar, flag_StringVar. xVar_is_bindBoth. Qed.

Lemma intVar_bindBoth fs name shorthand value usage w :
  intVar fs name shorthand value usage w = bindBoth fs name shorthand (VInt value) usage w.
Proof. unfold intVar, flag_IntVar. xVar_is_bindBoth. Qed.

Lemma int64Var_bindBoth fs name shorthand value usage w :
  int64Var fs name shorthand value usage w = bindBoth fs name shorthand (VInt64 value) usage w.
Proof. unfold int64Var, flag_Int64Var. xVar_is_bindBoth. Qed.

Lemma uintVar_bindBoth fs name shorthand value usage w :
  uintVar fs name shorthand value usage w = bindBoth fs name shorthand (VUint value) usage w.
Proof. unfold uintVar, flag_UintVar. xVar_is_bindBoth. Qed.

Lemma uint64Var_bindBoth fs name shorthand value usage w :
  uint64Var fs name shorthand value usage w = bindBoth fs name shorthand (VUint64 value) usage w.
Proof. unfold uint64Var, flag_Uint64Var. xVar_is_bindBoth. Qed.

Lemma float64Var_bindBoth fs name shorthand value usage w :
  float64Var fs name shorthand value usage w = bindBoth fs name shorthand (VFloat64 value) usage w.
Proof. unfold float64Var, flag_Float64Var. xVar_is_bindBoth. Qed.

Lemma durationVar_bindBoth fs name shorthand value usage w :
  durationVar fs name shorthand value usage w = bindBoth fs name shorthand (VDuration value) usage w.
Proof. unfold durationVar, flag_DurationVar. xVar_is_bindBoth. Qed.

Lemma valueVar_bindBoth fs name shorthand value usage w :
  valueVar fs name shorthand value usage w = bindBoth fs name shorthand (VCustom value) usage w.
Proof. reflexivity. Qed.

(** [defineFlag] on a value of a supported type: the descriptor, then the
    shared registration. *)
Lemma defineFlag_Typed (fs : nat) (name shorthand : string) (v : val) (usage : string)
      (w : World) :
  defineFlag fs name shorthand (Typed v) usage w
  = (let shorthand := if String.eqb name shorthand then "" else shorthand in
     defineUsage fs name shorthand usage ;;;
     p <- bindBoth fs name shorthand v usage ;; ret (Some p)) w.
Proof.
  unfold defineFlag. cbv zeta. unfold bind.
  destruct (defineUsage _ _ _ _ _) as [w1 []| | |]; try done.
  destruct v;
    [ rewrite boolVar_bindBoth | rewrite stringVar_bindBoth | rewrite intVar_bindBoth
    | rewrite int64Var_bindBoth | rewrite uintVar_bindBoth | rewrite uint64Var_bindBoth
    | rewrite float64Var_bindBoth | rewrite durationVar_bindBoth
    | rewrite valueVar_bindBoth ]; reflexivity.
Qed.

(** *** Slices and descriptors *)

Lemma append_total (s : Slice) (x : flagInfo) (w : World) :
  (exists a sl, append s x w = Done (setArrays w a) sl)
  \/ (exists msg, append s x w = Panic w msg).
Proof.
  unfold append. destruct (len s <? cap s)%nat.
  - destruct (arrays w !! arr s); [left | right]; by eexists _, _ || by eexists.
  - left. by eexists _, _.
Qed.

Lemma append_view (s : Slice) (x : flagInfo) (w : World) :
  wfSlice w s = true ->
  exists a sl, append s x w = Done (setArrays w a) sl
               /\ view (setArrays w a) sl = (view w s ++ [x])%list
               /\ wfSlice (setArrays w a) sl = true.
Proof.
  unfold wfSlice, append, view. intros Hwf.
  apply andb_true_iff in Hwf as [Hle Hfit]. apply Nat.leb_le in Hle.
  destruct (len s <? cap s)%nat eqn:Hlt.
  - apply Nat.ltb_lt in Hlt.
    destruct (arrays w !! arr s) as [a|] eqn:Ha.
    + apply Nat.leb_le in Hfit.
      eexists _, _. split; [reflexivity |].
      unfold setArrays; cbn [arrays len cap arr].
      rewrite list_lookup_insert_eq by (by eapply lookup_lt_Some).
      split.
      * rewrite (take_S_r _ _ x) by (apply list_lookup_insert_eq; lia).
        by rewrite take_insert_ge.
      * apply andb_true_iff. split; [apply Nat.leb_le; lia |].
        rewrite length_insert. apply Nat.leb_le. lia.
    + apply Nat.eqb_eq in Hfit. lia.
  - apply Nat.ltb_ge in Hlt. assert (len s = cap s) as Hlen by lia.
    eexists _, _. split; [reflexivity |].
    unfold setArrays; cbn [arrays len cap arr].
    rewrite lookup_app_r, Nat.sub_diag by done. cbn [lookup list_lookup].
    assert (length (match arrays w !! arr s with
                    | Some a => take (len s) a
                    | None => []
                    end) = len s) as Hview.
    { destruct (arrays w !! arr s) as [a|].
      - apply Nat.leb_le in Hfit. rewrite length_take. lia.
      - apply Nat.eqb_eq in Hfit. cbn [length]. lia. }
    split.
    + rewrite take_app, Hview.
      rewrite take_ge by lia.
      replace (S (len s) - len s) with 1 by lia. done.
    + apply andb_true_iff. split; [apply Nat.leb_le; lia |].
      rewrite length_app, Hview. cbn [length]. rewrite length_replicate.
      apply Nat.leb_le. lia.
Qed.

Lemma defineUsage_eq (pflags : nat) (name shorthand usage : string) :
  defineUsage pflags name shorthand usage
  = (fs <- loadSet pflags ;;
     s' <- append (flags fs) (descriptorOf name shorthand usage) ;;
     storeSet pflags (mkFlagSet (std fs) s')).
Proof.
  unfold defineUsage, descriptorOf.
  by destruct (String.length name =? 1)%nat.
Qed.

Lemma defineUsage_total (pflags : nat) (name shorthand usage : string) (w : World) :
  (exists s a sl,
     sets w !! pflags = Some s
     /\ append (flags s) (descriptorOf name shorthand usage) w = Done (setArrays w a) sl
     /\ defineUsage pflags name shorthand usage w
        = Done (mkWorld (flagSets w) a (stds w)
                        (<[pflags := mkFlagSet (std s) sl]> (sets w)) (cells w)) tt)
  \/ (exists msg, defineUsage pflags name shorthand usage w = Panic w msg).
Proof.
  rewrite defineUsage_eq. unfold bind, loadSet, storeSet.
  destruct (sets w !! pflags) as [s|] eqn:Hs; [| right; by eexists].
  destruct (append_total (flags s) (descriptorOf name shorthand usage) w)
    as [(a & sl & H)|[msg H]]; rewrite H; [| right; by eexists].
  simpl. rewrite Hs. left. by eexists _, _, _.
Qed.

Lemma descriptors_frame (w w' : World) (fs : nat) :
  sets w' = sets w -> arrays w' = arrays w ->
  descriptors w' fs = descriptors w fs.
Proof. unfold descriptors, view. by intros -> ->. Qed.

Lemma defineUsage_wf (fs : nat) (name shorthand usage : string) (w : World) :
  wfSet w fs = true ->
  exists w', defineUsage fs name shorthand usage w = Done w' tt
             /\ descriptors w' fs
                = (descriptors w fs ++ [descriptorOf name shorthand usage])%list
             /\ wfSet w' fs = true
             /\ stds w' = stds w /\ cells w' = cells w /\ flagSets w' = flagSets w
             /\ (forall id, lookupFlag w' fs id = lookupFlag w fs id).
Proof.
  intros Hwf. pose proof Hwf as Hwf0. unfold wfSet in Hwf0.
  destruct (sets w !! fs) as [s|] eqn:Hs; [| discriminate].
  apply andb_true_iff in Hwf0 as [Hsl Hstd].
  destruct (append_view (flags s) (descriptorOf name shorthand usage) w Hsl)
    as (a & sl & Happ & Hview & Hwf').
  assert (fs < length (sets w)) as Hlt by (by eapply lookup_lt_Some).
  exists (mkWorld (flagSets w) a (stds w)
                  (<[fs := mkFlagSet (std s) sl]> (sets w)) (cells w)).
  split_and!; try done.
  - rewrite defineUsage_eq. unfold bind, loadSet.
    rewrite Hs, Happ. unfold storeSet. cbn [sets setArrays]. by rewrite Hs.
  - unfold descriptors. cbn [sets]. rewrite list_lookup_insert_eq, Hs by done.
    exact Hview.
  - unfold wfSet. cbn [sets]. rewrite list_lookup_insert_eq by done.
    apply andb_true_iff. split; [exact Hwf' | exact Hstd].
  - intros id. unfold lookupFlag. cbn [sets stds].
    by rewrite list_lookup_insert_eq, Hs by done.
Qed.

Lemma bindBoth_descriptors (fs fs' : nat) (name shorthand : string) (v : val)
      (usage : string) (w : World) :
  exists w', finalWorld (bindBoth fs name shorthand v usage w) = Some w'
             /\ descriptors w' fs' = descriptors w fs'.
Proof.
  destruct (bindBoth_total fs name shorthand v usage w)
    as [(w' & p & H)|(w' & msg & H & Hs & Ha & _)]; rewrite H; simpl.
  - exists w'. split; [done |].
    apply bindBoth_Done in H as (s & st & _ & _ & _ & _ & _ & _ & ->).
    by apply descriptors_frame.
  - exists w'. split; [done |]. by apply descriptors_frame.
Qed.

(** Whatever the default value is and however the call ends, a definition
    call on a well-formed set leaves exactly one more descriptor. *)
Lemma defineFlag_descriptors (fs : nat) (name shorthand : string) (value : dyn)
      (usage : string) (w : World) :
  wfSet w fs = true ->
  exists w', finalWorld (defineFlag fs name shorthand value usage w) = Some w'
             /\ descriptors w' fs
                = (descriptors w fs
                   ++ [descriptorOf name (if String.eqb name shorthand then ""
                                          else shorthand) usage])%list.
Proof.
  intros Hwf.
  set (sh := if String.eqb name shorthand then "" else shorthand).
  destruct (defineUsage_wf fs name sh usage w Hwf) as (w1 & Hu & Hd & _).
  destruct value as [v| |].
  - rewrite defineFlag_Typed. cbv zeta. fold sh. unfold bind at 1. rewrite Hu.
    destruct (bindBoth_descriptors fs fs name sh v usage w1) as (w2 & Hf & Hd2).
    exists w2. rewrite <- Hd, <- Hd2. split; [| done].
    unfold bind. by destruct (bindBoth fs name sh v usage w1).
  - exists w1. unfold defineFlag. fold sh. unfold bind. by rewrite Hu.
  - exists w1. unfold defineFlag. fold sh. unfold bind. by rewrite Hu.
Qed.

(** C8. A definition call whose name is exactly one byte long appends a
    descriptor whose short field is that name and whose long field is empty;
    a shorthand passed alongside does not appear in it.  This holds for every
    default value and however the call ends, on every well-formed set (as all
    sets of a reachable state are, [reachable_wfWorld]). *)
Theorem one_char_name_descriptor (w : World) (fs : nat) (name shorthand : string)
        (value : dyn) (usage : string) :
  String.length name = 1 ->
  wfSet w fs = true ->
  exists w' d,
    finalWorld (defineFlag fs name shorthand value usage w) = Some w'
    /\ descriptors w' fs = (descriptors w fs ++ [d])%list
    /\ Shorthand d = name /\ Longhand d = ""
    /\ d = mkFlagInfo "" name (extractUsageValue usage) usage.
Proof.
  intros Hlen Hwf.
  destruct (defineFlag_descriptors fs name shorthand value usage w Hwf)
    as (w' & Hf & Hd).
  exists w', (mkFlagInfo "" name (extractUsageValue usage) usage).
  split_and!; try done.
  rewrite Hd. unfold descriptorOf. by rewrite Hlen.
Qed.

(** *** What a successful definition call leaves behind *)

Lemma defineFlag_Done (fs : nat) (name shorthand : string) (v : val) (usage : string)
      (w w' : World) (r : option nat) :
  defineFlag fs name shorthand (Typed v) usage w = Done w' r ->
  let sh := if String.eqb name shorthand then "" else shorthand in
  exists s st a sl,
    sets w !! fs = Some s /\ stds w !! std s = Some st
    /\ validName name = true /\ f_formal st !! name = None
    /\ (sh <> "" -> validName sh = true /\ sh <> name /\ f_formal st !! sh = None)
    /\ r = Some (length (cells w))
    /\ w' = mkWorld (flagSets w) a
                    (<[std s := addBoth st name sh usage (length (cells w))]> (stds w))
                    (<[fs := mkFlagSet (std s) sl]> (sets w))
                    (cells w ++ [v]).
Proof.
  rewrite defineFlag_Typed. cbv zeta.
  set (sh := if String.eqb name shorthand then "" else shorthand).
  unfold bind at 1.
  destruct (defineUsage_total fs name sh usage w)
    as [(s & a & sl & Hs & _ & ->)|[msg ->]]; [| discriminate].
  unfold bind.
  destruct (bindBoth fs name sh v usage _) as [w2 p| | |] eqn:Hb; try discriminate.
  intros [= <- <-].
  apply bindBoth_Done in Hb as (s' & st & Hs' & Hst & Hv & Hn & Hsh & -> & ->).
  cbn [sets stds cells flagSets arrays] in *.
  rewrite list_lookup_insert_eq in Hs' by (by eapply lookup_lt_Some).
  injection Hs' as <-. cbn [std] in *.
  by exists s, st, a, sl.
Qed.

Lemma defineFlag_total (fs : nat) (name shorthand : string) (value : dyn)
      (usage : string) (w : World) :
  (exists w' r, defineFlag fs name shorthand value usage w = Done w' r)
  \/ (exists w' msg, defineFlag fs name shorthand value usage w = Panic w' msg).
Proof.
  set (sh := if String.eqb name shorthand then "" else shorthand).
  destruct value as [v| |].
  - rewrite defineFlag_Typed. cbv zeta. fold sh. unfold bind.
    destruct (defineUsage_total fs name sh usage w)
      as [(s & a & sl & _ & _ & ->)|[msg ->]]; [| right; by eexists _, _].
    destruct (bindBoth_total fs name sh v usage
                (mkWorld (flagSets w) a (stds w)
                   (<[fs := mkFlagSet (std s) sl]> (sets w)) (cells w)))
      as [(w2 & p & ->)|(w2 & msg & -> & _)]; [left | right]; by eexists _, _.
  - unfold defineFlag. fold sh. unfold bind.
    destruct (defineUsage_total fs name sh usage w)
      as [(s & a & sl & _ & _ & ->)|[msg ->]]; right; by eexists _, _.
  - unfold defineFlag. fold sh. unfold bind.
    destruct (defineUsage_total fs name sh usage w)
      as [(s & a & sl & _ & _ & ->)|[msg ->]]; [left | right]; by eexists _, _.
Qed.

Lemma addBoth_lookup_name (st : flag_FlagSet) (name sh usage : string) (p : nat) :
  sh <> name ->
  f_formal (addBoth st name sh usage p) !! name = Some (mkFlag name usage p).
Proof.
  intros Hne. unfold addBoth. destruct (String.eqb sh ""); simpl.
  - apply lookup_insert_eq.
  - rewrite lookup_insert_ne by done. apply lookup_insert_eq.
Qed.

Lemma addBoth_lookup_shorthand (st : flag_FlagSet) (name sh usage : string) (p : nat) :
  sh <> "" ->
  f_formal (addBoth st name sh usage p) !! sh = Some (mkFlag sh usage p).
Proof.
  intros Hne. unfold addBoth. apply String.eqb_neq in Hne. rewrite Hne. simpl.
  apply lookup_insert_eq.
Qed.

Lemma addBoth_lookup_other (st : flag_FlagSet) (name sh usage id : string) (p : nat) :
  id <> name -> id <> sh ->
  f_formal (addBoth st name sh usage p) !! id = f_formal st !! id.
Proof.
  intros H1 H2. unfold addBoth. destruct (String.eqb sh ""); simpl.
  - by rewrite lookup_insert_ne.
  - by rewrite !lookup_insert_ne.
Qed.

(** The normalised shorthand registers the same identifiers. *)
Lemma defines_normalised (name shorthand id : string) :
  defines name shorthand id ->
  let sh := if String.eqb name shorthand then "" else shorthand in
  id = name \/ (sh <> "" /\ sh <> name /\ id = sh).
Proof.
  intros [->|[Hne ->]]; cbv zeta; [by left |].
  destruct (String.eqb name shorthand) eqn:Heq.
  - apply String.eqb_eq in Heq. by left.
  - apply String.eqb_neq in Heq. right. by split_and!.
Qed.

Lemma defineFlag_registers (fs : nat) (name shorthand id : string) (v : val)
      (usage : string) (w w' : World) (r : option nat) :
  defineFlag fs name shorthand (Typed v) usage w = Done w' r ->
  defines name shorthand id ->
  is_Some (lookupFlag w' fs id).
Proof.
  intros H Hid. apply defineFlag_Done in H. cbv zeta in H.
  apply defines_normalised in Hid. cbv zeta in Hid.
  destruct H as (s & st & a & sl & Hs & Hst & _ & _ & Hsh & _ & ->).
  assert (fs < length (sets w)) by (by eapply lookup_lt_Some).
  assert (std s < length (stds w)) by (by eapply lookup_lt_Some).
  unfold lookupFlag. cbn [sets stds std].
  rewrite list_lookup_insert_eq by done. cbn [std].
  rewrite list_lookup_insert_eq by done.
  destruct Hid as [->|(Hne & Hne' & ->)].
  - destruct (decide ((if String.eqb name shorthand then "" else shorthand) = name))
      as [Heq|Hneq].
    + unfold addBoth. destruct (String.eqb _ ""); simpl.
      * rewrite lookup_insert_eq. by eexists.
      * rewrite Heq, lookup_insert_eq. by eexists.
    + rewrite addBoth_lookup_name by done. by eexists.
  - rewrite addBoth_lookup_shorthand by done. by eexists.
Qed.

Lemma defineFlag_redefined (fs : nat) (name shorthand id : string) (value : dyn)
      (usage : string) (w : World) :
  value <> Nil ->
  defines name shorthand id ->
  is_Some (lookupFlag w fs id) ->
  exists w' msg, defineFlag fs name shorthand value usage w = Panic w' msg.
Proof.
  intros Hnil Hid [fl Hfl].
  destruct (defineFlag_total fs name shorthand value usage w)
    as [(w' & r & H)|H]; [| done].
  destruct value as [v| |]; [| | done].
  - apply defineFlag_Done in H. cbv zeta in H.
    destruct H as (s & st & a & sl & Hs & Hst & _ & Hn & Hsh & _ & _).
    unfold lookupFlag in Hfl. rewrite Hs, Hst in Hfl.
    apply defines_normalised in Hid. cbv zeta in Hid.
    destruct Hid as [->|(Hne & _ & ->)]; [congruence |].
    destruct (Hsh Hne) as (_ & _ & Hn'). congruence.
  - unfold defineFlag, bind in H.
    by destruct (defineUsage _ _ _ _ _).
Qed.

(** C6. Two definition calls on the same set that both register the
    identifier [id] (as the name, or as a non-empty shorthand) with a non-nil
    default end in a panic at definition time: the first call panics, or the
    second does.  The set's error handling plays no part: [w] is arbitrary,
    and no parse has to happen. *)
Theorem duplicate_identifier_panics (w : World) (fs : nat)
        (name1 shorthand1 usage1 name2 shorthand2 usage2 id : string)
        (value1 value2 : dyn) :
  value1 <> Nil -> value2 <> Nil ->
  defines name1 shorthand1 id ->
  defines name2 shorthand2 id ->
  exists w' msg,
    (defineFlag fs name1 shorthand1 value1 usage1 ;;;
     defineFlag fs name2 shorthand2 value2 usage2) w = Panic w' msg.
Proof.
  intros Hv1 Hv2 Hid1 Hid2. unfold bind.
  destruct (defineFlag_total fs name1 shorthand1 value1 usage1 w)
    as [(w1 & r & H)|(w1 & msg & H)]; rewrite H; [| by eexists _, _].
  apply defineFlag_redefined with (id := id); try done.
  destruct value1 as [v| |]; [| | done].
  - by eapply defineFlag_registers.
  - unfold defineFlag, bind in H. by destruct (defineUsage _ _ _ _ _).
Qed.

Lemma wfSet_inv (w : World) (fs : nat) :
  wfSet w fs = true ->
  exists s st, sets w !! fs = Some s /\ stds w !! std s = Some st.
Proof.
  unfold wfSet. destruct (sets w !! fs) as [s|]; [| discriminate].
  intros H. apply andb_true_iff in H as [_ H].
  apply bool_decide_eq_true in H as [st Hst]. by exists s, st.
Qed.


End Properties.

(** *** The identifier a token names *)

Lemma findEquals_split (r : string) (k i : nat) :
  findEquals r k = Some i ->
  exists a b, r = a +:+ String equals b /\ i = k + String.length a.
Proof.
  revert k. induction r as [|c r IH]; intros k H; simpl in H; [discriminate |].
  destruct (Ascii.eqb c equals) eqn:Hc.
  - apply Ascii.eqb_eq in Hc as ->. injection H as <-.
    exists "", r. split; [done | simpl; lia].
  - apply IH in H as (a & b & -> & ->).
    exists (String c a), b. split; [done | simpl; lia].
Qed.

Lemma prefix_append (a b : string) : String.prefix a (a +:+ b) = true.
Proof.
  induction a as [|c a IH]; sapp; [by destruct b |].
  destruct (ascii_dec c c); [done | congruence].
Qed.

Lemma sliceFrom_0 (r : string) : sliceFrom r 0 = r.
Proof. by destruct r. Qed.

Lemma sliceFrom_S (c : ascii) (r : string) (n : nat) :
  sliceFrom (String c r) (S n) = sliceFrom r n.
Proof. reflexivity. Qed.

(** The name [parseOne] looks up for the token [body] (dashes removed) is
    [body] itself or what precedes its first [=] past position 0. *)
Lemma parseOne_name_of_body (body n value : string) (hasValue : bool) :
  (String.length body =? 0)%nat = false ->
  match findEquals (sliceFrom body 1) 1 with
  | Some i => (slice body 0 i, sliceFrom body (i + 1), true)
  | None => (body, "", false)
  end = (n, value, hasValue) ->
  n <> "" /\ (String.eqb body n || String.prefix (n +:+ "=") body = true).
Proof.
  destruct body as [|c r]; [discriminate |]. intros _.
  rewrite sliceFrom_S, sliceFrom_0.
  destruct (findEquals r 1) as [i|] eqn:Hf.
  - apply findEquals_split in Hf as (a & b & -> & ->).
    intros [= <- _ _]. unfold slice.
    rewrite Nat.sub_0_r. cbn [Nat.add substring]. rewrite substring_0_length. split; [done |].
    apply orb_true_iff. right.
    rewrite append_cons. cbn [String.prefix].
    destruct (ascii_dec c c); [| congruence].
    rewrite (append_snoc a b equals). apply prefix_append.
  - intros [= <- _ _]. split; [done |]. by rewrite String.eqb_refl.
Qed.

Lemma parseOne_name_refers (s n value : string) (hasValue : bool) :
  (String.length s <? 2)%nat || negb (byteIs s 0 dash) = false ->
  let name := sliceFrom s (if byteIs s 1 dash then 2 else 1) in
  (String.length name =? 0)%nat || byteIs name 0 dash || byteIs name 0 equals = false ->
  match findEquals (sliceFrom name 1) 1 with
  | Some i => (slice name 0 i, sliceFrom name (i + 1), true)
  | None => (name, "", false)
  end = (n, value, hasValue) ->
  n <> "" /\ refersTo s n = true.
Proof.
  intros H1. cbv zeta. intros H2 H3.
  apply orb_false_iff in H1 as [Hlen H0]. apply negb_false_iff in H0.
  apply orb_false_iff in H2 as [H2 _]. apply orb_false_iff in H2 as [H2 _].
  destruct (parseOne_name_of_body _ _ _ _ H2 H3) as [Hn Hr].
  split; [done |].
  destruct s as [|c0 [|c1 r]]; try discriminate.
  unfold byteIs in H0. simpl in H0.
  unfold refersTo, stripDashes. rewrite H0.
  unfold byteIs in Hr. simpl in Hr.
  destruct (Ascii.eqb c1 dash); simpl in Hr; by rewrite ?sliceFrom_0 in Hr.
Qed.

Lemma quiet_not_named (ids : list string) (t n : string) :
  quiet ids t = true -> n <> "" -> refersTo t n = true -> n ∉ ids.
Proof.
  unfold quiet. intros Hq Hn Hr Hin.
  rewrite forallb_forall in Hq. apply list_elem_of_In in Hin.
  specialize (Hq n Hin). rewrite Hr in Hq. apply String.eqb_neq in Hn.
  by rewrite Hn in Hq.
Qed.

Section ParseFrame.

Context {E : Env}.
Variables (p : nat) (ids : list string).

Lemma parseStep_refl (f : nat) (w : World) : parseStep p f w w.
Proof. by split_and!. Qed.

Lemma parseStep_trans (f : nat) (w1 w2 w3 : World) :
  parseStep p f w1 w2 -> parseStep p f w2 w3 -> parseStep p f w1 w3.
Proof.
  intros (Hc & Hf & He & Ha) (Hc' & Hf' & He' & Ha'). split_and!.
  - by rewrite Hc'.
  - intros g. by rewrite Hf'.
  - intros g. by rewrite He'.
  - by etrans.
Qed.

Lemma outcome_step_trans {A} (f : nat) (w w1 : World) (r : Result A)
      (Q : World -> A -> Prop) :
  parseStep p f w w1 ->
  outcome r (fun w' a => parseStep p f w1 w' /\ Q w' a) (parseStep p f w1) ->
  outcome r (fun w' a => parseStep p f w w' /\ Q w' a) (parseStep p f w).
Proof.
  intros H H0. eapply outcome_weaken; [exact H0 | |].
  - intros w' a [H1 H2]. split; [by eapply parseStep_trans | done].
  - intros w' H1. by eapply parseStep_trans.
Qed.

(** Replacing a field of the set [f] other than [formal] and
    [errorHandling], with arguments [a] that are a suffix of the old ones. *)
Lemma storeStd_step (f : nat) (w : World) (st st' : flag_FlagSet) :
  stds w !! f = Some st ->
  f_formal st' = f_formal st -> f_errorHandling st' = f_errorHandling st ->
  f_args st' `suffix_of` f_args st ->
  storeStd f st' w = Done (setStds w (<[f := st']> (stds w))) tt
  /\ parseStep p f w (setStds w (<[f := st']> (stds w)))
  /\ argsOf (setStds w (<[f := st']> (stds w))) f = f_args st'.
Proof.
  intros Hst Hf He Ha.
  assert (f < length (stds w)) as Hlt by (by eapply lookup_lt_Some).
  unfold storeStd. rewrite Hst. split; [done |].
  unfold parseStep, argsOf. cbn [cells stds setStds].
  rewrite list_lookup_insert_eq by done. split_and!; try done.
  - intros g. destruct (decide (g = f)) as [->|Hne].
    + rewrite list_lookup_insert_eq, Hst by done. simpl. by rewrite Hf.
    + by rewrite list_lookup_insert_ne.
  - intros g. destruct (decide (g = f)) as [->|Hne].
    + rewrite list_lookup_insert_eq, Hst by done. simpl. by rewrite He.
    + by rewrite list_lookup_insert_ne.
  - by rewrite Hst.
Qed.

Lemma setArgs_step (f : nat) (w : World) (st : flag_FlagSet) (a : list string) :
  stds w !! f = Some st -> a `suffix_of` f_args st ->
  exists w', setArgs f a w = Done w' tt /\ parseStep p f w w'
             /\ argsOf w' f = a
             /\ stds w' !! f
                = Some (mkStd (f_name st) (f_parsed st) (f_actual st) (f_formal st)
                              a (f_errorHandling st) (f_output st)).
Proof.
  intros Hst Ha. unfold setArgs, bind, loadStd. rewrite Hst.
  edestruct (storeStd_step f w st) as (-> & Hstep & Hargs); [done | | | | ].
  4: { eexists. split; [reflexivity |]. split_and!; try done.
       cbn [stds setStds]. apply list_lookup_insert_eq. by eapply lookup_lt_Some. }
  all: done.
Qed.

Lemma setActual_step (f : nat) (w : World) (name : string) (fl : Flag) :
  outcome (setActual f name fl w)
          (fun w' _ => parseStep p f w w') (parseStep p f w).
Proof.
  unfold setActual, bind, loadStd.
  destruct (stds w !! f) as [st|] eqn:Hst; [| apply parseStep_refl].
  edestruct (storeStd_step f w st) as (-> & Hstep & _); [done | | | | exact Hstep];
    done.
Qed.

Lemma setParsed_step (f : nat) (w : World) :
  outcome (setParsed f w)
          (fun w' _ => parseStep p f w w') (parseStep p f w).
Proof.
  unfold setParsed, bind, loadStd.
  destruct (stds w !! f) as [st|] eqn:Hst; [| apply parseStep_refl].
  edestruct (storeStd_step f w st) as (-> & Hstep & _); [done | | | | exact Hstep];
    done.
Qed.

Lemma storeCell_step (f q : nat) (v : val) (w : World) :
  q <> p ->
  outcome (storeCell q v w) (fun w' _ => parseStep p f w w') (parseStep p f w).
Proof.
  intros Hne. unfold storeCell.
  destruct (cells w !! q); [| apply parseStep_refl].
  simpl. unfold parseStep, argsOf. cbn [cells stds setCells].
  split_and!; try done. by apply list_lookup_insert_ne.
Qed.

Lemma Value_Set_step (f q : nat) (s : string) (w : World) :
  q <> p ->
  outcome (Value_Set q s w) (fun w' _ => parseStep p f w w') (parseStep p f w).
Proof.
  intros Hne. unfold Value_Set.
  eapply outcome_bind with (Q1 := fun w' _ => w' = w).
  - unfold loadCell. destruct (cells w !! q); simpl; [done | apply parseStep_refl].
  - intros w' v ->.
    destruct v;
      repeat match goal with
             | |- context [let '(_, _) := ?x in _] => destruct x
             end;
      (eapply outcome_bind; [by apply storeCell_step |]);
      intros w' [] Hstep; exact Hstep.
Qed.

Lemma Value_IsBoolFlag_same (q : nat) (w : World) :
  (exists b, Value_IsBoolFlag q w = Done w b)
  \/ (exists msg, Value_IsBoolFlag q w = Panic w msg).
Proof.
  unfold Value_IsBoolFlag, bind, loadCell.
  destruct (cells w !! q) as [v|]; [| right; by eexists].
  left. destruct v; by eexists.
Qed.

(** The common end of [parseOne]: set the value, record the flag. *)
Lemma parseOne_set_step (f q : nat) (value name : string) (flag : Flag) (e : Error)
      (w : World) :
  q <> p ->
  outcome ((ok <- Value_Set q value ;;
            if ok then setActual f name flag ;;; ret (true, None)
            else ret (false, Some e)) w)
          (fun w' (_ : bool * option Error) => parseStep p f w w')
          (parseStep p f w).
Proof.
  intros Hne.
  eapply outcome_bind; [by apply Value_Set_step |].
  intros w1 ok H1. destruct ok; [| exact H1].
  eapply outcome_bind with (Q1 := fun w' _ => parseStep p f w w').
  - eapply outcome_weaken; [apply setActual_step | |].
    + intros w2 x H2. by eapply parseStep_trans.
    + intros w2 H2. by eapply parseStep_trans.
  - intros w2 [] H2. exact H2.
Qed.

Lemma suffix_shorter (f : nat) (w w1 w' : World) (s : string) (rest : list string) :
  argsOf w f = s :: rest -> argsOf w1 f `suffix_of` rest ->
  parseStep p f w1 w' ->
  length (argsOf w' f) < length (argsOf w f).
Proof.
  intros -> H1 (_ & _ & _ & H2).
  apply suffix_length in H1, H2. simpl. lia.
Qed.

(** One pass of the parser over arguments that do not name an identifier of
    [ids] leaves the variable [p] alone, and a pass that sees a flag consumes
    an argument. *)
Lemma parseOne_step (f : nat) (w : World) :
  boundOnly w p ids ->
  Forall (fun t => quiet ids t = true) (argsOf w f) ->
  outcome (flag_parseOne f w)
          (fun w' r => parseStep p f w w'
                       /\ (r.1 = true -> length (argsOf w' f) < length (argsOf w f)))
          (parseStep p f w).
Proof.
  intros Hb Hq. unfold flag_parseOne.
  unfold bind at 1. unfold loadStd at 1.
  destruct (stds w !! f) as [st|] eqn:Hst; [| apply parseStep_refl].
  assert (argsOf w f = f_args st) as Hargs by (unfold argsOf; by rewrite Hst).
  destruct (f_args st) as [|s rest] eqn:Hfa.
  { split; [apply parseStep_refl | done]. }
  rewrite Hargs, ?Hfa in Hq. apply Forall_cons in Hq as [Hqs Hqrest].
  destruct ((String.length s <? 2)%nat || negb (byteIs s 0 dash)) eqn:H1.
  { split; [apply parseStep_refl | done]. }
  assert (rest `suffix_of` f_args st) as Hsuf
    by (rewrite Hfa; by apply suffix_cons_r).
  destruct (setArgs_step f w st rest Hst Hsuf) as (w1 & Hset & Hstep1 & Hargs1 & Hst1).
  destruct (byteIs s 1 dash && (String.length s =? 2)%nat) eqn:H2.
  { unfold bind. rewrite Hset. split; [done | done]. }
  destruct ((String.length (sliceFrom s (if byteIs s 1 dash then 2 else 1)) =? 0)%nat
            || byteIs (sliceFrom s (if byteIs s 1 dash then 2 else 1)) 0 dash
            || byteIs (sliceFrom s (if byteIs s 1 dash then 2 else 1)) 0 equals) eqn:H3.
  { split; [apply parseStep_refl | done]. }
  unfold bind at 1. rewrite Hset.
  destruct (match findEquals (sliceFrom (sliceFrom s (if byteIs s 1 dash then 2 else 1)) 1) 1 with
            | Some i => _
            | None => _
            end) as [[n value] hasValue] eqn:Hname.
  destruct (parseOne_name_refers s n value hasValue H1 H3 Hname) as [Hn Hr].
  unfold bind at 1. unfold loadStd at 1. rewrite Hst1. cbn [f_formal f_args].
  destruct (f_formal st !! n) as [flag|] eqn:Hfl.
  2: { destruct (String.eqb n "help" || String.eqb n "h"); split; done. }
  assert (flag_Value flag <> p) as Hne.
  { intros Heq. eapply (quiet_not_named ids s n); try done.
    by apply (Hb f st n flag). }
  assert (forall w', parseStep p f w1 w' ->
                     length (argsOf w' f) < length (argsOf w f)) as Hshort.
  { intros w' Hw'. eapply suffix_shorter; [| | exact Hw']; [by rewrite Hargs |].
    by rewrite Hargs1. }
  unfold bind at 1.
  destruct (Value_IsBoolFlag_same (flag_Value flag) w1) as [[b ->]|[msg ->]];
    [| exact Hstep1].
  apply outcome_step_trans with (w1 := w1); [done |].
  destruct b.
  - eapply outcome_weaken; [by apply (parseOne_set_step f) | |]; [| done].
    intros w' r Hw'. split; [done |]. intros _. by apply Hshort.
  - destruct hasValue.
    + eapply outcome_weaken; [by apply (parseOne_set_step f) | |]; [| done].
      intros w' r Hw'. split; [done |]. intros _. by apply Hshort.
    + destruct rest as [|value' rest'].
      * split; [apply parseStep_refl | done].
      * assert (rest' `suffix_of` value' :: rest') as Hsuf' by (by apply suffix_cons_r).
        edestruct (setArgs_step f w1 _ rest' Hst1) as (w2 & Hset2 & Hstep2 & _);
          [exact Hsuf' |].
        unfold bind at 1. rewrite Hset2.
        eapply outcome_weaken; [by apply (parseOne_set_step f) | |].
        -- intros w' r Hw'.
           assert (parseStep p f w1 w') by (by eapply parseStep_trans).
           split; [done |]. intros _. by apply Hshort.
        -- intros w' Hw'. by eapply parseStep_trans.
Qed.

Lemma boundOnly_step (f : nat) (w w' : World) :
  parseStep p f w w' -> boundOnly w p ids -> boundOnly w' p ids.
Proof.
  intros (_ & Hf & _) Hb g st' id fl Hst' Hid Hv.
  specialize (Hf g). rewrite Hst' in Hf. simpl in Hf.
  destruct (stds w !! g) as [st|] eqn:Hst; [| discriminate].
  injection Hf as Hf. apply (Hb g st id fl); [done | by rewrite <- Hf | done].
Qed.

Lemma quiet_step (f : nat) (w w' : World) :
  parseStep p f w w' ->
  Forall (fun t => quiet ids t = true) (argsOf w f) ->
  Forall (fun t => quiet ids t = true) (argsOf w' f).
Proof.
  intros (_ & _ & _ & [k Hk]) H. rewrite Hk in H. by apply Forall_app in H as [_ H].
Qed.

(** The loop of [FlagSet.Parse] ends within its fuel and leaves [p] alone. *)
Lemma Parse_loop_step (fuel f : nat) (w : World) :
  length (argsOf w f) < fuel ->
  boundOnly w p ids ->
  Forall (fun t => quiet ids t = true) (argsOf w f) ->
  outcome (flag_Parse_loop fuel f w)
          (fun w' _ => parseStep p f w w') (parseStep p f w).
Proof.
  revert w. induction fuel as [|fuel IH]; intros w Hlen Hb Hq; [lia |].
  cbn [flag_Parse_loop].
  eapply outcome_bind; [by apply parseOne_step |].
  intros w1 [seen err] [Hstep Hdec]. cbn [fst] in Hdec.
  destruct seen.
  - specialize (Hdec eq_refl).
    eapply outcome_weaken;
      [apply (IH w1); [lia | by eapply boundOnly_step | by eapply quiet_step] | |].
    + intros w' x Hw'. by eapply parseStep_trans.
    + intros w' Hw'. by eapply parseStep_trans.
  - destruct err as [e|]; [| exact Hstep].
    unfold bind, loadStd. destruct (stds w1 !! f) as [st|]; [| exact Hstep].
    destruct (f_errorHandling st); [exact Hstep | | exact Hstep].
    destruct e; exact Hstep.
Qed.

Lemma setParsed_eq (f : nat) (w : World) (st : flag_FlagSet) :
  stds w !! f = Some st ->
  setParsed f w
  = Done (setStds w (<[f := mkStd (f_name st) true (f_actual st) (f_formal st)
                                  (f_args st) (f_errorHandling st) (f_output st)]>
                       (stds w))) tt.
Proof. intros H. unfold setParsed, bind, loadStd, storeStd. by rewrite H, H. Qed.

Lemma setArgs_eq (f : nat) (w : World) (st : flag_FlagSet) (a : list string) :
  stds w !! f = Some st ->
  setArgs f a w
  = Done (setStds w (<[f := mkStd (f_name st) (f_parsed st) (f_actual st) (f_formal st)
                                  a (f_errorHandling st) (f_output st)]>
                       (stds w))) tt.
Proof. intros H. unfold setArgs, bind, loadStd, storeStd. by rewrite H, H. Qed.

(** [FlagSet.Parse] on arguments that do not name an identifier of [ids]:
    it ends, and the variable [p] holds what it held. *)
Lemma flag_Parse_keeps (f : nat) (arguments : list string) (w : World) :
  boundOnly w p ids ->
  Forall (fun t => quiet ids t = true) arguments ->
  outcome (flag_Parse f arguments w)
          (fun w' _ => cells w' !! p = cells w !! p)
          (fun w' => cells w' !! p = cells w !! p).
Proof.
  intros Hb Hq. unfold flag_Parse.
  destruct (stds w !! f) as [st|] eqn:Hst.
  2: { unfold bind, setParsed, bind, loadStd. by rewrite Hst. }
  assert (f < length (stds w)) as Hlt by (by eapply lookup_lt_Some).
  unfold bind. rewrite (setParsed_eq f w st Hst).
  erewrite setArgs_eq by (cbn [stds setStds]; by apply list_lookup_insert_eq).
  match goal with |- outcome (flag_Parse_loop _ _ ?w0) _ _ => set (w1 := w0) end.
  assert (exists st1, stds w1 = <[f := st1]> (stds w)
                      /\ f_formal st1 = f_formal st /\ f_args st1 = arguments)
    as (st1 & Hw1 & Hf1 & Ha1).
  { eexists. split; [| split]; [unfold w1; cbn [stds setStds];
                                apply list_insert_insert_eq | done | done]. }
  assert (cells w1 = cells w) as Hc1 by done.
  clearbody w1.
  assert (argsOf w1 f = arguments) as Hargs.
  { unfold argsOf. by rewrite Hw1, list_lookup_insert_eq. }
  assert (boundOnly w1 p ids) as Hb1.
  { intros g st' id fl Hst' Hid Hv. rewrite Hw1 in Hst'.
    destruct (decide (g = f)) as [->|Hne].
    - rewrite list_lookup_insert_eq in Hst' by done. injection Hst' as <-.
      apply (Hb f st id fl); [done | by rewrite <- Hf1 | done].
    - rewrite list_lookup_insert_ne in Hst' by done. by apply (Hb g st' id fl). }
  eapply outcome_weaken;
    [apply (Parse_loop_step (S (length arguments)) f w1);
     [rewrite Hargs; lia | done | by rewrite Hargs] | |].
  - intros w' x (-> & _). by rewrite Hc1.
  - intros w' (-> & _). by rewrite Hc1.
Qed.

(** The same for the package's [parse], whichever set it dispatches to. *)
Lemma parse_keeps (fs : nat) (args : list string) (w : World) :
  boundOnly w p ids ->
  Forall (fun t => quiet ids t = true) args ->
  outcome (parse fs args w)
          (fun w' _ => cells w' !! p = cells w !! p)
          (fun w' => cells w' !! p = cells w !! p).
Proof.
  intros Hb Hq.
  assert (outcome (FlagSet_Parse fs args w)
            (fun w' _ => cells w' !! p = cells w !! p)
            (fun w' => cells w' !! p = cells w !! p)) as Hdirect.
  { unfold FlagSet_Parse, bind, loadSet.
    destruct (sets w !! fs); [by apply flag_Parse_keeps | done]. }
  unfold parse. destruct (1 <? length args)%nat; [| done].
  destruct args as [|a0 tail]; [done |].
  destruct (flagSets w !! a0); [| done].
  apply flag_Parse_keeps; [done |]. by apply Forall_cons in Hq as [_ Hq].
Qed.

End ParseFrame.

Section Defaults.

Context {E : Env}.

Lemma heapClosed_lookup (w : World) (f : nat) (st : flag_FlagSet) (id : string)
      (fl : Flag) :
  heapClosed w -> stds w !! f = Some st -> f_formal st !! id = Some fl ->
  flag_Value fl < length (cells w).
Proof.
  intros H Hst Hid. unfold heapClosed in H.
  rewrite Forall_lookup in H. by apply (H f st Hst id fl).
Qed.

Lemma defineFlag_boundOnly (w w1 : World) (fs : nat) (name shorthand usage : string)
      (d : val) (p : nat) :
  heapClosed w ->
  defineFlag fs name shorthand (Typed d) usage w = Done w1 (Some p) ->
  boundOnly w1 p [name; if String.eqb name shorthand then "" else shorthand]
  /\ cells w1 !! p = Some d.
Proof.
  intros Hc H. apply defineFlag_Done in H. cbv zeta in H.
  set (sh := if String.eqb name shorthand then "" else shorthand) in *.
  destruct H as (s & st & a & sl & Hs & Hst & _ & _ & _ & [= ->] & ->).
  assert (std s < length (stds w)) as Hlt by (by eapply lookup_lt_Some).
  split.
  - intros g st' id fl Hst' Hid Hv. cbn [stds] in Hst'.
    destruct (decide (id = name)) as [->|Hn]; [set_solver |].
    destruct (decide (id = sh)) as [->|Hn']; [set_solver |].
    exfalso.
    destruct (decide (g = std s)) as [->|Hne].
    + rewrite list_lookup_insert_eq in Hst' by done. injection Hst' as <-.
      rewrite addBoth_lookup_other in Hid by done.
      pose proof (heapClosed_lookup w (std s) st id fl Hc Hst Hid). lia.
    + rewrite list_lookup_insert_ne in Hst' by done.
      pose proof (heapClosed_lookup w g st' id fl Hc Hst' Hid). lia.
  - cbn [cells]. by rewrite lookup_app_r, Nat.sub_diag.
Qed.

Lemma mentions_quiet (args : list string) (ids : list string) :
  Forall (fun id => mentions args id = false) ids ->
  Forall (fun t => quiet ids t = true) args.
Proof.
  intros H. apply Forall_forall. intros t Ht.
  unfold quiet. apply forallb_forall. intros id Hid.
  rewrite Forall_forall in H. apply list_elem_of_In in Hid.
  specialize (H id Hid). unfold mentions in H.
  destruct (String.eqb id ""); [done |]. simpl in *.
  apply negb_true_iff. 
  destruct (refersTo t id) eqn:Hr; [| done].
  assert (existsb (fun t => refersTo t id) args = true) as Hex; [| congruence].
  apply existsb_exists. exists t. split; [by apply list_elem_of_In | done].
Qed.

(** *** The destination stays the flag's own while more is set up *)

Lemma owned_NewFlagSet (p : nat) (d : val) (ids : list string) (w w' : World)
      (name : string) (errorHandling : ErrorHandling) (fs : nat) :
  owned p d ids w -> NewFlagSet name errorHandling w = Done w' fs ->
  owned p d ids w'.
Proof.
  intros (Hd & Hb & Hc) H.
  unfold NewFlagSet, flag_NewFlagSet, bind, newStd, newSet in H.
  injection H as <- _. unfold owned. cbn [cells stds setFlagSets setStds setSets].
  assert (forall f st id fl,
            (stds w ++ [mkStd name false ∅ ∅ [] errorHandling ""])%list !! f = Some st ->
            f_formal st !! id = Some fl ->
            stds w !! f = Some st) as Hold.
  { intros f st id fl Hst Hid.
    apply lookup_app_Some in Hst as [Hst|[_ Hst]]; [done |].
    apply list_lookup_singleton_Some in Hst as [_ <-]. simpl in Hid.
    by rewrite lookup_empty in Hid. }
  split_and!; [done | |].
  - intros f st id fl Hst Hid Hv.
    apply (Hb f st id fl); [by apply (Hold f st id fl) | done | done].
  - intros f st id fl Hst Hid.
    apply (Hc f st id fl); [by apply (Hold f st id fl) | done].
Qed.

Lemma owned_defineFlag (p : nat) (d : val) (ids : list string) (w w' : World)
      (fs : nat) (name shorthand : string) (value : dyn) (usage : string)
      (r : option nat) :
  owned p d ids w -> defineFlag fs name shorthand value usage w = Done w' r ->
  owned p d ids w'.
Proof.
  intros (Hd & Hb & Hc) H.
  assert (p < length (cells w)) as Hp by (by eapply lookup_lt_Some).
  destruct value as [v| |].
  - apply defineFlag_Done in H. cbv zeta in H.
    set (sh := if String.eqb name shorthand then "" else shorthand) in *.
    destruct H as (s & st & a & sl & Hs & Hst & _ & _ & _ & _ & ->).
    assert (std s < length (stds w)) as Hlt by (by eapply lookup_lt_Some).
    assert (forall f st' id fl,
              (<[std s := addBoth st name sh usage (length (cells w))]> (stds w)) !! f
              = Some st' ->
              f_formal st' !! id = Some fl ->
              flag_Value fl = length (cells w)
              \/ exists st0, stds w !! f = Some st0 /\ f_formal st0 !! id = Some fl)
      as Hcases.
    { intros f st' id fl Hst' Hid.
      destruct (decide (f = std s)) as [->|Hne].
      - rewrite list_lookup_insert_eq in Hst' by done. injection Hst' as <-.
        unfold addBoth in Hid.
        destruct (String.eqb sh ""); cbn [f_formal addFormal] in Hid.
        + apply lookup_insert_Some in Hid as [[_ <-]|[_ Hid]]; [by left |].
          right. by exists st.
        + apply lookup_insert_Some in Hid as [[_ <-]|[_ Hid]]; [by left |].
          apply lookup_insert_Some in Hid as [[_ <-]|[_ Hid]]; [by left |].
          right. by exists st.
      - rewrite list_lookup_insert_ne in Hst' by done. right. by exists st'. }
    unfold owned. cbn [cells stds]. split_and!.
    + by rewrite lookup_app_l.
    + intros f st' id fl Hst' Hid Hv.
      destruct (Hcases f st' id fl Hst' Hid) as [Heq|(st0 & Hst0 & Hid0)]; [lia |].
      by apply (Hb f st0 id fl).
    + intros f st' id fl Hst' Hid. rewrite length_app. simpl.
      destruct (Hcases f st' id fl Hst' Hid) as [Heq|(st0 & Hst0 & Hid0)]; [lia |].
      pose proof (Hc f st0 id fl Hst0 Hid0). lia.
  - unfold defineFlag, bind in H. by destruct (defineUsage _ _ _ _ _).
  - unfold defineFlag, bind, ret in H.
    destruct (defineUsage_total fs name
                (if String.eqb name shorthand then "" else shorthand) usage w)
      as [(s & a & sl & _ & _ & Hu)|[msg Hu]]; rewrite Hu in H; [| discriminate].
    injection H as <- _. by split_and!.
Qed.

Lemma owned_setup (p : nat) (d : val) (ids : list string) (w w' : World) :
  setup w w' -> owned p d ids w -> owned p d ids w'.
Proof.
  induction 1 as [| w w1 w2 name eh fs _ IH H | w w1 w2 fs n sh v u r _ IH H];
    intros Ho; [done | |].
  - eapply owned_NewFlagSet; [by apply IH | done].
  - eapply owned_defineFlag; [by apply IH | done].
Qed.

Lemma defineFlag_owned (w w1 : World) (fs : nat) (name shorthand usage : string)
      (d : val) (p : nat) :
  heapClosed w ->
  defineFlag fs name shorthand (Typed d) usage w = Done w1 (Some p) ->
  owned p d [name; if String.eqb name shorthand then "" else shorthand] w1.
Proof.
  intros Hc H.
  destruct (defineFlag_boundOnly w w1 fs name shorthand usage d p Hc H) as [Hb Hd].
  split_and!; [done | done |].
  apply defineFlag_Done in H. cbv zeta in H.
  set (sh := if String.eqb name shorthand then "" else shorthand) in *.
  destruct H as (s & st & a & sl & Hs & Hst & _ & _ & _ & _ & ->).
  assert (std s < length (stds w)) as Hlt by (by eapply lookup_lt_Some).
  intros f st' id fl Hst' Hid. cbn [cells stds] in *. rewrite length_app. simpl.
  destruct (decide (f = std s)) as [->|Hne].
  - rewrite list_lookup_insert_eq in Hst' by done. injection Hst' as <-.
    unfold addBoth in Hid.
    destruct (String.eqb sh ""); cbn [f_formal addFormal] in Hid.
    + apply lookup_insert_Some in Hid as [[_ <-]|[_ Hid]]; [simpl; lia |].
      pose proof (heapClosed_lookup w (std s) st id fl Hc Hst Hid). lia.
    + apply lookup_insert_Some in Hid as [[_ <-]|[_ Hid]]; [simpl; lia |].
      apply lookup_insert_Some in Hid as [[_ <-]|[_ Hid]]; [simpl; lia |].
      pose proof (heapClosed_lookup w (std s) st id fl Hc Hst Hid). lia.
  - rewrite list_lookup_insert_ne in Hst' by done.
    pose proof (heapClosed_lookup w f st' id fl Hc Hst' Hid). lia.
Qed.

(** C7. A flag is defined with default [d] (the call returns the pointer [p]
    to its destination), and the program goes on creating sets and defining
    flags.  If no token of the argument list is a marker of the flag's name
    or of its shorthand, then parsing that list (through [parse], whichever
    set it dispatches to and however it ends) terminates and leaves [d] in
    the destination. *)
Theorem unmentioned_flag_keeps_default (w w1 w2 : World) (fs fs' : nat)
        (name shorthand usage : string) (d : val) (p : nat) (args : list string) :
  heapClosed w ->
  defineFlag fs name shorthand (Typed d) usage w = Done w1 (Some p) ->
  setup w1 w2 ->
  mentions args name = false ->
  mentions args shorthand = false ->
  exists w3, finalWorld (parse fs' args w2) = Some w3 /\ cells w3 !! p = Some d.
Proof.
  intros Hc Hdef Hsetup Hm1 Hm2.
  pose proof (defineFlag_owned w w1 fs name shorthand usage d p Hc Hdef) as Ho.
  apply (owned_setup _ _ _ _ _ Hsetup) in Ho as (Hd & Hb & _).
  assert (Forall (fun t => quiet [name; if String.eqb name shorthand then ""
                                        else shorthand] t = true) args) as Hq.
  { apply mentions_quiet. repeat constructor; [done |].
    by destruct (String.eqb name shorthand). }
  pose proof (parse_keeps p _ fs' args w2 Hb Hq) as H.
  destruct (parse fs' args w2) as [w3 r|w3 msg|w3 c|]; simpl in *;
    [exists w3 | exists w3 | exists w3 | done]; by rewrite H.
Qed.

End Defaults.

Section Facade.

Context {E : Env}.

(** C5. [parse] on a token list of more than one token whose first token is
    the name of a set recorded in [flagSets] hands the remaining tokens to
    that set's [Parse] (the leading token is consumed), which is what calling
    [Parse] through any pointer [fs0] to that set does; in every other case
    it hands the whole list to [Parse] of the set it was given. *)
Theorem parse_dispatches (w : World) (fs : nat) (args : list string) :
  (forall (a0 : string) (tail : list string) (f : FlagSet),
     args = a0 :: tail -> 1 < length args -> flagSets w !! a0 = Some f ->
     parse fs args w = flag_Parse (std f) tail w
     /\ (forall (fs0 : nat) (s0 : FlagSet),
           sets w !! fs0 = Some s0 -> std s0 = std f ->
           parse fs args w = FlagSet_Parse fs0 tail w))
  /\ (length args <= 1 \/ (forall a0, head args = Some a0 -> flagSets w !! a0 = None) ->
      parse fs args w = FlagSet_Parse fs args w).
Proof.
  split.
  - intros a0 tail f -> Hlen Hf. unfold parse.
    apply Nat.ltb_lt in Hlen. rewrite Hlen, Hf. split; [done |].
    intros fs0 s0 Hs0 Hstd. unfold FlagSet_Parse, bind, loadSet.
    by rewrite Hs0, Hstd.
  - intros H. unfold parse.
    destruct (1 <? length args)%nat eqn:Hlen; [| done].
    apply Nat.ltb_lt in Hlen. destruct H as [H|H]; [lia |].
    destruct args as [|a0 tail]; [done |].
    by rewrite (H a0 eq_refl).
Qed.

(** [NewFlagSet] records under [name] a copy of the set it returns a pointer
    to. *)
Lemma NewFlagSet_Done (name : string) (errorHandling : ErrorHandling) (w : World) :
  let s := mkFlagSet (length (stds w)) flagInfoSlice in
  NewFlagSet name errorHandling w
  = Done (mkWorld (<[name := s]> (flagSets w)) (arrays w)
                  (stds w ++ [mkStd name false ∅ ∅ [] errorHandling ""])%list
                  (sets w ++ [s])%list (cells w))
         (length (sets w)).
Proof. reflexivity. Qed.

(** *** Positional arguments *)

Lemma flag_Parse_nonflag_first (f : nat) (w : World) (st : flag_FlagSet)
      (a0 : string) (tail : list string) :
  stds w !! f = Some st ->
  (String.length a0 <? 2)%nat || negb (byteIs a0 0 dash) = true ->
  flag_Parse f (a0 :: tail) w
  = Done (setStds w (<[f := mkStd (f_name st) true (f_actual st) (f_formal st)
                                  (a0 :: tail) (f_errorHandling st) (f_output st)]>
                       (stds w))) None.
Proof.
  intros Hst Ha0.
  assert (f < length (stds w)) as Hlt by (by eapply lookup_lt_Some).
  unfold flag_Parse, bind. rewrite (setParsed_eq f w st Hst).
  erewrite setArgs_eq by (cbn [stds setStds]; by apply list_lookup_insert_eq).
  cbn [flag_Parse_loop]. unfold bind, flag_parseOne, bind, loadStd.
  cbn [stds setStds f_name f_parsed f_actual f_formal f_args f_errorHandling f_output].
  rewrite list_insert_insert_eq, list_lookup_insert_eq by done.
  cbn [f_args]. rewrite Ha0. reflexivity.
Qed.

Lemma args_loop_empty (f : nat) (all rest : list string) (i : nat)
      (pArgs : list string) :
  args_loop f all ("" :: rest) i pArgs = args_loop f all rest (S i) (pArgs ++ [""])%list.
Proof. reflexivity. Qed.

Lemma args_loop_marker (f : nat) (all rest : list string) (arg : string) (i : nat)
      (pArgs : list string) :
  byteIs arg 0 dash = true ->
  args_loop f all (arg :: rest) i pArgs = args_loop f all rest (S i) pArgs.
Proof.
  intros H. cbn [args_loop]. rewrite H.
  destruct arg; [discriminate | done].
Qed.

Lemma args_loop_first (f : nat) (all rest : list string) (arg : string)
      (pArgs : list string) (w : World) :
  arg <> "" -> byteIs arg 0 dash = false ->
  args_loop f all (arg :: rest) 0 pArgs w
  = args_loop f all rest 1 (pArgs ++ [arg])%list w.
Proof.
  intros Hne H. cbn [args_loop]. rewrite H.
  apply String.eqb_neq in Hne. by rewrite Hne.
Qed.

Lemma args_loop_after_plain (f : nat) (all rest : list string) (arg prev : string)
      (i : nat) (pArgs : list string) (w : World) :
  arg <> "" -> byteIs arg 0 dash = false ->
  all !! i = Some prev -> prev <> "" -> byteIs prev 0 dash = false ->
  args_loop f all (arg :: rest) (S i) pArgs w
  = args_loop f all rest (S (S i)) (pArgs ++ [arg])%list w.
Proof.
  intros Hne H Hprev Hp Hpd. cbn [args_loop]. rewrite H.
  apply String.eqb_neq in Hne. rewrite Hne.
  cbn [Nat.ltb Nat.leb]. replace (S i - 1) with i by lia. rewrite Hprev.
  unfold byteIs in Hpd. destruct prev as [|c prev']; [done |].
  cbn [String.get] in *. rewrite Hpd. reflexivity.
Qed.

Lemma args_loop_after_marker (f : nat) (all rest : list string) (arg prev : string)
      (i : nat) (pArgs : list string) (w : World) (fl : option Flag) :
  arg <> "" -> byteIs arg 0 dash = false ->
  all !! i = Some prev -> byteIs prev 0 dash = true ->
  flag_Lookup f (ReplaceAll_dash_empty prev) w = Done w fl ->
  args_loop f all (arg :: rest) (S i) pArgs w
  = match fl with
    | Some fl =>
        match Value_Elem_Kind_Bool (flag_Value fl) w with
        | Done w' isBool =>
            if negb isBool then args_loop f all rest (S (S i)) pArgs w'
            else args_loop f all rest (S (S i)) (pArgs ++ [arg])%list w'
        | Panic w' msg => Panic w' msg
        | Exit w' c => Exit w' c
        | OutOfFuel => OutOfFuel
        end
    | None => args_loop f all rest (S (S i)) (pArgs ++ [arg])%list w
    end.
Proof.
  intros Hne H Hprev Hpd Hl. cbn [args_loop]. rewrite H.
  apply String.eqb_neq in Hne. rewrite Hne.
  cbn [Nat.ltb Nat.leb]. replace (S i - 1) with i by lia. rewrite Hprev.
  unfold byteIs in Hpd. destruct prev as [|c prev']; [done |].
  cbn [String.get] in *. rewrite Hpd.
  unfold bind at 1. unfold bind at 1. rewrite Hl.
  destruct fl as [fl|]; [| done].
  unfold bind, ret.
  by destruct (Value_Elem_Kind_Bool (flag_Value fl) w) as [w' []| | |].
Qed.

(** The slip of [args]: a token that is neither empty nor a marker and
    follows an empty token makes [args[i-1][0]] index an empty string. *)
Lemma args_loop_after_empty (f : nat) (all rest : list string) (arg : string)
      (i : nat) (pArgs : list string) (w : World) :
  arg <> "" -> byteIs arg 0 dash = false ->
  all !! i = Some "" ->
  args_loop f all (arg :: rest) (S i) pArgs w
  = Panic w "index out of range [0] with length 0".
Proof.
  intros Hne H Hprev. cbn [args_loop]. rewrite H.
  apply String.eqb_neq in Hne. rewrite Hne.
  cbn [Nat.ltb Nat.leb]. replace (S i - 1) with i by lia. by rewrite Hprev.
Qed.

Lemma flag_Lookup_eq (f : nat) (name : string) (w : World) (st : flag_FlagSet) :
  stds w !! f = Some st -> flag_Lookup f name w = Done w (f_formal st !! name).
Proof. intros H. unfold flag_Lookup, bind, loadStd. by rewrite H. Qed.

Lemma args_of_example (w : World) (fs : nat) (s : FlagSet) (st : flag_FlagSet)
      (fb fsf : Flag) (b : bool) (v : string) :
  sets w !! fs = Some s -> stds w !! std s = Some st ->
  f_args st = positionalTokens ->
  f_formal st !! "bool" = Some fb -> cells w !! flag_Value fb = Some (VBool b) ->
  f_formal st !! "s" = Some fsf -> cells w !! flag_Value fsf = Some (VString v) ->
  args fs w = Done w ["arg0"; "arg1"; "arg2"].
Proof.
  intros Hs Hst Hargs Hfb Hcb Hfs Hcs.
  unfold args, bind at 1, loadSet at 1. rewrite Hs.
  unfold bind at 1. unfold flag_Args, bind at 1, loadStd at 1. rewrite Hst.
  cbn [ret]. rewrite Hargs. unfold positionalTokens.
  rewrite args_loop_first by done.
  rewrite args_loop_marker by done.
  erewrite args_loop_after_marker;
    [| done | done | done | done | by apply flag_Lookup_eq].
  cbn [ReplaceAll_dash_empty Ascii.eqb Bool.eqb dash]. rewrite Hfb.
  unfold Value_Elem_Kind_Bool at 1, bind at 1, loadCell at 1.
  rewrite Hcb. cbn [ret negb].
  rewrite args_loop_marker by done.
  erewrite args_loop_after_marker;
    [| done | done | done | done | by apply flag_Lookup_eq].
  cbn [ReplaceAll_dash_empty Ascii.eqb Bool.eqb dash]. rewrite Hfs.
  unfold Value_Elem_Kind_Bool at 1, bind at 1, loadCell at 1.
  rewrite Hcs. cbn [ret negb].
  erewrite args_loop_after_plain by done.
  reflexivity.
Qed.

(** C4. In a set where "bool" is registered as a boolean flag and "s" as a
    text flag, parsing the six tokens and then extracting the positional
    arguments yields arg0, arg1, arg2 in that order: through [Parse] of the
    set, and through the package's [parse] when no set is called "arg0". *)
Theorem positional_extraction (w : World) (fs : nat) (s : FlagSet)
        (st : flag_FlagSet) (fb fsf : Flag) (b : bool) (v : string) :
  sets w !! fs = Some s -> stds w !! std s = Some st ->
  f_formal st !! "bool" = Some fb -> cells w !! flag_Value fb = Some (VBool b) ->
  f_formal st !! "s" = Some fsf -> cells w !! flag_Value fsf = Some (VString v) ->
  (exists w', (FlagSet_Parse fs positionalTokens ;;; args fs) w
              = Done w' ["arg0"; "arg1"; "arg2"])
  /\ (flagSets w !! "arg0" = None ->
      exists w', (parse fs positionalTokens ;;; args fs) w
                 = Done w' ["arg0"; "arg1"; "arg2"]).
Proof.
  intros Hs Hst Hfb Hcb Hfs Hcs.
  assert (exists w', (FlagSet_Parse fs positionalTokens ;;; args fs) w
                     = Done w' ["arg0"; "arg1"; "arg2"]) as Hdirect.
  { assert (std s < length (stds w)) as Hlt by (by eapply lookup_lt_Some).
    unfold bind at 1. unfold FlagSet_Parse, bind at 1, loadSet at 1. rewrite Hs.
    unfold positionalTokens at 1. rewrite (flag_Parse_nonflag_first _ w st) by done.
    eexists.
    apply (args_of_example _ fs s
             (mkStd (f_name st) true (f_actual st) (f_formal st) positionalTokens
                    (f_errorHandling st) (f_output st)) fb fsf b v); try done.
    cbn [stds setStds]. by apply list_lookup_insert_eq. }
  split; [done |].
  intros Hnone. unfold bind, parse. cbn [positionalTokens length Nat.ltb Nat.leb].
  rewrite Hnone. exact Hdirect.
Qed.

(** The slip is not tied to one input: whenever the leftover tokens contain
    an empty token immediately followed by a token that is neither empty nor
    a marker, the loop of [args] does not return. *)
Lemma args_loop_never_returns (f : nat) (all pre post : list string) (x : string)
      (i : nat) (pArgs : list string) (w : World) :
  x <> "" -> byteIs x 0 dash = false ->
  all !! (i + length pre) = Some "" ->
  forall w' r, args_loop f all (pre ++ "" :: x :: post)%list i pArgs w <> Done w' r.
Proof.
  intros Hx Hd. revert i pArgs w.
  induction pre as [|a pre IH]; intros i pArgs w Hall w' r.
  - cbn [app]. rewrite args_loop_empty.
    rewrite Nat.add_0_r in Hall. by rewrite args_loop_after_empty.
  - assert (all !! (S i + length pre) = Some "") as Hall'.
    { rewrite <- Hall. f_equal. simpl. lia. }
    cbn [app args_loop].
    destruct (String.eqb a ""); [by apply IH |].
    destruct (byteIs a 0 dash); [by apply IH |].
    unfold bind at 1.
    match goal with |- context [match ?m w with _ => _ end] =>
      destruct (m w) as [w1 [|]| | |]
    end; try done; by apply IH.
Qed.

Lemma args_never_returns (w : World) (fs : nat) (s : FlagSet) (st : flag_FlagSet)
      (pre post : list string) (x : string) :
  sets w !! fs = Some s -> stds w !! std s = Some st ->
  f_args st = (pre ++ "" :: x :: post)%list ->
  x <> "" -> byteIs x 0 dash = false ->
  forall w' r, args fs w <> Done w' r.
Proof.
  intros Hs Hst Hargs Hx Hd w' r.
  unfold args, bind at 1, loadSet at 1. rewrite Hs.
  unfold bind at 1. unfold flag_Args, bind at 1, loadStd at 1. rewrite Hst.
  cbn [ret]. rewrite Hargs.
  apply args_loop_never_returns; [done | done |].
  by rewrite lookup_app_r, Nat.sub_diag.
Qed.

End Facade.

Section Reachable.

Context {E : Env}.

(** *** The states the package reaches are well formed *)

Lemma heapClosed_iff (w : World) :
  heapClosed w
  <-> (forall f st id fl, stds w !! f = Some st -> f_formal st !! id = Some fl ->
                          flag_Value fl < length (cells w)).
Proof.
  unfold heapClosed. rewrite Forall_lookup. split.
  - intros H f st id fl Hst Hid. by apply (H f st Hst id fl).
  - intros H f st Hst id fl Hid. by apply (H f st id fl).
Qed.

Lemma append_wfSlice (s s' : Slice) (x : flagInfo) (w : World)
      (a : list (list flagInfo)) (sl : Slice) :
  append s x w = Done (setArrays w a) sl ->
  wfSlice w s' = true -> wfSlice (setArrays w a) s' = true.
Proof.
  unfold append, wfSlice. cbn [arrays setArrays].
  destruct (len s <? cap s)%nat.
  - destruct (arrays w !! arr s) as [a0|] eqn:Ha0; [| discriminate].
    intros [= <- _] H. apply andb_true_iff in H as [H1 H2].
    apply andb_true_iff. split; [done |].
    destruct (decide (arr s' = arr s)) as [Heq|Hne].
    + rewrite Heq, Ha0 in H2. rewrite Heq.
      rewrite list_lookup_insert_eq by (by eapply lookup_lt_Some).
      by rewrite length_insert.
    + by rewrite list_lookup_insert_ne.
  - intros [= <- _] H. apply andb_true_iff in H as [H1 H2].
    apply andb_true_iff. split; [done |].
    destruct (arrays w !! arr s') as [b|] eqn:Hb.
    + by rewrite (lookup_app_l_Some _ _ _ _ Hb).
    + apply Nat.eqb_eq in H2. rewrite H2.
      match goal with |- match ?t with _ => _ end = true => destruct t end;
        [apply Nat.leb_le; lia | done].
Qed.

Lemma wfSlice_arrays (w w' : World) (s : Slice) :
  arrays w' = arrays w -> wfSlice w' s = wfSlice w s.
Proof. unfold wfSlice. by intros ->. Qed.

(** What a definition call that returns has done to the descriptors. *)
Lemma defineFlag_Done_arrays (fs : nat) (name shorthand : string) (value : dyn)
      (usage : string) (w w' : World) (r : option nat) :
  defineFlag fs name shorthand value usage w = Done w' r ->
  exists s a sl d,
    sets w !! fs = Some s
    /\ append (flags s) d w = Done (setArrays w a) sl
    /\ arrays w' = a
    /\ sets w' = <[fs := mkFlagSet (std s) sl]> (sets w)
    /\ length (stds w') = length (stds w).
Proof.
  set (sh := if String.eqb name shorthand then "" else shorthand).
  intros H.
  assert (exists w1, defineUsage fs name sh usage w = Done w1 tt
                     /\ arrays w' = arrays w1 /\ sets w' = sets w1
                     /\ length (stds w') = length (stds w1)) as (w1 & Hu & Ha & Hs & Hl).
  { destruct value as [v| |].
    - rewrite defineFlag_Typed in H. cbv zeta in H. fold sh in H. unfold bind in H.
      destruct (defineUsage fs name sh usage w) as [w1 []| | |]; try discriminate.
      destruct (bindBoth fs name sh v usage w1) as [w2 p| | |] eqn:Hb;
        try discriminate.
      injection H as <- _. exists w1. split; [done |].
      apply bindBoth_Done in Hb as (s & st & _ & _ & _ & _ & _ & _ & ->).
      cbn [arrays sets stds]. by rewrite length_insert.
    - unfold defineFlag, bind in H. fold sh in H.
      by destruct (defineUsage fs name sh usage w).
    - unfold defineFlag, bind, ret in H. fold sh in H.
      destruct (defineUsage fs name sh usage w) as [w1 []| | |]; try discriminate.
      injection H as <- _. by exists w1. }
  destruct (defineUsage_total fs name sh usage w)
    as [(s & a & sl & Hs0 & Happ & Hu')|[msg Hu']]; rewrite Hu' in Hu;
    [| discriminate].
  injection Hu as <-. cbn [arrays sets stds] in *.
  by exists s, a, sl, (descriptorOf name sh usage).
Qed.

Lemma heapClosed_NewFlagSet (w w' : World) (name : string)
      (errorHandling : ErrorHandling) (fs : nat) :
  heapClosed w -> NewFlagSet name errorHandling w = Done w' fs -> heapClosed w'.
Proof.
  rewrite !heapClosed_iff. intros Hc H. rewrite NewFlagSet_Done in H.
  injection H as <- _. cbn [stds cells].
  intros f st id fl Hst Hid.
  apply lookup_app_Some in Hst as [Hst|[_ Hst]]; [by apply (Hc f st id fl) |].
  apply list_lookup_singleton_Some in Hst as [_ <-]. simpl in Hid.
  by rewrite lookup_empty in Hid.
Qed.

Lemma heapClosed_defineFlag (w w' : World) (fs : nat) (name shorthand : string)
      (value : dyn) (usage : string) (r : option nat) :
  heapClosed w -> defineFlag fs name shorthand value usage w = Done w' r ->
  heapClosed w'.
Proof.
  rewrite !heapClosed_iff. intros Hc H.
  destruct value as [v| |].
  - apply defineFlag_Done in H. cbv zeta in H.
    set (sh := if String.eqb name shorthand then "" else shorthand) in *.
    destruct H as (s & st & a & sl & Hs & Hst & _ & _ & _ & _ & ->).
    assert (std s < length (stds w)) as Hlt by (by eapply lookup_lt_Some).
    cbn [stds cells]. rewrite length_app. cbn [length].
    intros f st' id fl Hst' Hid.
    destruct (decide (f = std s)) as [->|Hne].
    + rewrite list_lookup_insert_eq in Hst' by done. injection Hst' as <-.
      unfold addBoth in Hid.
      destruct (String.eqb sh ""); cbn [f_formal addFormal] in Hid.
      * apply lookup_insert_Some in Hid as [[_ <-]|[_ Hid]]; [simpl; lia |].
        pose proof (Hc (std s) st id fl Hst Hid). lia.
      * apply lookup_insert_Some in Hid as [[_ <-]|[_ Hid]]; [simpl; lia |].
        apply lookup_insert_Some in Hid as [[_ <-]|[_ Hid]]; [simpl; lia |].
        pose proof (Hc (std s) st id fl Hst Hid). lia.
    + rewrite list_lookup_insert_ne in Hst' by done.
      pose proof (Hc f st' id fl Hst' Hid). lia.
  - unfold defineFlag, bind in H. by destruct (defineUsage _ _ _ _ _).
  - unfold defineFlag, bind, ret in H.
    destruct (defineUsage_total fs name
                (if String.eqb name shorthand then "" else shorthand) usage w)
      as [(s & a & sl & _ & _ & Hu)|[msg Hu]]; rewrite Hu in H; [| discriminate].
    injection H as <- _. exact Hc.
Qed.

Lemma wfWorld_NewFlagSet (w w' : World) (name : string)
      (errorHandling : ErrorHandling) (fs : nat) :
  wfWorld w -> NewFlagSet name errorHandling w = Done w' fs -> wfWorld w'.
Proof.
  intros (Hsets & Hslice & Hc) H. split_and!.
  - rewrite NewFlagSet_Done in H. injection H as <- _. cbn [sets].
    intros fs0 Hlt. rewrite length_app in Hlt. cbn [length] in Hlt.
    unfold wfSet. cbn [sets stds].
    destruct (decide (fs0 < length (sets w))) as [Hold|Hnew].
    + specialize (Hsets fs0 Hold). unfold wfSet in Hsets.
      rewrite lookup_app_l by done.
      destruct (sets w !! fs0) as [s|]; [| done].
      apply andb_true_iff in Hsets as [H1 H2]. apply andb_true_iff.
      split; [exact H1 |].
      apply bool_decide_eq_true in H2 as [st Hst].
      apply bool_decide_eq_true. exists st. by apply lookup_app_l_Some.
    + assert (fs0 = length (sets w)) as -> by lia.
      rewrite lookup_app_r, Nat.sub_diag by done. cbn [lookup list_lookup std flags].
      apply andb_true_iff. split; [exact Hslice |].
      apply bool_decide_eq_true. eexists.
      by rewrite lookup_app_r, Nat.sub_diag.
  - rewrite NewFlagSet_Done in H. injection H as <- _. exact Hslice.
  - by eapply heapClosed_NewFlagSet.
Qed.

Lemma wfWorld_defineFlag (w w' : World) (fs : nat) (name shorthand : string)
      (value : dyn) (usage : string) (r : option nat) :
  wfWorld w -> defineFlag fs name shorthand value usage w = Done w' r ->
  wfWorld w'.
Proof.
  intros (Hsets & Hslice & Hc) H.
  pose proof (heapClosed_defineFlag w w' fs name shorthand value usage r Hc H) as Hc'.
  apply defineFlag_Done_arrays in H
    as (s & a & sl & d & Hs & Happ & Harr & Hsets' & Hlen).
  assert (fs < length (sets w)) as Hfs by (by eapply lookup_lt_Some).
  assert (forall s', wfSlice w s' = true -> wfSlice w' s' = true) as Hkeep.
  { intros s' Hs'. rewrite (wfSlice_arrays (setArrays w a) w') by done.
    by eapply append_wfSlice. }
  assert (forall f, is_Some (stds w !! f) -> is_Some (stds w' !! f)) as Hstd.
  { intros f Hf. apply lookup_lt_is_Some in Hf. apply lookup_lt_is_Some. lia. }
  split_and!; [| by apply Hkeep | done].
  intros fs0 Hlt. rewrite Hsets', length_insert in Hlt.
  unfold wfSet. rewrite Hsets'.
  destruct (decide (fs0 = fs)) as [->|Hne].
  - rewrite list_lookup_insert_eq by done. cbn [flags std].
    specialize (Hsets fs Hfs). unfold wfSet in Hsets. rewrite Hs in Hsets.
    apply andb_true_iff in Hsets as [H1 H2]. apply andb_true_iff. split.
    + destruct (append_view (flags s) d w H1) as (a0 & sl0 & Happ0 & _ & Hwf0).
      rewrite Happ in Happ0. injection Happ0 as <- <-.
      by rewrite (wfSlice_arrays (setArrays w a) w').
    + apply bool_decide_eq_true. apply Hstd. by apply bool_decide_eq_true in H2.
  - rewrite list_lookup_insert_ne by done.
    specialize (Hsets fs0 Hlt). unfold wfSet in Hsets.
    destruct (sets w !! fs0) as [s0|]; [| done].
    apply andb_true_iff in Hsets as [H1 H2]. apply andb_true_iff. split.
    + by apply Hkeep.
    + apply bool_decide_eq_true. apply Hstd. by apply bool_decide_eq_true in H2.
Qed.

Lemma wfWorld_setup (w w' : World) : setup w w' -> wfWorld w -> wfWorld w'.
Proof.
  induction 1 as [| w w1 w2 name eh fs _ IH H | w w1 w2 fs n sh v u r _ IH H];
    intros Hw; [done | |].
  - eapply wfWorld_NewFlagSet; [by apply IH | done].
  - eapply wfWorld_defineFlag; [by apply IH | done].
Qed.

(** Package initialisation returns, with the default set at [CommandLine],
    in a well-formed state; so every state reached from it by creating sets
    and defining flags is well formed. *)
Lemma init_wfWorld (prog : string) :
  exists w, init prog = Done w CommandLine /\ wfWorld w.
Proof.
  unfold init. rewrite NewFlagSet_Done. cbv zeta.
  eexists. split; [reflexivity |]. split_and!.
  - intros [|fs] Hlt; [reflexivity | simpl in Hlt; lia].
  - reflexivity.
  - apply heapClosed_iff. intros [|f] st id fl Hst Hid.
    + injection Hst as <-. simpl in Hid. by rewrite lookup_empty in Hid.
    + discriminate.
Qed.

(** X14. Every state that is reached from package initialisation by
    creating sets and defining flags (each call returning) is well formed:
    every set's descriptor slice fits its backing array, every set has its
    standard set, and every registered flag writes through an allocated
    variable. *)
Lemma reachable_wfWorld (prog : string) (w0 w : World) (fs : nat) :
  init prog = Done w0 fs -> setup w0 w -> wfWorld w.
Proof.
  intros Hinit Hsetup. destruct (init_wfWorld prog) as (w1 & H1 & Hwf).
  rewrite H1 in Hinit. injection Hinit as <- _. by eapply wfWorld_setup.
Qed.

Lemma noFlags_heapClosed (w : World) : noFlags w = true -> heapClosed w.
Proof.
  unfold noFlags, heapClosed. intros H. rewrite forallb_forall in H.
  apply Forall_forall. intros st Hst. apply list_elem_of_In in Hst.
  apply H, bool_decide_eq_true in Hst. rewrite Hst. apply map_Forall_empty.
Qed.

End Reachable.

(** ** Definition calls and set creation *)

Section Registration.

Context {E : Env}.

(** X6. A definition call whose name is not exactly one byte long appends
    the descriptor with the name as its long field and the shorthand (dropped
    when it equals the name) as its short field, with the hint taken from the
    usage text; for every default value and however the call ends. *)
Theorem longer_name_descriptor (w : World) (fs : nat) (name shorthand : string)
        (value : dyn) (usage : string) :
  String.length name <> 1 ->
  wfSet w fs = true ->
  exists w',
    finalWorld (defineFlag fs name shorthand value usage w) = Some w'
    /\ descriptors w' fs
       = (descriptors w fs
          ++ [mkFlagInfo name (if String.eqb name shorthand then "" else shorthand)
                         (extractUsageValue usage) usage])%list.
Proof.
  intros Hlen Hwf.
  destruct (defineFlag_descriptors fs name shorthand value usage w Hwf)
    as (w' & Hf & Hd).
  exists w'. split; [done |]. rewrite Hd. unfold descriptorOf.
  apply Nat.eqb_neq in Hlen. by rewrite Hlen.
Qed.


Lemma addBoth_keeps (st : flag_FlagSet) (name sh usage id : string) (p : nat)
      (fl : Flag) :
  f_formal st !! name = None -> (sh <> "" -> f_formal st !! sh = None) ->
  f_formal st !! id = Some fl ->
  f_formal (addBoth st name sh usage p) !! id = Some fl.
Proof.
  intros Hn Hsh Hid. unfold addBoth.
  assert (id <> name) by congruence.
  destruct (String.eqb sh "") eqn:He; simpl.
  - by rewrite lookup_insert_ne.
  - apply String.eqb_neq in He. specialize (Hsh He).
    assert (id <> sh) by congruence. by rewrite !lookup_insert_ne.
Qed.

(** X8. A definition call that returns leaves what was there: every
    variable keeps its content, every identifier registered in any set stays
    bound to the same flag, and the registry of sets is unchanged. *)
Theorem definition_keeps_existing_flags (w w' : World) (fs : nat)
        (name shorthand : string) (value : dyn) (usage : string) (r : option nat) :
  defineFlag fs name shorthand value usage w = Done w' r ->
  (forall q v, cells w !! q = Some v -> cells w' !! q = Some v)
  /\ (forall fs0 id fl, lookupFlag w fs0 id = Some fl -> lookupFlag w' fs0 id = Some fl)
  /\ flagSets w' = flagSets w
  /\ length (sets w') = length (sets w).
Proof.
  intros H. destruct value as [v| |].
  - apply defineFlag_Done in H. cbv zeta in H.
    destruct H as (s & st & a & sl & Hs & Hst & _ & Hn & Hsh & _ & ->).
    assert (fs < length (sets w)) by (by eapply lookup_lt_Some).
    assert (std s < length (stds w)) by (by eapply lookup_lt_Some).
    cbn [cells flagSets sets]. split_and!.
    + intros q v0 Hq. by apply lookup_app_l_Some.
    + intros fs0 id fl. unfold lookupFlag. cbn [sets stds].
      destruct (decide (fs0 = fs)) as [->|Hne].
      * rewrite list_lookup_insert_eq, Hs by done. cbn [std].
        rewrite list_lookup_insert_eq, Hst by done.
        intros Hid. apply addBoth_keeps; [done | | done].
        intros Hx. by destruct (Hsh Hx) as (_ & _ & ?).
      * rewrite list_lookup_insert_ne by done.
        destruct (sets w !! fs0) as [s0|]; [| done].
        destruct (decide (std s0 = std s)) as [->|Hne'].
        -- rewrite list_lookup_insert_eq, Hst by done.
           intros Hid. apply addBoth_keeps; [done | | done].
        intros Hx. by destruct (Hsh Hx) as (_ & _ & ?).
        -- by rewrite list_lookup_insert_ne.
    + done.
    + by rewrite length_insert.
  - unfold defineFlag, bind in H. by destruct (defineUsage _ _ _ _ _).
  - unfold defineFlag, bind in H.
    destruct (defineUsage_total fs name
                (if String.eqb name shorthand then "" else shorthand) usage w)
      as [(s & a & sl & Hs & _ & Hu)|[msg Hu]]; rewrite Hu in H; [| done].
    injection H as <- <-. cbn [cells flagSets sets]. split_and!; try done.
    + intros fs0 id fl. unfold lookupFlag. cbn [sets stds].
      destruct (decide (fs0 = fs)) as [->|Hne].
      * rewrite list_lookup_insert_eq, Hs by (by eapply lookup_lt_Some). done.
      * by rewrite list_lookup_insert_ne.
    + by rewrite length_insert.
Qed.


(** X10. A definition with a nil default returns nil on every well-formed
    set: no flag is registered and no variable allocated, yet the call
    appends its descriptor, so the flag is documented but cannot be parsed. *)
Theorem nil_default_defines_nothing (w : World) (fs : nat)
        (name shorthand usage : string) :
  wfSet w fs = true ->
  exists w',
    defineFlag fs name shorthand Nil usage w = Done w' None
    /\ stds w' = stds w /\ cells w' = cells w /\ flagSets w' = flagSets w
    /\ descriptors w' fs
       = (descriptors w fs
          ++ [descriptorOf name (if String.eqb name shorthand then "" else shorthand)
                           usage])%list.
Proof.
  intros Hwf.
  destruct (defineUsage_wf fs name (if String.eqb name shorthand then "" else shorthand)
              usage w Hwf) as (w1 & Hu & Hd & _ & Hstds & Hcells & Hfs & _).
  exists w1. split_and!; try done.
  unfold defineFlag, bind. by rewrite Hu.
Qed.

(** X11. A definition with a non-nil default whose name starts with a
    dash or contains an equals sign panics, and registers nothing. *)
Theorem invalid_name_panics (w : World) (fs : nat) (name shorthand : string)
        (value : dyn) (usage : string) :
  wfSet w fs = true -> value <> Nil -> validName name = false ->
  exists w' msg,
    defineFlag fs name shorthand value usage w = Panic w' msg
    /\ stds w' = stds w.
Proof.
  intros Hwf Hnil Hv.
  set (sh := if String.eqb name shorthand then "" else shorthand).
  destruct (defineUsage_wf fs name sh usage w Hwf)
    as (w1 & Hu & _ & Hwf1 & Hstds & _).
  destruct (wfSet_inv w1 fs Hwf1) as (s1 & st1 & Hs1 & Hst1).
  destruct value as [v| |]; [| | done].
  - rewrite defineFlag_Typed. cbv zeta. fold sh. unfold bind at 1. rewrite Hu.
    unfold bind, bindBoth, bind, newCell, loadSet. cbn [sets setCells].
    rewrite Hs1. unfold flag_Var.
    unfold validName in Hv. apply andb_false_iff in Hv.
    destruct (HasPrefix_dash name) eqn:H1.
    + eexists _, _. split; [reflexivity | done].
    + destruct Hv as [Hv|Hv]; [done |].
      apply negb_false_iff in Hv. rewrite Hv.
      eexists _, _. split; [reflexivity | done].
  - unfold defineFlag. fold sh. unfold bind. rewrite Hu.
    eexists _, _. split; [reflexivity | done].
Qed.

(** X12. [NewFlagSet] always returns a fresh set with no flag and no
    descriptor, leaves the flags of the older sets and all variables alone,
    and takes over the name: a later [parse] whose first of several tokens
    is that name goes to the new set, whatever set had the name before. *)
Theorem NewFlagSet_returns_empty_set (name : string) (errorHandling : ErrorHandling)
        (w : World) :
  exists w',
    NewFlagSet name errorHandling w = Done w' (length (sets w))
    /\ (forall id, lookupFlag w' (length (sets w)) id = None)
    /\ descriptors w' (length (sets w)) = []
    /\ (forall fs0 id, fs0 < length (sets w) ->
                       lookupFlag w' fs0 id = lookupFlag w fs0 id)
    /\ cells w' = cells w
    /\ (forall fs0 t tail,
          parse fs0 (name :: t :: tail) w'
          = FlagSet_Parse (length (sets w)) (t :: tail) w').
Proof.
  eexists. split; [apply NewFlagSet_Done |]. cbv zeta. split_and!.
  - intros id. unfold lookupFlag. cbn [sets stds].
    rewrite lookup_app_r, Nat.sub_diag by done. cbn [lookup list_lookup std].
    rewrite lookup_app_r, Nat.sub_diag by done. done.
  - unfold descriptors. cbn [sets].
    rewrite lookup_app_r, Nat.sub_diag by done. cbn [lookup list_lookup].
    unfold view, flagInfoSlice. cbn [flags len]. by destruct (_ !! _).
  - intros fs0 id Hlt. unfold lookupFlag. cbn [sets stds].
    rewrite lookup_app_l by done.
    destruct (sets w !! fs0) as [s0|]; [| done].
    destruct (stds w !! std s0) as [st|] eqn:Hst.
    + by rewrite (lookup_app_l_Some _ _ _ _ Hst).
    + apply lookup_ge_None in Hst.
      destruct (decide (std s0 = length (stds w))) as [->|Hne].
      * rewrite lookup_app_r, Nat.sub_diag by done. done.
      * rewrite lookup_ge_None_2; [done |]. rewrite length_app. simpl. lia.
  - done.
  - intros fs0 t tail. unfold parse. cbn [length Nat.ltb Nat.leb flagSets].
    rewrite lookup_insert_eq. unfold FlagSet_Parse, bind, loadSet. cbn [sets].
    rewrite lookup_app_r, Nat.sub_diag by done. done.
Qed.

(** X13. How a definition on one set shows in the descriptors of another
    well-formed set: they change exactly when both slices point into the
    same array, the defining set is the shorter one and still has spare
    capacity; then the new descriptor replaces the other set's entry at the
    defining set's length.  In every other case they are untouched. *)
Theorem definition_overwrites_shared_descriptor (w : World) (fs fs' : nat)
        (s s' : FlagSet) (name shorthand : string) (value : dyn) (usage : string) :
  wfSet w fs = true -> wfSet w fs' = true -> fs' <> fs ->
  sets w !! fs = Some s -> sets w !! fs' = Some s' ->
  exists w',
    finalWorld (defineFlag fs name shorthand value usage w) = Some w'
    /\ descriptors w' fs'
       = if (arr (flags s) =? arr (flags s'))%nat
            && (len (flags s) <? len (flags s'))%nat
            && (len (flags s) <? cap (flags s))%nat
         then <[len (flags s) :=
                  descriptorOf name (if String.eqb name shorthand then ""
                                     else shorthand) usage]> (descriptors w fs')
         else descriptors w fs'.
Proof.
  intros Hwf Hwf' Hne Hs Hs'.
  set (sh := if String.eqb name shorthand then "" else shorthand).
  set (d := descriptorOf name sh usage).
  assert (exists w1, defineUsage fs name sh usage w = Done w1 tt
            /\ descriptors w1 fs'
               = if (arr (flags s) =? arr (flags s'))%nat
                    && (len (flags s) <? len (flags s'))%nat
                    && (len (flags s) <? cap (flags s))%nat
                 then <[len (flags s) := d]> (descriptors w fs')
                 else descriptors w fs') as (w1 & Hu & Hd).
  { rewrite defineUsage_eq. unfold bind, loadSet. rewrite Hs.
    unfold wfSet in Hwf, Hwf'. rewrite Hs in Hwf. rewrite Hs' in Hwf'.
    apply andb_true_iff in Hwf as [Hsl _]. apply andb_true_iff in Hwf' as [Hsl' _].
    unfold wfSlice in Hsl, Hsl'.
    apply andb_true_iff in Hsl as [Hle Hfit]. apply andb_true_iff in Hsl' as [Hle' Hfit'].
    apply Nat.leb_le in Hle, Hle'.
    assert (fs < length (sets w)) by (by eapply lookup_lt_Some).
    fold d. unfold append.
    destruct (len (flags s) <? cap (flags s))%nat eqn:Hlt.
    - destruct (arrays w !! arr (flags s)) as [a|] eqn:Ha.
      2:{ apply Nat.eqb_eq in Hfit. apply Nat.ltb_lt in Hlt. lia. }
      unfold storeSet. cbn [sets setArrays]. rewrite Hs.
      eexists. split; [reflexivity |].
      unfold descriptors, view, setSets, setArrays. cbn [sets arrays].
      rewrite list_lookup_insert_ne, Hs' by done.
      rewrite andb_true_r.
      destruct (arr (flags s) =? arr (flags s'))%nat eqn:Harr.
      + apply Nat.eqb_eq in Harr. rewrite <- Harr.
        rewrite list_lookup_insert_eq by (by eapply lookup_lt_Some).
        rewrite Ha. cbn [andb].
        destruct (len (flags s) <? len (flags s'))%nat eqn:Hll.
        * apply Nat.ltb_lt in Hll. by rewrite take_insert_lt.
        * apply Nat.ltb_ge in Hll. by rewrite take_insert_ge.
      + apply Nat.eqb_neq in Harr. cbn [andb].
        by rewrite list_lookup_insert_ne.
    - unfold storeSet. cbn [sets setArrays]. rewrite Hs.
      eexists. split; [reflexivity |].
      rewrite andb_false_r.
      unfold descriptors, view, setSets, setArrays. cbn [sets arrays].
      rewrite list_lookup_insert_ne, Hs' by done.
      destruct (arrays w !! arr (flags s')) as [a'|] eqn:Ha'.
      + by rewrite (lookup_app_l_Some _ _ _ _ Ha').
      + apply Nat.eqb_eq in Hfit'.
        replace (len (flags s')) with 0 by lia.
        match goal with |- match ?x with _ => _ end = _ => by destruct x end. }
  destruct value as [v| |].
  - rewrite defineFlag_Typed. cbv zeta. fold sh. unfold bind at 1. rewrite Hu.
    destruct (bindBoth_descriptors fs fs' name sh v usage w1) as (w2 & Hf & Hd2).
    exists w2. rewrite Hd2, Hd. split; [| done].
    unfold bind. by destruct (bindBoth fs name sh v usage w1).
  - exists w1. unfold defineFlag. fold sh. unfold bind. by rewrite Hu.
  - exists w1. unfold defineFlag. fold sh. unfold bind. by rewrite Hu.
Qed.

End Registration.

(** ** Positional arguments: when [args] returns *)

Section Positionals.

Context {E : Env}.

Lemma Value_Elem_Kind_Bool_same (q : nat) (w : World) :
  q < length (cells w) -> exists b, Value_Elem_Kind_Bool q w = Done w b.
Proof.
  intros Hq. apply lookup_lt_is_Some_2 in Hq as [v Hv].
  unfold Value_Elem_Kind_Bool, bind, loadCell. rewrite Hv.
  destruct v; by eexists.
Qed.

(** One pass of the loop of [args]: it panics exactly when the preceding
    token is empty and the current one is neither empty nor a marker;
    otherwise the state is unchanged and the token is kept or dropped. *)
Lemma args_loop_pass (f : nat) (w : World) (st : flag_FlagSet)
      (all done rest : list string) (arg : string) (pArgs : list string) :
  stds w !! f = Some st -> heapClosed w -> all = (done ++ arg :: rest)%list ->
  (hasEmptyBeforePlain (option_list (last done) ++ [arg]) = true
   /\ args_loop f all (arg :: rest) (length done) pArgs w
      = Panic w "index out of range [0] with length 0")
  \/ (hasEmptyBeforePlain (option_list (last done) ++ [arg]) = false
      /\ exists keep : bool,
           args_loop f all (arg :: rest) (length done) pArgs w
           = args_loop f all rest (S (length done))
                       (if keep then pArgs ++ [arg] else pArgs)%list w
           /\ (keep = true -> byteIs arg 0 dash = false)
           /\ (Forall (fun t => byteIs t 0 dash = false) all -> keep = true)).
Proof.
  intros Hst Hheap Hall.
  destruct (decide (arg = "")) as [->|Hne].
  { right. split.
    - destruct (last done); simpl; [| done]. by rewrite andb_false_r.
    - exists true. by rewrite args_loop_empty. }
  destruct (byteIs arg 0 dash) eqn:Hd.
  { right. split.
    - destruct (last done); simpl; [| done]. rewrite Hd. simpl.
      by rewrite !andb_false_r.
    - exists false. rewrite args_loop_marker by done. split_and!; [done | done |].
      intros HF. subst all. apply Forall_app in HF as [_ HF].
      apply Forall_cons in HF as [HF _]. congruence. }
  destruct (decide (done = [])) as [->|Hdone].
  { right. split; [done |]. exists true. by rewrite args_loop_first. }
  destruct (exists_last Hdone) as (done' & prev & ->).
  rewrite last_snoc, length_app. cbn [length option_list app].
  replace (length done' + 1) with (S (length done')) by lia.
  assert (all !! length done' = Some prev) as Hprev.
  { subst all. rewrite <- app_assoc. cbn [app]. by apply list_lookup_middle. }
  apply String.eqb_neq in Hne as Hne'.
  change (option_list (Some prev) ++ [arg])%list with [prev; arg].
  cbn [hasEmptyBeforePlain]. rewrite Hne', Hd. cbn [negb]. rewrite !andb_true_r, orb_false_r.
  destruct (decide (prev = "")) as [->|Hp].
  { left. split; [done |]. by apply args_loop_after_empty. }
  apply String.eqb_neq in Hp as Hp'. rewrite Hp'.
  right. split; [done |].
  destruct (byteIs prev 0 dash) eqn:Hpd.
  - rewrite (args_loop_after_marker f all rest arg prev _ pArgs w
               (f_formal st !! ReplaceAll_dash_empty prev))
      by (done || by apply flag_Lookup_eq).
    assert (~ Forall (fun t => byteIs t 0 dash = false) all) as HnF.
    { intros HF. subst all. apply Forall_app in HF as [HF _].
      apply Forall_app in HF as [_ HF]. apply Forall_cons in HF as [HF _]. congruence. }
    destruct (f_formal st !! ReplaceAll_dash_empty prev) as [fl|] eqn:Hfl.
    + destruct (Value_Elem_Kind_Bool_same (flag_Value fl) w) as [b Hb].
      { by eapply heapClosed_lookup. }
      rewrite Hb. exists b. by destruct b.
    + by exists true.
  - exists true. by rewrite (args_loop_after_plain f all rest arg prev).
Qed.

Lemma hasEmptyBeforePlain_cons (a b : string) (l : list string) :
  hasEmptyBeforePlain (a :: b :: l)
  = hasEmptyBeforePlain [a; b] || hasEmptyBeforePlain (b :: l).
Proof. cbn [hasEmptyBeforePlain]. by rewrite orb_false_r. Qed.

Lemma hasEmptyBeforePlain_window (done : list string) (arg : string)
      (rest : list string) :
  hasEmptyBeforePlain (option_list (last done) ++ arg :: rest)
  = hasEmptyBeforePlain (option_list (last done) ++ [arg])
    || hasEmptyBeforePlain (option_list (last (done ++ [arg])) ++ rest).
Proof.
  rewrite last_snoc.
  destruct (last done) as [p|]; unfold option_list; cbn [option_rect app].
  - destruct rest as [|b rest]; [by rewrite orb_false_r |].
    rewrite hasEmptyBeforePlain_cons. done.
  - done.
Qed.

Lemma args_loop_returns (f : nat) (w : World) (st : flag_FlagSet)
      (all rest done pArgs : list string) :
  stds w !! f = Some st -> heapClosed w -> all = (done ++ rest)%list ->
  hasEmptyBeforePlain (option_list (last done) ++ rest) = false ->
  exists r,
    args_loop f all rest (length done) pArgs w = Done w (pArgs ++ r)%list
    /\ r `sublist_of` rest
    /\ Forall (fun t => byteIs t 0 dash = false) r
    /\ (Forall (fun t => byteIs t 0 dash = false) all -> r = rest).
Proof.
  intros Hst Hheap. revert done pArgs.
  induction rest as [|arg rest IH]; intros done pArgs Hall Hno.
  { exists []. rewrite app_nil_r. by split_and!. }
  rewrite hasEmptyBeforePlain_window in Hno. apply orb_false_iff in Hno as [Hno1 Hno2].
  destruct (args_loop_pass f w st all done rest arg pArgs Hst Hheap Hall)
    as [[Hbad _]|(_ & keep & Heq & Hkeep & Hid)]; [congruence |].
  destruct (IH (done ++ [arg])%list (if keep then pArgs ++ [arg] else pArgs)%list)
    as (r & Hr & Hsub & Hnd & Hid').
  { by rewrite <- app_assoc. }
  { done. }
  rewrite length_app in Hr. cbn [length] in Hr.
  replace (length done + 1) with (S (length done)) in Hr by lia.
  rewrite Heq, Hr. destruct keep.
  - exists (arg :: r). split_and!.
    + by rewrite <- app_assoc.
    + by apply sublist_skip.
    + apply Forall_cons. split; [by apply Hkeep | done].
    + intros HF. by rewrite (Hid' HF).
  - exists r. split_and!; [done | by apply sublist_cons | done |].
    intros HF. by specialize (Hid HF).
Qed.

Lemma args_loop_panics (f : nat) (w : World) (st : flag_FlagSet)
      (all rest done pArgs : list string) :
  stds w !! f = Some st -> heapClosed w -> all = (done ++ rest)%list ->
  hasEmptyBeforePlain (option_list (last done) ++ rest) = true ->
  args_loop f all rest (length done) pArgs w
  = Panic w "index out of range [0] with length 0".
Proof.
  intros Hst Hheap. revert done pArgs.
  induction rest as [|arg rest IH]; intros done pArgs Hall Hbad.
  { rewrite app_nil_r in Hbad. by destruct (last done). }
  rewrite hasEmptyBeforePlain_window in Hbad.
  destruct (args_loop_pass f w st all done rest arg pArgs Hst Hheap Hall)
    as [[_ Hp]|(Hno & keep & Heq & _)]; [done |].
  rewrite Hno in Hbad. cbn [orb] in Hbad.
  rewrite Heq.
  replace (S (length done)) with (length (done ++ [arg])%list)
    by (rewrite length_app; cbn [length]; lia).
  apply IH; [by rewrite <- app_assoc | done].
Qed.

(** X15. When no empty leftover token is directly followed by a token
    that is neither empty nor starts with a dash, [args] returns without
    changing the state; what it returns is a subsequence of the leftover
    tokens, none of which starts with a dash, and it is all of them when no
    leftover token starts with a dash. *)
Theorem args_returns_positionals (w : World) (fs : nat) (s : FlagSet)
        (st : flag_FlagSet) :
  sets w !! fs = Some s -> stds w !! std s = Some st -> heapClosed w ->
  hasEmptyBeforePlain (f_args st) = false ->
  exists r,
    args fs w = Done w r
    /\ r `sublist_of` f_args st
    /\ Forall (fun t => byteIs t 0 dash = false) r
    /\ (Forall (fun t => byteIs t 0 dash = false) (f_args st) -> r = f_args st).
Proof.
  intros Hs Hst Hheap Hno.
  unfold args, bind at 1, loadSet at 1. rewrite Hs.
  unfold bind at 1. unfold flag_Args, bind at 1, loadStd at 1. rewrite Hst.
  cbn [ret].
  destruct (args_loop_returns (std s) w st (f_args st) (f_args st) [] [] Hst Hheap)
    as (r & Hr & H); [done | done |].
  exists r. by split.
Qed.

(** X16. When some empty leftover token is directly followed by a token
    that is neither empty nor starts with a dash, [args] panics on the index
    expression [args[i-1][0]], for every set of registered flags. *)
Theorem args_panics_on_empty_before_plain (w : World) (fs : nat) (s : FlagSet)
        (st : flag_FlagSet) :
  sets w !! fs = Some s -> stds w !! std s = Some st -> heapClosed w ->
  hasEmptyBeforePlain (f_args st) = true ->
  args fs w = Panic w "index out of range [0] with length 0".
Proof.
  intros Hs Hst Hheap Hbad.
  unfold args, bind at 1, loadSet at 1. rewrite Hs.
  unfold bind at 1. unfold flag_Args, bind at 1, loadStd at 1. rewrite Hst.
  cbn [ret].
  by apply (args_loop_panics (std s) w st (f_args st) (f_args st) [] []).
Qed.

End Positionals.

(** ** Parsing a leading marker *)

Lemma validName_cons (n : string) :
  n <> "" -> validName n = true ->
  exists c n', n = String c n' /\ Ascii.eqb c dash = false
               /\ Ascii.eqb c equals = false /\ Contains_equals n' = false.
Proof.
  intros Hne Hv. destruct n as [|c n']; [done |].
  unfold validName in Hv. apply andb_true_iff in Hv as [H1 H2].
  apply negb_true_iff in H1, H2. cbn [HasPrefix_dash Contains_equals] in *.
  apply orb_false_iff in H2 as [H2 H3]. by exists c, n'.
Qed.

Lemma findEquals_none (r : string) (k : nat) :
  Contains_equals r = false -> findEquals r k = None.
Proof.
  revert k. induction r as [|c r IH]; intros k H; [done |].
  cbn [Contains_equals] in H. apply orb_false_iff in H as [H1 H2].
  cbn [findEquals]. rewrite H1. by apply IH.
Qed.

Lemma findEquals_app (r v : string) (k : nat) :
  Contains_equals r = false ->
  findEquals (r +:+ String equals v) k = Some (k + String.length r).
Proof.
  revert k. induction r as [|c r IH]; intros k H.
  - rewrite append_nil. cbn [findEquals String.length].
    rewrite Ascii.eqb_refl. f_equal. lia.
  - cbn [Contains_equals] in H. apply orb_false_iff in H as [H1 H2].
    rewrite append_cons. cbn [findEquals String.length]. rewrite H1.
    rewrite IH by done. f_equal. lia.
Qed.

Lemma sliceFrom_app (a b : string) : sliceFrom (a +:+ b) (String.length a) = b.
Proof.
  induction a as [|x a IH]; [by rewrite append_nil, sliceFrom_0 |].
  rewrite append_cons. cbn [String.length]. by rewrite sliceFrom_S.
Qed.

(** The shape of a marker [-n], [--n], [-n=v] or [--n=v] as [parseOne]
    reads it. *)
Lemma marker_shape (d n sfx : string) :
  d = "-" \/ d = "--" -> n <> "" -> validName n = true ->
  let s := d +:+ n +:+ sfx in
  (String.length s <? 2)%nat || negb (byteIs s 0 dash) = false
  /\ byteIs s 1 dash && (String.length s =? 2)%nat = false
  /\ sliceFrom s (if byteIs s 1 dash then 2 else 1) = n +:+ sfx
  /\ (String.length (n +:+ sfx) =? 0)%nat || byteIs (n +:+ sfx) 0 dash
     || byteIs (n +:+ sfx) 0 equals = false.
Proof.
  intros Hd Hne Hv. destruct (validName_cons n Hne Hv) as (c & n' & -> & H1 & H2 & H3).
  cbv zeta. destruct Hd as [-> | ->]; rewrite !append_cons, ?append_nil;
    unfold byteIs; cbn [String.get String.length Nat.ltb Nat.leb Nat.eqb];
    rewrite ?H1, ?H2; cbn [negb orb andb];
    rewrite ?sliceFrom_S, ?sliceFrom_0; done.
Qed.

Lemma name_split_inline (n v : string) :
  n <> "" -> validName n = true ->
  match findEquals (sliceFrom (n +:+ String equals v) 1) 1 with
  | Some i => (slice (n +:+ String equals v) 0 i,
               sliceFrom (n +:+ String equals v) (i + 1), true)
  | None => (n +:+ String equals v, "", false)
  end = (n, v, true).
Proof.
  intros Hne Hv. destruct (validName_cons n Hne Hv) as (c & n' & Hn & H1 & H2 & H3).
  assert (findEquals (sliceFrom (n +:+ String equals v) 1) 1 = Some (String.length n))
    as ->.
  { subst n. rewrite append_cons, sliceFrom_S, sliceFrom_0.
    by rewrite findEquals_app. }
  f_equal. f_equal.
  - unfold slice. rewrite Nat.sub_0_r. apply substring_0_length.
  - rewrite append_snoc. rewrite <- length_snoc with (x := equals).
    apply sliceFrom_app.
Qed.

Lemma name_split_bare (n : string) :
  n <> "" -> validName n = true ->
  match findEquals (sliceFrom n 1) 1 with
  | Some i => (slice n 0 i, sliceFrom n (i + 1), true)
  | None => (n, "", false)
  end = (n, "", false).
Proof.
  intros Hne Hv. destruct (validName_cons n Hne Hv) as (c & n' & -> & H1 & H2 & H3).
  by rewrite sliceFrom_S, sliceFrom_0, findEquals_none.
Qed.

Section Parsing.

Context {E : Env}.

Lemma withStd_again (w : World) (f : nat) (st st' : flag_FlagSet) :
  withStd (withStd w f st) f st' = withStd w f st'.
Proof.
  unfold withStd, setStds. cbn [stds flagSets arrays sets cells].
  by rewrite list_insert_insert_eq.
Qed.

Lemma withStd_lookup (w : World) (f : nat) (st0 st : flag_FlagSet) :
  stds w !! f = Some st0 -> stds (withStd w f st) !! f = Some st.
Proof.
  intros H. unfold withStd. cbn [stds setStds].
  apply list_lookup_insert_eq. by eapply lookup_lt_Some.
Qed.

Lemma flag_Parse_eq (f : nat) (a : list string) (w : World) (st : flag_FlagSet) :
  stds w !! f = Some st ->
  flag_Parse f a w = flag_Parse_loop (S (length a)) f (withStd w f (parsedWith st a)).
Proof.
  intros Hst. unfold flag_Parse, bind. rewrite (setParsed_eq f w st Hst).
  erewrite setArgs_eq by (by eapply (withStd_lookup w f st)).
  cbn [f_name f_parsed f_actual f_formal f_args f_errorHandling f_output].
  fold (withStd w f (mkStd (f_name st) true (f_actual st) (f_formal st) (f_args st)
                           (f_errorHandling st) (f_output st))).
  match goal with |- context [setStds ?w0 (<[f := ?s]> (stds ?w0))] =>
    fold (withStd w0 f s) end.
  by rewrite withStd_again.
Qed.

(** What [parseOne] does with a leading marker of the identifier [n]: the
    marker is consumed, then the flag is looked up. *)
Lemma parseOne_marker (f : nat) (w : World) (st : flag_FlagSet)
      (d n sfx value : string) (hasValue : bool) (rest : list string) :
  stds w !! f = Some st -> f_args st = (d +:+ n +:+ sfx) :: rest ->
  d = "-" \/ d = "--" -> n <> "" -> validName n = true ->
  (sfx = "" /\ value = "" /\ hasValue = false)
  \/ (sfx = String equals value /\ hasValue = true) ->
  let st1 := mkStd (f_name st) (f_parsed st) (f_actual st) (f_formal st) rest
                   (f_errorHandling st) (f_output st) in
  flag_parseOne f w
  = match f_formal st !! n with
    | None =>
        if String.eqb n "help" || String.eqb n "h"
        then ret (false, Some ErrHelp)
        else ret (false, Some (ErrNotDefined n))
    | Some flag =>
        isBool <- Value_IsBoolFlag (flag_Value flag) ;;
        if isBool then
          ok <- Value_Set (flag_Value flag) (if hasValue then value else "true") ;;
          if ok then setActual f n flag ;;; ret (true, None)
          else ret (false, Some (ErrInvalidBool (if hasValue then value else "true") n))
        else
          match hasValue, rest with
          | false, [] => ret (false, Some (ErrNeedsArgument n))
          | false, value :: rest' =>
              setArgs f rest' ;;;
              ok <- Value_Set (flag_Value flag) value ;;
              if ok then setActual f n flag ;;; ret (true, None)
              else ret (false, Some (ErrInvalidValue value n))
          | true, _ =>
              ok <- Value_Set (flag_Value flag) value ;;
              if ok then setActual f n flag ;;; ret (true, None)
              else ret (false, Some (ErrInvalidValue value n))
          end
    end (withStd w f st1).
Proof.
  intros Hst Hargs Hd Hne Hv Hsfx. cbv zeta.
  destruct (marker_shape d n sfx Hd Hne Hv) as (H1 & H2 & H3 & H4).
  unfold flag_parseOne. unfold bind at 1. unfold loadStd at 1. rewrite Hst, Hargs.
  rewrite H1, H2, H3, H4.
  unfold bind at 1. rewrite (setArgs_eq f w st rest Hst).
  fold (withStd w f (mkStd (f_name st) (f_parsed st) (f_actual st) (f_formal st) rest
                           (f_errorHandling st) (f_output st))).
  assert (match findEquals (sliceFrom (n +:+ sfx) 1) 1 with
          | Some i => (slice (n +:+ sfx) 0 i, sliceFrom (n +:+ sfx) (i + 1), true)
          | None => (n +:+ sfx, "", false)
          end = (n, value, hasValue)) as ->.
  { destruct Hsfx as [(-> & -> & ->)|(-> & ->)].
    - rewrite append_empty_r. by apply name_split_bare.
    - by apply name_split_inline. }
  unfold bind at 1. unfold loadStd at 1.
  rewrite (withStd_lookup w f st _ Hst). cbn [f_formal f_args]. reflexivity.
Qed.

(** More fuel than there are arguments left changes nothing. *)
Lemma Parse_loop_fuel (p fuel f : nat) (w : World) :
  length (argsOf w f) < fuel -> boundOnly w p [] ->
  flag_Parse_loop fuel f w = flag_Parse_loop (S fuel) f w.
Proof.
  revert w. induction fuel as [|fuel IH]; intros w Hlen Hb; [lia |].
  change (flag_Parse_loop (S (S fuel)) f w)
    with ((r <- flag_parseOne f ;;
           let '(seen, err) := r in
           if seen then flag_Parse_loop (S fuel) f
           else
             match err with
             | None => ret None
             | Some e =>
                 fs <- loadStd f ;;
                 match f_errorHandling fs with
                 | ContinueOnError => ret (Some e)
                 | ExitOnError =>
                     match e with
                     | ErrHelp => os_Exit 0
                     | _ => os_Exit 2
                     end
                 | PanicOnError => panic "flag: parse error"
                 end
             end) w).
  cbn [flag_Parse_loop]. unfold bind at 1 3.
  pose proof (parseOne_step p [] f w Hb) as Hstep.
  destruct (flag_parseOne f w) as [w1 [seen err]| | |]; try done.
  destruct seen; [| done].
  destruct Hstep as [Hs Hdec]; [by apply Forall_true |].
  cbn [fst] in Hdec. specialize (Hdec eq_refl).
  apply IH; [lia | by eapply boundOnly_step].
Qed.

Lemma Parse_loop_S (fuel f : nat) :
  flag_Parse_loop (S fuel) f
  = (r <- flag_parseOne f ;;
     let '(seen, err) := r in
     if seen then flag_Parse_loop fuel f
     else
       match err with
       | None => ret None
       | Some e =>
           fs <- loadStd f ;;
           match f_errorHandling fs with
           | ContinueOnError => ret (Some e)
           | ExitOnError =>
               match e with
               | ErrHelp => os_Exit 0
               | _ => os_Exit 2
               end
           | PanicOnError => panic "flag: parse error"
           end
       end).
Proof. reflexivity. Qed.

Lemma parseOne_nonflag (f : nat) (w : World) (st : flag_FlagSet) (x : string)
      (rest : list string) :
  stds w !! f = Some st -> f_args st = x :: rest -> nonFlag x = true ->
  flag_parseOne f w = Done w (false, None).
Proof.
  intros Hst Ha Hx. unfold flag_parseOne, bind, loadStd. rewrite Hst, Ha.
  unfold nonFlag in Hx. by rewrite Hx.
Qed.

Lemma parseOne_no_arguments (f : nat) (w : World) (st : flag_FlagSet) :
  stds w !! f = Some st -> f_args st = [] ->
  flag_parseOne f w = Done w (false, None).
Proof.
  intros Hst Ha. unfold flag_parseOne, bind, loadStd. by rewrite Hst, Ha.
Qed.

Lemma setActual_eq (f : nat) (w : World) (st : flag_FlagSet) (n : string) (fl : Flag) :
  stds w !! f = Some st ->
  setActual f n fl w
  = Done (withStd w f (mkStd (f_name st) (f_parsed st) (<[n := fl]> (f_actual st))
                             (f_formal st) (f_args st) (f_errorHandling st)
                             (f_output st))) tt.
Proof. intros H. unfold setActual, bind, loadStd, storeStd. by rewrite H, H. Qed.

(** X17. When the first token is not a flag (shorter than two bytes or
    not starting with a dash) parsing returns nil at once: no variable is
    written, even if later tokens are markers of registered flags, and all
    tokens are left over. *)
Theorem parsing_stops_at_first_positional (w : World) (fs : nat) (s : FlagSet)
        (st : flag_FlagSet) (a0 : string) (tail : list string) :
  sets w !! fs = Some s -> stds w !! std s = Some st -> nonFlag a0 = true ->
  exists w',
    FlagSet_Parse fs (a0 :: tail) w = Done w' None
    /\ cells w' = cells w
    /\ argsOf w' (std s) = a0 :: tail
    /\ (forall id, lookupFlag w' fs id = lookupFlag w fs id).
Proof.
  intros Hs Hst Ha0.
  exists (withStd w (std s) (parsedWith st (a0 :: tail))).
  split_and!.
  - unfold FlagSet_Parse, bind, loadSet. rewrite Hs.
    rewrite (flag_Parse_eq _ _ w st Hst), Parse_loop_S. unfold bind.
    by rewrite (parseOne_nonflag _ _ (parsedWith st (a0 :: tail)) a0 tail
                  (withStd_lookup w _ st _ Hst) eq_refl Ha0).
  - done.
  - unfold argsOf. by rewrite (withStd_lookup w _ st _ Hst).
  - intros id. unfold lookupFlag. cbn [sets withStd setStds]. rewrite Hs.
    by rewrite (withStd_lookup w _ st _ Hst), Hst.
Qed.


Lemma parse_bool_marker (w : World) (f : nat) (st : flag_FlagSet)
      (d n : string) (fl : Flag) (b0 : bool) (x : string) (rest : list string) :
  stds w !! f = Some st ->
  d = "-" \/ d = "--" -> n <> "" -> validName n = true ->
  f_formal st !! n = Some fl -> cells w !! flag_Value fl = Some (VBool b0) ->
  nonFlag x = true ->
  flag_Parse f ((d +:+ n) :: x :: rest) w
  = Done (setCells
            (withStd w f (mkStd (f_name st) true (<[n := fl]> (f_actual st))
                                (f_formal st) (x :: rest) (f_errorHandling st)
                                (f_output st)))
            (<[flag_Value fl := VBool true]> (cells w))) None.
Proof.
  intros Hst Hd Hne Hv Hfl Hc Hx.
  rewrite (flag_Parse_eq _ _ w st Hst), Parse_loop_S. unfold bind at 1.
  pose proof (fun H =>
              parseOne_marker f (withStd w f (parsedWith st ((d +:+ n) :: x :: rest)))
                (parsedWith st ((d +:+ n) :: x :: rest))
                d n "" "" false (x :: rest)
                (withStd_lookup w _ st _ Hst) H Hd Hne Hv
                (or_introl (conj eq_refl (conj eq_refl eq_refl)))) as Hbare.
  rewrite append_empty_r in Hbare. rewrite (Hbare eq_refl). clear Hbare.
  cbn [parsedWith f_name f_parsed f_actual f_formal f_args f_errorHandling f_output].
  rewrite withStd_again, Hfl.
  set (w1 := withStd w f _).
  assert (cells w1 = cells w) as Hc1 by done.
  assert (stds w1 !! f = Some (mkStd (f_name st) true (f_actual st) (f_formal st)
                                     (x :: rest) (f_errorHandling st) (f_output st)))
    as Hst1 by (by apply (withStd_lookup w f st)).
  unfold bind at 1. unfold Value_IsBoolFlag, bind at 1, loadCell at 1.
  rewrite Hc1, Hc. cbn [ret].
  unfold bind at 1. unfold Value_Set, bind at 1, loadCell at 1. rewrite Hc1, Hc.
  change (ParseBool "true") with (true, true).
  unfold bind at 1. unfold storeCell. rewrite Hc1, Hc. cbn [ret].
  unfold bind at 1.
  erewrite setActual_eq by (cbn [stds setCells]; exact Hst1).
  cbn [ret f_name f_parsed f_actual f_formal f_args f_errorHandling f_output length].
  rewrite Parse_loop_S. unfold bind at 1.
  match goal with |- context [flag_parseOne f ?w0] => set (w3 := w0) end.
  assert (stds w3 !! f
          = Some (mkStd (f_name st) true (<[n := fl]> (f_actual st)) (f_formal st)
                        (x :: rest) (f_errorHandling st) (f_output st))) as Hst3.
  { unfold w3. cbn [stds setCells withStd setStds]. apply list_lookup_insert_eq.
    unfold w1. cbn [stds withStd setStds]. rewrite length_insert.
    by eapply lookup_lt_Some. }
  rewrite (parseOne_nonflag f w3 _ x rest Hst3 eq_refl Hx).
  unfold w3. cbn [ret]. f_equal.
  unfold w1, withStd, setStds, setCells. cbn [stds flagSets arrays sets cells].
  by rewrite list_insert_insert_eq.
Qed.

(** X19. The bare marker of a boolean flag sets it to true and does not
    take the next token as its value: a non-flag token after it stays in the
    leftover arguments. *)
Theorem bool_marker_leaves_next_token (w : World) (fs : nat) (s : FlagSet)
        (st : flag_FlagSet) (d n : string) (fl : Flag) (b0 : bool) (x : string)
        (rest : list string) :
  sets w !! fs = Some s -> stds w !! std s = Some st ->
  d = "-" \/ d = "--" -> n <> "" -> validName n = true ->
  f_formal st !! n = Some fl -> cells w !! flag_Value fl = Some (VBool b0) ->
  nonFlag x = true ->
  exists w',
    FlagSet_Parse fs ((d +:+ n) :: x :: rest) w = Done w' None
    /\ cells w' = <[flag_Value fl := VBool true]> (cells w)
    /\ argsOf w' (std s) = x :: rest.
Proof.
  intros Hs Hst Hd Hne Hv Hfl Hc Hx.
  eexists. split_and!.
  - unfold FlagSet_Parse, bind, loadSet. rewrite Hs.
    by apply (parse_bool_marker w (std s) st d n fl b0 x rest).
  - done.
  - unfold argsOf. cbn [stds setCells]. by rewrite (withStd_lookup w _ st _ Hst).
Qed.

(** X20. For a flag that is not boolean, giving the value inline
    ([-name=value]) and giving it as the next token ([-name value]) are the
    same: the two parses end in the same result and the same state, whatever
    tokens follow. *)
Theorem inline_value_equals_separate_value (w : World) (fs : nat) (s : FlagSet)
        (st : flag_FlagSet) (d n v : string) (fl : Flag) (rest : list string) :
  sets w !! fs = Some s -> stds w !! std s = Some st -> heapClosed w ->
  d = "-" \/ d = "--" -> n <> "" -> validName n = true ->
  f_formal st !! n = Some fl ->
  Value_IsBoolFlag (flag_Value fl) w = Done w false ->
  FlagSet_Parse fs ((d +:+ n +:+ String equals v) :: rest) w
  = FlagSet_Parse fs ((d +:+ n) :: v :: rest) w.
Proof.
  intros Hs Hst Hheap Hd Hne Hv Hfl Hnb.
  unfold FlagSet_Parse, bind, loadSet. rewrite Hs.
  set (f := std s) in *.
  rewrite !(flag_Parse_eq f _ w st Hst).
  set (tail := fun (fuel : nat) (r : bool * option Error) =>
        let '(seen, err) := r in
        if seen then flag_Parse_loop fuel f
        else
          match err with
          | None => ret None
          | Some e =>
              fs <- loadStd f ;;
              match f_errorHandling fs with
              | ContinueOnError => ret (Some e)
              | ExitOnError =>
                  match e with
                  | ErrHelp => os_Exit 0
                  | _ => os_Exit 2
                  end
              | PanicOnError => panic "flag: parse error"
              end
          end).
  change (flag_Parse_loop (S (length ((d +:+ n +:+ String equals v) :: rest))) f)
    with (bind (flag_parseOne f) (tail (S (length rest)))).
  change (flag_Parse_loop (S (length ((d +:+ n) :: v :: rest))) f)
    with (bind (flag_parseOne f) (tail (S (S (length rest))))).
  unfold bind at 1 2.
  rewrite (parseOne_marker f _ (parsedWith st ((d +:+ n +:+ String equals v) :: rest))
             d n (String equals v) v true rest
             (withStd_lookup w f st _ Hst) eq_refl Hd Hne Hv
             (or_intror (conj eq_refl eq_refl))).
  pose proof (fun H =>
              parseOne_marker f (withStd w f (parsedWith st ((d +:+ n) :: v :: rest)))
                (parsedWith st ((d +:+ n) :: v :: rest))
                d n "" "" false (v :: rest)
                (withStd_lookup w f st _ Hst) H Hd Hne Hv
                (or_introl (conj eq_refl (conj eq_refl eq_refl)))) as Hbare.
  rewrite append_empty_r in Hbare. rewrite (Hbare eq_refl).
  clear Hbare.
  cbn [parsedWith f_name f_parsed f_actual f_formal f_args f_errorHandling f_output].
  rewrite !withStd_again, Hfl.
  fold (parsedWith st rest). fold (parsedWith st (v :: rest)).
  assert (forall a, Value_IsBoolFlag (flag_Value fl) (withStd w f (parsedWith st a))
                    = Done (withStd w f (parsedWith st a)) false) as Hnb'.
  { intros a. unfold Value_IsBoolFlag, bind, loadCell in *.
    cbn [cells withStd setStds]. destruct (cells w !! flag_Value fl) as [c|]; [| done].
    unfold ret in *. destruct c; try done.
    injection Hnb as Hnb. by rewrite Hnb. }
  unfold bind at 1. rewrite Hnb'.
  unfold bind at 3. rewrite Hnb'.
  unfold bind at 3.
  erewrite setArgs_eq by (by eapply (withStd_lookup w f st)).
  cbn [parsedWith f_name f_parsed f_actual f_formal f_args f_errorHandling f_output].
  fold (parsedWith st rest).
  match goal with |- context [setStds ?w0 (<[f := ?s0]> (stds ?w0))] =>
    fold (withStd w0 f s0) end.
  rewrite withStd_again.
  set (w2 := withStd w f (parsedWith st rest)).
  pose proof (parseOne_set_step (length (cells w)) f (flag_Value fl) v n fl
                (ErrInvalidValue v n) w2) as Hstep.
  assert (flag_Value fl <> length (cells w)) as Hq.
  { pose proof (heapClosed_lookup w f st n fl Hheap Hst Hfl). lia. }
  specialize (Hstep Hq).
  destruct ((ok <- Value_Set (flag_Value fl) v ;;
             if ok then setActual f n fl ;;; ret (true, None)
             else ret (false, Some (ErrInvalidValue v n))) w2)
    as [w3 [seen err]| | |]; try done.
  unfold tail. destruct seen; [| done].
  cbn [outcome] in Hstep.
  assert (argsOf w2 f = rest) as Hargs2.
  { unfold argsOf, w2. by rewrite (withStd_lookup w f st _ Hst). }
  assert (boundOnly w2 (length (cells w)) []) as Hb2.
  { intros g st' id fl' Hst' Hid Hval.
    unfold w2, withStd in Hst'. cbn [stds setStds] in Hst'.
    destruct (decide (g = f)) as [->|Hg].
    - rewrite list_lookup_insert_eq in Hst' by (by eapply lookup_lt_Some).
      injection Hst' as <-. cbn [parsedWith f_formal] in Hid.
      pose proof (heapClosed_lookup w f st id fl' Hheap Hst Hid). lia.
    - rewrite list_lookup_insert_ne in Hst' by done.
      pose proof (heapClosed_lookup w g st' id fl' Hheap Hst' Hid). lia. }
  apply (Parse_loop_fuel (length (cells w))).
  - destruct Hstep as (_ & _ & _ & Hsuf). apply suffix_length in Hsuf.
    rewrite Hargs2 in Hsuf. lia.
  - by eapply boundOnly_step.
Qed.

Lemma parse_inline_string (w : World) (f : nat) (st : flag_FlagSet)
      (d n v old : string) (fl : Flag) :
  stds w !! f = Some st ->
  d = "-" \/ d = "--" -> n <> "" -> validName n = true ->
  f_formal st !! n = Some fl -> cells w !! flag_Value fl = Some (VString old) ->
  flag_Parse f [d +:+ n +:+ String equals v] w
  = Done (setCells
            (withStd w f (mkStd (f_name st) true (<[n := fl]> (f_actual st))
                                (f_formal st) [] (f_errorHandling st)
                                (f_output st)))
            (<[flag_Value fl := VString v]> (cells w))) None.
Proof.
  intros Hst Hd Hne Hv Hfl Hc.
  rewrite (flag_Parse_eq _ _ w st Hst), Parse_loop_S. unfold bind at 1.
  rewrite (parseOne_marker f _ (parsedWith st [d +:+ n +:+ String equals v])
             d n (String equals v) v true []
             (withStd_lookup w f st _ Hst) eq_refl Hd Hne Hv
             (or_intror (conj eq_refl eq_refl))).
  cbn [parsedWith f_name f_parsed f_actual f_formal f_args f_errorHandling f_output].
  rewrite withStd_again, Hfl.
  set (w1 := withStd w f _).
  assert (cells w1 = cells w) as Hc1 by done.
  assert (stds w1 !! f = Some (mkStd (f_name st) true (f_actual st) (f_formal st)
                                     [] (f_errorHandling st) (f_output st)))
    as Hst1 by (by apply (withStd_lookup w f st)).
  unfold bind at 1. unfold Value_IsBoolFlag, bind at 1, loadCell at 1.
  rewrite Hc1, Hc. cbn [ret].
  unfold bind at 1. unfold Value_Set, bind at 1, loadCell at 1. rewrite Hc1, Hc.
  unfold bind at 1. unfold storeCell. rewrite Hc1, Hc. cbn [ret].
  unfold bind at 1.
  erewrite setActual_eq by (cbn [stds setCells]; exact Hst1).
  cbn [ret f_name f_parsed f_actual f_formal f_args f_errorHandling f_output length].
  rewrite Parse_loop_S. unfold bind at 1.
  match goal with |- context [flag_parseOne f ?w0] => set (w3 := w0) end.
  assert (stds w3 !! f
          = Some (mkStd (f_name st) true (<[n := fl]> (f_actual st)) (f_formal st)
                        [] (f_errorHandling st) (f_output st))) as Hst3.
  { unfold w3. cbn [stds setCells withStd setStds]. apply list_lookup_insert_eq.
    unfold w1. cbn [stds withStd setStds]. rewrite length_insert.
    by eapply lookup_lt_Some. }
  rewrite (parseOne_no_arguments f w3 _ Hst3 eq_refl).
  unfold w3. cbn [ret]. f_equal.
  unfold w1, withStd, setStds, setCells. cbn [stds flagSets arrays sets cells].
  by rewrite list_insert_insert_eq.
Qed.

(** X21. Round trip of a text flag: after a definition that returned the
    pointer [p], parsing the marker of the name or of the shorthand with an
    inline value returns nil and leaves that value in [p], where a read
    through either identifier finds it. *)
Theorem defined_string_flag_receives_value (w w1 : World) (fs : nat)
        (name shorthand usage dflt : string) (p : nat) (d id v : string) :
  defineFlag fs name shorthand (Typed (VString dflt)) usage w = Done w1 (Some p) ->
  defines name shorthand id -> id <> "" ->
  d = "-" \/ d = "--" ->
  exists w2,
    FlagSet_Parse fs [d +:+ id +:+ String equals v] w1 = Done w2 None
    /\ cells w2 !! p = Some (VString v)
    /\ (forall id', defines name shorthand id' ->
                    readThrough w2 fs id' = Some (VString v)).
Proof.
  intros Hdef Hid Hne Hd.
  assert (forall id', defines name shorthand id' ->
            exists fl, lookupFlag w1 fs id' = Some fl /\ flag_Value fl = p
                       /\ validName id' = true) as Hreg.
  { intros id' Hid'. apply defineFlag_Done in Hdef. cbv zeta in Hdef.
    apply defines_normalised in Hid'. cbv zeta in Hid'.
    destruct Hdef as (s & st & a & sl & Hs & Hst & Hvn & _ & Hsh & [= <-] & ->).
    assert (fs < length (sets w)) by (by eapply lookup_lt_Some).
    assert (std s < length (stds w)) by (by eapply lookup_lt_Some).
    unfold lookupFlag. cbn [sets stds std].
    rewrite list_lookup_insert_eq by done. cbn [std].
    rewrite list_lookup_insert_eq by done.
    destruct Hid' as [->|(Hne1 & Hne2 & ->)].
    - destruct (decide ((if String.eqb name shorthand then "" else shorthand) = name))
        as [Heq|Hneq].
      + unfold addBoth. destruct (String.eqb _ ""); simpl.
        * rewrite lookup_insert_eq. by eexists.
        * rewrite Heq, lookup_insert_eq. by eexists.
      + rewrite addBoth_lookup_name by done. by eexists.
    - rewrite addBoth_lookup_shorthand by done.
      destruct (Hsh Hne1) as (? & _). by eexists. }
  destruct (Hreg id Hid) as (fl & Hfl & Hp & Hv).
  pose proof Hdef as Hdef'. apply defineFlag_Done in Hdef'. cbv zeta in Hdef'.
  destruct Hdef' as (s & st & a & sl & Hs & Hst & _ & _ & _ & [= Hpeq] & Hw1).
  assert (cells w1 !! p = Some (VString dflt)) as Hcell.
  { rewrite Hw1, Hpeq. cbn [cells]. by rewrite lookup_app_r, Nat.sub_diag. }
  unfold lookupFlag in Hfl.
  destruct (sets w1 !! fs) as [s1|] eqn:Hs1; [| done].
  destruct (stds w1 !! std s1) as [st1|] eqn:Hst1; [| done].
  eexists. split_and!.
  - unfold FlagSet_Parse, bind, loadSet. rewrite Hs1.
    apply (parse_inline_string w1 (std s1) st1 d id v dflt fl); try done.
    by rewrite Hp.
  - cbn [cells setCells]. rewrite Hp. apply list_lookup_insert_eq.
    by eapply lookup_lt_Some.
  - intros id' Hid'. destruct (Hreg id' Hid') as (fl' & Hfl' & Hp' & _).
    unfold readThrough, lookupFlag in *. cbn [sets stds cells setCells withStd setStds].
    rewrite Hs1 in *. rewrite Hst1 in Hfl'.
    rewrite list_lookup_insert_eq by (by eapply lookup_lt_Some).
    cbn [f_formal]. rewrite Hfl', Hp', Hp. apply list_lookup_insert_eq.
    by eapply lookup_lt_Some.
Qed.

End Parsing.

(** ** Closed instances *)

Section Examples.
Local Existing Instance runEnv.

Lemma extractUsageValue_between_witness :
  extractUsageValue "Adjust with `bool` value" = "bool"
  /\ extractUsageValue "one ` only" = "".
Proof.
  split.
  - apply (proj1 (extractUsageValue_between "Adjust with `bool` value")
             "Adjust with " "bool" " value"); reflexivity.
  - apply (proj2 (extractUsageValue_between "one ` only")). simpl. lia.
Defined.

Lemma one_char_name_descriptor_witness :
  String.length "n" = 1 /\ wfSet testWorld 1 = true
  /\ exists w' d,
       finalWorld (defineFlag 1 "n" "x" (Typed (VInt 1234))
                              "help message for flag n" testWorld) = Some w'
       /\ descriptors w' 1 = (descriptors testWorld 1 ++ [d])%list
       /\ Shorthand d = "n" /\ Longhand d = ""
       /\ d = mkFlagInfo "" "n" (extractUsageValue "help message for flag n")
                         "help message for flag n".
Proof.
  split; [reflexivity |]. split; [reflexivity |].
  apply (one_char_name_descriptor testWorld 1 "n" "x" (Typed (VInt 1234))
           "help message for flag n"); reflexivity.
Defined.

(** The descriptor is what the one-character rule changes: in the flag set
    itself the name and a shorthand passed alongside are both registered. *)
Example one_char_name_bindings :
  let w := worldOf (defineFlag 1 "n" "x" (Typed (VInt 1234))
                               "help message for flag n" testWorld) in
  descriptors w 1 = [mkFlagInfo "" "n" "" "help message for flag n"]
  /\ lookupFlag w 1 "n" = Some (mkFlag "n" "help message for flag n" 0)
  /\ lookupFlag w 1 "x" = Some (mkFlag "x" "help message for flag n" 0).
Proof. repeat split; reflexivity. Qed.

Lemma duplicate_identifier_panics_witness :
  defines "verbose" "v" "v" /\ defines "v" "" "v"
  /\ exists w' msg,
       (defineFlag 1 "verbose" "v" (Typed (VBool false)) "be loud" ;;;
        defineFlag 1 "v" "" (Typed (VInt 0)) "version") testWorld = Panic w' msg.
Proof.
  assert (defines "verbose" "v" "v") as H1 by (right; split; [discriminate | reflexivity]).
  assert (defines "v" "" "v") as H2 by (left; reflexivity).
  split; [exact H1 |]. split; [exact H2 |].
  apply (duplicate_identifier_panics testWorld 1 "verbose" "v" "be loud" "v" ""
           "version" "v" (Typed (VBool false)) (Typed (VInt 0)));
    [discriminate | discriminate | exact H1 | exact H2].
Defined.


Lemma unmentioned_flag_keeps_default_witness :
  heapClosed testWorld
  /\ mentions ["--bool"; "arg0"] "string" = false
  /\ mentions ["--bool"; "arg0"] "s" = false
  /\ exists w3, finalWorld (parse 1 ["--bool"; "arg0"] stringBoolWorld) = Some w3
                /\ cells w3 !! 0 = Some (VString "dflt").
Proof.
  assert (heapClosed testWorld) as Hc by (apply noFlags_heapClosed; reflexivity).
  split; [exact Hc |]. split; [reflexivity |]. split; [reflexivity |].
  apply (unmentioned_flag_keeps_default testWorld stringWorld stringBoolWorld 1 1
           "string" "s" "Test string flag" (VString "dflt") 0 ["--bool"; "arg0"]);
    [exact Hc | reflexivity | | reflexivity | reflexivity].
  apply (setup_defineFlag stringWorld stringWorld stringBoolWorld 1 "bool" "b"
           (Typed (VBool false)) "bool flag" (Some 1));
    [apply setup_done | reflexivity].
Defined.

Lemma parse_dispatches_witness :
  1 < length ["sub"; "-x"]
  /\ flagSets subWorld !! "sub" = Some (mkFlagSet 1 flagInfoSlice)
  /\ parse CommandLine ["sub"; "-x"] subWorld = flag_Parse 1 ["-x"] subWorld
  /\ parse CommandLine ["sub"; "-x"] subWorld = FlagSet_Parse 1 ["-x"] subWorld
  /\ parse CommandLine ["-x"] subWorld = FlagSet_Parse CommandLine ["-x"] subWorld.
Proof.
  assert (1 < length ["sub"; "-x"]) as Hlen by (simpl; lia).
  assert (flagSets subWorld !! "sub" = Some (mkFlagSet 1 flagInfoSlice)) as Hsub
    by reflexivity.
  split; [exact Hlen |]. split; [exact Hsub |].
  destruct (proj1 (parse_dispatches subWorld CommandLine ["sub"; "-x"])
              "sub" ["-x"] (mkFlagSet 1 flagInfoSlice) eq_refl Hlen Hsub)
    as [H1 H2].
  split; [exact H1 |]. split.
  - apply (H2 1 (mkFlagSet 1 (mkSlice 0 1 32))); reflexivity.
  - apply (proj2 (parse_dispatches subWorld CommandLine ["-x"])).
    left. simpl. lia.
Defined.

(** The dispatch example of the specification: -x reaches the set "sub". *)
Example dispatch_sets_sub_flag :
  exists w, finalWorld (Parse ["sub"; "-x"] subWorld) = Some w
            /\ readThrough subWorld 1 "x" = Some (VBool false)
            /\ readThrough w 1 "x" = Some (VBool true).
Proof. eexists. split; [reflexivity |]. split; reflexivity. Qed.

Lemma positional_extraction_witness :
  flagSets stringBoolWorld !! "arg0" = None
  /\ (exists w', (FlagSet_Parse 1 positionalTokens ;;; args 1) stringBoolWorld
                 = Done w' ["arg0"; "arg1"; "arg2"])
  /\ (exists w', (parse 1 positionalTokens ;;; args 1) stringBoolWorld
                 = Done w' ["arg0"; "arg1"; "arg2"]).
Proof.
  assert (flagSets stringBoolWorld !! "arg0" = None) as Hnone by reflexivity.
  split; [exact Hnone |].
  destruct (positional_extraction stringBoolWorld 1 (mkFlagSet 1 (mkSlice 0 2 32))
              (mkStd "" false ∅
                     (<["b" := mkFlag "b" "bool flag" 1]>
                        (<["bool" := mkFlag "bool" "bool flag" 1]>
                           (<["s" := mkFlag "s" "Test string flag" 0]>
                              (<["string" := mkFlag "string" "Test string flag" 0]> ∅))))
                     [] ContinueOnError "")
              (mkFlag "bool" "bool flag" 1) (mkFlag "s" "Test string flag" 0)
              false "dflt") as [H1 H2]; try reflexivity.
  split; [exact H1 | exact (H2 Hnone)].
Defined.

(** *** Where the code departs from the claims *)


Lemma shared_destination_after_parse :
  (FlagSet_Parse 1 ["-b"]
     (worldOf ((fs <- NewFlagSet "" ContinueOnError ;;
                SetFlag fs "bool" "b" (Typed (VBool false)) "Test bool flag")
                 runWorld)))
  = Done boolParsedWorld None
  /\ readThrough boolParsedWorld 1 "b" = Some (VBool true)
  /\ readThrough boolParsedWorld 1 "bool" = Some (VBool true)
  /\ lookupFlag boolParsedWorld 1 "bool" = Some (mkFlag "bool" "Test bool flag" 0)
  /\ lookupFlag boolParsedWorld 1 "b" = Some (mkFlag "b" "Test bool flag" 0).
Proof. repeat split; reflexivity. Qed.

(** C2, the code at the failing input.  Defining "beta" on the second set
    replaces the descriptor of "alpha" in the first set: both slices start
    with length 0 in the one backing array of [flagInfoSlice]. *)
Theorem descriptors_overwritten_across_sets :
  descriptors alphaWorld 1 = [mkFlagInfo "alpha" "" "" ""]
  /\ SetFlag 2 "beta" "" (Typed (VBool false)) "" alphaWorld
     = Done alphaBetaWorld (Some 1)
  /\ descriptors alphaBetaWorld 1 = [mkFlagInfo "beta" "" "" ""]
  /\ descriptors alphaBetaWorld 1 <> descriptors alphaWorld 1.
Proof. repeat split; try reflexivity. vm_compute. discriminate. Qed.

(** C3, the code at the failing input.  After parsing the tokens "" and
    "x" (parsing stops at the first token, so both are left over), [args]
    panics on [args[i-1][0]] instead of returning the two tokens. *)
Theorem args_panics_after_empty_token :
  exists w,
    FlagSet_Parse 1 [""; "x"] testWorld = Done w None
    /\ flag_Args 1 w = Done w [""; "x"]
    /\ args 1 w = Panic w "index out of range [0] with length 0".
Proof. eexists. repeat split; reflexivity. Qed.

(** C9, the code at the failing input.  With a placeholder in front, the
    synopsis wraps after the third emitted group, not after the fourth: the
    test [(i+1)%4 == 0] counts the skipped entry. *)
Theorem usage_wraps_after_third_group :
  usageFn_text placeholderFirst "test"
  = "usage: test [-a --aa] [-b --bb] [-c --cc]" +:+ newline
    +:+ "            [-d --dd] [-e --ee]" +:+ newline
    +:+ "    -a --aa         Usage for a" +:+ newline
    +:+ "    -b --bb         Usage for b" +:+ newline
    +:+ "    -c --cc         Usage for c" +:+ newline
    +:+ "    -d --dd         Usage for d" +:+ newline
    +:+ "    -e --ee         Usage for e" +:+ newline
  /\ synopsis placeholderFirst "test"
     = "usage: test [-a --aa] [-b --bb] [-c --cc]" +:+ newline
       +:+ "            [-d --dd] [-e --ee]"
  /\ synopsis_spec placeholderFirst "test"
     = "usage: test [-a --aa] [-b --bb] [-c --cc] [-d --dd]" +:+ newline
       +:+ "            [-e --ee]"
  /\ synopsis placeholderFirst "test" <> synopsis_spec placeholderFirst "test".
Proof. repeat split; try reflexivity. vm_compute. discriminate. Qed.

(** The placeholder is what the definition API leaves for an empty name. *)
Example placeholder_from_SetFlag :
  descriptors (worldOf (SetFlag 1 "" "" (Typed (VBool false)) "" testWorld)) 1
  = [flagInfo_zero].
Proof. reflexivity. Qed.

(** *** Instances of the further properties *)

Lemma heapClosed_stringBoolWorld : heapClosed stringBoolWorld.
Proof.
  apply (heapClosed_defineFlag stringWorld stringBoolWorld 1 "bool" "b"
           (Typed (VBool false)) "bool flag" (Some 1)); [| reflexivity].
  apply (heapClosed_defineFlag testWorld stringWorld 1 "string" "s"
           (Typed (VString "dflt")) "Test string flag" (Some 0)); [| reflexivity].
  apply noFlags_heapClosed. reflexivity.
Qed.

Lemma longer_name_descriptor_witness :
  String.length "nil" <> 1 /\ wfSet testWorld 1 = true
  /\ exists w',
       finalWorld (defineFlag 1 "nil" "n" Nil "Test nil flag" testWorld) = Some w'
       /\ descriptors w' 1
          = (descriptors testWorld 1
             ++ [mkFlagInfo "nil" "n" (extractUsageValue "Test nil flag")
                            "Test nil flag"])%list.
Proof.
  assert (String.length "nil" <> 1) as Hlen by discriminate.
  split; [exact Hlen |]. split; [reflexivity |].
  apply (longer_name_descriptor testWorld 1 "nil" "n" Nil "Test nil flag" Hlen).
  reflexivity.
Defined.



Lemma nil_default_defines_nothing_witness :
  exists w',
    defineFlag 1 "nil" "n" Nil "Test nil flag" testWorld = Done w' None
    /\ stds w' = stds testWorld /\ cells w' = cells testWorld
    /\ flagSets w' = flagSets testWorld
    /\ descriptors w' 1
       = (descriptors testWorld 1 ++ [descriptorOf "nil" "n" "Test nil flag"])%list.
Proof.
  apply (nil_default_defines_nothing testWorld 1 "nil" "n" "Test nil flag").
  reflexivity.
Defined.

Lemma invalid_name_panics_witness :
  validName "a=b" = false
  /\ exists w' msg,
       defineFlag 1 "a=b" "" (Typed (VBool false)) "" testWorld = Panic w' msg
       /\ stds w' = stds testWorld.
Proof.
  split; [reflexivity |].
  apply (invalid_name_panics testWorld 1 "a=b" "" (Typed (VBool false)) "");
    [reflexivity | discriminate | reflexivity].
Defined.

Lemma definition_keeps_existing_flags_witness :
  (forall q v, cells stringWorld !! q = Some v -> cells stringBoolWorld !! q = Some v)
  /\ (forall fs0 id fl, lookupFlag stringWorld fs0 id = Some fl ->
                        lookupFlag stringBoolWorld fs0 id = Some fl)
  /\ flagSets stringBoolWorld = flagSets stringWorld
  /\ length (sets stringBoolWorld) = length (sets stringWorld).
Proof.
  apply (definition_keeps_existing_flags stringWorld stringBoolWorld 1 "bool" "b"
           (Typed (VBool false)) "bool flag" (Some 1)).
  reflexivity.
Defined.

Lemma definition_overwrites_shared_descriptor_witness :
  exists w',
    finalWorld (defineFlag 2 "beta" "" (Typed (VBool false)) "" alphaWorld) = Some w'
    /\ descriptors w' 1 = [mkFlagInfo "beta" "" "" ""].
Proof.
  apply (definition_overwrites_shared_descriptor alphaWorld 2 1
           (mkFlagSet 2 (mkSlice 0 0 32)) (mkFlagSet 1 (mkSlice 0 1 32))
           "beta" "" (Typed (VBool false)) "");
    [reflexivity | reflexivity | discriminate | reflexivity | reflexivity].
Defined.

Lemma reachable_wfWorld_witness : wfWorld stringBoolWorld.
Proof.
  apply (reachable_wfWorld "cmd" runWorld stringBoolWorld CommandLine);
    [reflexivity |].
  apply (setup_defineFlag runWorld stringWorld stringBoolWorld 1 "bool" "b"
           (Typed (VBool false)) "bool flag" (Some 1)); [| reflexivity].
  apply (setup_defineFlag runWorld testWorld stringWorld 1 "string" "s"
           (Typed (VString "dflt")) "Test string flag" (Some 0)); [| reflexivity].
  apply (setup_NewFlagSet runWorld runWorld testWorld "" ContinueOnError 1);
    [apply setup_done | reflexivity].
Defined.

Lemma heapClosed_positionalWorld : heapClosed positionalWorld.
Proof.
  apply heapClosed_iff. intros f st id fl Hst Hid.
  pose proof heapClosed_stringBoolWorld as Hh.
  apply heapClosed_iff with (f := f) (id := id) (fl := fl)
    (st := match f with
           | 1 => mkStd "" false ∅ (f_formal st) [] ContinueOnError ""
           | _ => st
           end) in Hh; [exact Hh | | ].
  - destruct f as [|[|[|f]]]; [exact Hst | | exact Hst | exact Hst].
    cbn in Hst. injection Hst as <-. reflexivity.
  - by destruct f as [|[|f]].
Qed.

Lemma args_returns_positionals_witness :
  hasEmptyBeforePlain positionalTokens = false
  /\ exists r,
       args 1 positionalWorld = Done positionalWorld r
       /\ r `sublist_of` positionalTokens
       /\ Forall (fun t => byteIs t 0 dash = false) r
       /\ (Forall (fun t => byteIs t 0 dash = false) positionalTokens ->
           r = positionalTokens).
Proof.
  split; [reflexivity |].
  apply (args_returns_positionals positionalWorld 1 (mkFlagSet 1 (mkSlice 0 2 32))
           (mkStd "" true ∅
                  (<["b" := mkFlag "b" "bool flag" 1]>
                     (<["bool" := mkFlag "bool" "bool flag" 1]>
                        (<["s" := mkFlag "s" "Test string flag" 0]>
                           (<["string" := mkFlag "string" "Test string flag" 0]> ∅))))
                  positionalTokens ContinueOnError ""));
    [reflexivity | reflexivity | exact heapClosed_positionalWorld | reflexivity].
Defined.

Lemma args_panics_on_empty_before_plain_witness :
  hasEmptyBeforePlain [""; "x"] = true
  /\ args 1 emptyTokenWorld
     = Panic emptyTokenWorld "index out of range [0] with length 0".
Proof.
  split; [reflexivity |].
  apply (args_panics_on_empty_before_plain emptyTokenWorld 1
           (mkFlagSet 1 (mkSlice 0 0 32))
           (mkStd "" true ∅ ∅ [""; "x"] ContinueOnError ""));
    [reflexivity | reflexivity | apply noFlags_heapClosed; reflexivity | reflexivity].
Defined.

Lemma parsing_stops_at_first_positional_witness :
  nonFlag "arg0" = true
  /\ exists w',
       FlagSet_Parse 1 positionalTokens stringBoolWorld = Done w' None
       /\ cells w' = cells stringBoolWorld
       /\ argsOf w' 1 = positionalTokens
       /\ (forall id, lookupFlag w' 1 id = lookupFlag stringBoolWorld 1 id).
Proof.
  split; [reflexivity |].
  apply (parsing_stops_at_first_positional stringBoolWorld 1
           (mkFlagSet 1 (mkSlice 0 2 32))
           (mkStd "" false ∅
                  (<["b" := mkFlag "b" "bool flag" 1]>
                     (<["bool" := mkFlag "bool" "bool flag" 1]>
                        (<["s" := mkFlag "s" "Test string flag" 0]>
                           (<["string" := mkFlag "string" "Test string flag" 0]> ∅))))
                  [] ContinueOnError "")
           "arg0" ["--bool"; "arg1"; "-s"; "string"; "arg2"]);
    reflexivity.
Defined.

Lemma bool_marker_leaves_next_token_witness :
  nonFlag "false" = true
  /\ exists w',
       FlagSet_Parse 1 ["--bool"; "false"] stringBoolWorld = Done w' None
       /\ cells w' = [VString "dflt"; VBool true]
       /\ argsOf w' 1 = ["false"].
Proof.
  split; [reflexivity |].
  apply (bool_marker_leaves_next_token stringBoolWorld 1
           (mkFlagSet 1 (mkSlice 0 2 32))
           (mkStd "" false ∅
                  (<["b" := mkFlag "b" "bool flag" 1]>
                     (<["bool" := mkFlag "bool" "bool flag" 1]>
                        (<["s" := mkFlag "s" "Test string flag" 0]>
                           (<["string" := mkFlag "string" "Test string flag" 0]> ∅))))
                  [] ContinueOnError "")
           "--" "bool" (mkFlag "bool" "bool flag" 1) false "false" []);
    [reflexivity | reflexivity | right; reflexivity | discriminate
     | reflexivity | reflexivity | reflexivity | reflexivity].
Defined.

Lemma inline_value_equals_separate_value_witness :
  FlagSet_Parse 1 ["-s=hello"; "arg"] stringBoolWorld
  = FlagSet_Parse 1 ["-s"; "hello"; "arg"] stringBoolWorld.
Proof.
  apply (inline_value_equals_separate_value stringBoolWorld 1
           (mkFlagSet 1 (mkSlice 0 2 32))
           (mkStd "" false ∅
                  (<["b" := mkFlag "b" "bool flag" 1]>
                     (<["bool" := mkFlag "bool" "bool flag" 1]>
                        (<["s" := mkFlag "s" "Test string flag" 0]>
                           (<["string" := mkFlag "string" "Test string flag" 0]> ∅))))
                  [] ContinueOnError "")
           "-" "s" "hello" (mkFlag "s" "Test string flag" 0) ["arg"]);
    [reflexivity | reflexivity | exact heapClosed_stringBoolWorld
     | left; reflexivity | discriminate | reflexivity | reflexivity | reflexivity].
Defined.


Lemma defined_string_flag_receives_value_witness :
  defines "string" "s" "s"
  /\ exists w2,
       FlagSet_Parse 1 ["-s=hello"] stringWorld = Done w2 None
       /\ cells w2 !! 0 = Some (VString "hello")
       /\ (forall id', defines "string" "s" id' ->
                       readThrough w2 1 id' = Some (VString "hello")).
Proof.
  assert (defines "string" "s" "s") as Hid by (right; split; [discriminate | reflexivity]).
  split; [exact Hid |].
  apply (defined_string_flag_receives_value testWorld stringWorld 1 "string" "s"
           "Test string flag" "dflt" 0 "-" "s" "hello");
    [reflexivity | exact Hid | discriminate | left; reflexivity].
Defined.

Lemma usage_of_placeholders_only_witness :
  usageFn_text [flagInfo_zero; flagInfo_zero] "test" = "usage: test" +:+ newline.
Proof.
  apply (usage_of_placeholders_only [flagInfo_zero; flagInfo_zero] "test").
  repeat constructor.
Defined.

Lemma synopsis_without_placeholders_witness :
  synopsis fiveFlags "test"
  = "usage: test [-a --aa] [-b --bb] [-c --cc] [-d --dd]" +:+ newline
    +:+ "            [-e --ee]".
Proof.
  apply (synopsis_without_placeholders fiveFlags "test");
    [vm_compute; discriminate | repeat constructor].
Defined.

Lemma description_line_layout_witness :
  descriptionLine (mkFlagInfo "aa" "a" "" "Usage for a")
  = "    -a --aa         Usage for a" +:+ newline.
Proof.
  apply (description_line_layout (mkFlagInfo "aa" "a" "" "Usage for a"));
    [reflexivity | reflexivity | reflexivity
     | vm_compute; discriminate | vm_compute; discriminate].
Defined.

End Examples.
